(** * Lem-in path engine: route enumeration, disjoint route selection and
      turn counting ([utils/paths.go]), embedded and verified.

    The development follows the source file function by function:
    [countTurns], [allPaths] (with its [dfs] closure), [bestDisjointPaths]
    (with its [rec] closure) and [FindPaths].  Go's [int] is the 64-bit
    two's-complement integer; its arithmetic is written with explicit
    wrap-around.  Rooms are pointers in the source ([*Room]); a room is
    identified here by its address, a natural number.

    Part I is the model, Part II the properties. *)

From stdpp Require Import base numbers list gmap sorting.
From Stdlib Require Import ZArith Lia.

(** * Part I: the model *)

(** ** Go's 64-bit [int] *)

Module GoInt.

Definition int_max : Z := (2 ^ 63 - 1)%Z.
Definition int_min : Z := (- 2 ^ 63)%Z.

(** Two's-complement reduction of a mathematical integer to an [int]. *)
Definition wrap (z : Z) : Z := ((z + 2 ^ 63) mod 2 ^ 64 - 2 ^ 63)%Z.

Definition add (a b : Z) : Z := wrap (a + b).
Definition sub (a b : Z) : Z := wrap (a - b).

End GoInt.

(** ** Outcomes of a call

    A call of the source either returns, panics (a slice expression out of
    range), or is still running when the fuel given to the model is spent. *)

Inductive outcome (A : Type) : Type :=
| Done (a : A)
| Panic
| OutOfFuel.
Arguments Done {A} a.
Arguments Panic {A}.
Arguments OutOfFuel {A}.

Global Instance outcome_ret : MRet outcome := fun A a => Done a.
Global Instance outcome_bind : MBind outcome := fun A B k m =>
  match m with
  | Done a => k a
  | Panic => Panic
  | OutOfFuel => OutOfFuel
  end.

(** A call returns [a] when every sufficiently large fuel yields [Done a]. *)
Definition returns {A : Type} (run : nat -> outcome A) (a : A) : Prop :=
  exists n : nat, forall fuel : nat, n <= fuel -> run fuel = Done a.

(** ** Rooms, graphs and Go maps keyed by rooms *)

Abbreviation Room := nat (only parsing).

(** The [Graph] and [Room] structures are declared outside [paths.go]; the
    functions below read [g.Start], [g.End], [g.Ants] and [r.Links].  [Rooms]
    is the heap of room structures: the [Links] slice of each room. *)
Record Graph : Type := {
  Start : Room;
  End : Room;
  Ants : Z;
  Rooms : gmap Room (list Room)
}.

Definition Links (g : Graph) (r : Room) : list Room :=
  default [] (Rooms g !! r).

(** [m[r]] on a Go [map[*Room]bool]: a missing key reads as [false]. *)
Definition index (m : gmap Room bool) (r : Room) : bool :=
  default false (m !! r).

(** ** [countTurns] *)

Section CountTurns.
Local Open Scope Z_scope.
Import GoInt.

(** Body of the inner [for _, l := range lens] loop. *)
Definition add_route (turns total l : Z) : Z :=
  if sub turns l >=? 0 then add total (add (sub turns l) 1) else total.

(** Value of [total] after the inner loop. *)
Definition turn_total (turns : Z) (lens : list Z) : Z :=
  foldl (add_route turns) 0 lens.

(** The outer [for turns := 1; ; turns++] loop, entered at [turns]. *)
Fixpoint countTurns_from (fuel : nat) (ants : Z) (lens : list Z) (turns : Z)
  : outcome Z :=
  match fuel with
  | O => OutOfFuel
  | S fuel' =>
      if turn_total turns lens >=? ants then Done turns
      else countTurns_from fuel' ants lens (add turns 1)
  end.

Definition countTurns (fuel : nat) (ants : Z) (lens : list Z) : outcome Z :=
  countTurns_from fuel ants lens 1.

(** The capacity of the specification: the sum over the routes of
    [max(0, T - Li + 1)], over the mathematical integers. *)
Fixpoint capacity (T : Z) (lens : list Z) : Z :=
  match lens with
  | [] => 0
  | l :: lens' => Z.max 0 (T - l + 1) + capacity T lens'
  end.

(** The result the specification asks of [countTurns]: the least turn
    [T >= 1] whose capacity reaches [ants]. *)
Definition least_turns (ants : Z) (lens : list Z) (T : Z) : Prop :=
  1 <= T /\ ants <= capacity T lens /\
  (forall T', 1 <= T' -> ants <= capacity T' lens -> T <= T').

(** Inputs on which no intermediate value of [countTurns] leaves the
    64-bit range. *)
Definition ants_in_range (ants : Z) : Prop := int_min <= ants < 2 ^ 62.

Definition hops_in_range (lens : list Z) : Prop :=
  Forall (fun l => 0 <= l < 2 ^ 62) lens /\ Z.of_nat (length lens) < 2 ^ 61.

Definition min_element (lens : list Z) : Z :=
  match lens with
  | [] => 0
  | l :: lens' => foldl Z.min l lens'
  end.

End CountTurns.

(** ** [allPaths] *)

(** The variables captured by the [dfs] closure. *)
Record dfs_state : Type := {
  res : list (list Room);
  path : list Room;
  visited : gmap Room bool
}.

(** The loop [for _, nb := range r.Links { if !visited[nb] { dfs(nb) } }]. *)
Definition visit_links (dfs : Room -> dfs_state -> outcome dfs_state)
  : list Room -> dfs_state -> outcome dfs_state :=
  fix loop (nbs : list Room) (st : dfs_state) : outcome dfs_state :=
    match nbs with
    | [] => Done st
    | nb :: nbs' =>
        if index (visited st) nb then loop nbs' st
        else st' ← dfs nb st; loop nbs' st'
    end.

Fixpoint dfs (fuel : nat) (g : Graph) (limit : Z) (r : Room) (st : dfs_state)
  : outcome dfs_state :=
  match fuel with
  | O => OutOfFuel
  | S fuel' =>
      if (Z.of_nat (length (res st)) >=? limit)%Z then Done st
      else if decide (r = End g) then
        Done {| res := res st ++ [path st ++ [r]];
                path := path st;
                visited := visited st |}
      else
        let st1 := {| res := res st;
                      path := path st ++ [r];
                      visited := <[r := true]> (visited st) |} in
        st2 ← visit_links (dfs fuel' g limit) (Links g r) st1;
        match path st2 with
        | [] => Panic
        | _ :: _ =>
            Done {| res := res st2;
                    path := removelast (path st2);
                    visited := <[r := false]> (visited st2) |}
        end
  end.

Definition allPaths (fuel : nat) (g : Graph) (limit : Z)
  : outcome (list (list Room)) :=
  st ← dfs fuel g limit (Start g) {| res := []; path := []; visited := ∅ |};
  Done (res st).

(** Depth-first discovery order, as a list: the routes that extend [path]
    through [r], neighbours taken in the order of [Links]. *)
Fixpoint dfs_order (fuel : nat) (g : Graph) (path : list Room) (r : Room)
  : list (list Room) :=
  match fuel with
  | O => []
  | S fuel' =>
      if decide (r = End g) then [path ++ [r]]
      else
        flat_map (fun nb =>
                    if decide (nb ∈ path ++ [r]) then []
                    else dfs_order fuel' g (path ++ [r]) nb)
                 (Links g r)
  end.

Definition routes_in_dfs_order (g : Graph) : list (list Room) :=
  dfs_order (S (size (Rooms g))) g [] (Start g).

(** A walk follows links; a route is a simple walk from [Start] to [End]. *)
Fixpoint walk_from (g : Graph) (a : Room) (q : list Room) : Prop :=
  match q with
  | [] => True
  | b :: q' => b ∈ Links g a /\ walk_from g b q'
  end.

Definition walk (g : Graph) (p : list Room) : Prop :=
  match p with
  | [] => True
  | a :: q => walk_from g a q
  end.

Definition route (g : Graph) (p : list Room) : Prop :=
  head p = Some (Start g) /\ last p = Some (End g) /\ NoDup p /\ walk g p.

Definition connected (g : Graph) : Prop :=
  exists p, head p = Some (Start g) /\ last p = Some (End g) /\ walk g p.

(** ** [bestDisjointPaths] *)

(** The variables [bestTurns], [best] and [bestIdx] captured by [rec]. *)
Record best_state : Type := {
  bestTurns : Z;
  best : list (list Room);
  bestIdx : list nat
}.

(** The slice expression [p[1 : len(p)-1]]; out of range below two rooms. *)
Definition interior (p : list Room) : outcome (list Room) :=
  if decide (2 <= length p) then Done (removelast (tail p)) else Panic.

(** The same rooms as a plain list (empty when the slice is out of range). *)
Definition inner (p : list Room) : list Room := removelast (tail p).

(** [len(path) - 1]; a length is a non-negative [int], so no wrap-around. *)
Definition hops (p : list Room) : Z := (Z.of_nat (length p) - 1)%Z.

(** The loop over [k] comparing [idxs] with [bestIdx]: [true] when it sets
    [better], [false] when it breaks on a larger index or runs out. *)
Fixpoint smaller_index (idxs bestIdx : list nat) : bool :=
  match idxs, bestIdx with
  | i :: idxs', b :: bestIdx' =>
      if i <? b then true
      else if b <? i then false
      else smaller_index idxs' bestIdx'
  | _, _ => false
  end.

Definition better (t : Z) (idxs : list nat) (s : best_state) : bool :=
  if (t <? bestTurns s)%Z then true
  else if (t =? bestTurns s)%Z then
    let b := smaller_index idxs (bestIdx s) in
    if negb b && (length idxs <? length (bestIdx s)) then true else b
  else false.

(** The base case [i == len(all)] of [rec]. *)
Definition consider (fuel : nat) (ants : Z) (cur : list (list Room))
    (idxs : list nat) (s : best_state) : outcome best_state :=
  if decide (length cur = 0) then Done s
  else
    t ← countTurns fuel ants (map hops cur);
    if better t idxs s
    then Done {| bestTurns := t; best := cur; bestIdx := idxs |}
    else Done s.

Definition valid (used : gmap Room bool) (rs : list Room) : bool :=
  forallb (fun r => negb (index used r)) rs.

Definition mark (used : gmap Room bool) (rs : list Room) : gmap Room bool :=
  foldl (fun u r => <[r := true]> u) used rs.

Definition unmark (used : gmap Room bool) (rs : list Room) : gmap Room bool :=
  foldl (fun u r => delete r u) used rs.

(** [rec(i, cur, idxs, used)], with [rest = all[i:]]: the base case
    [i == len(all)] is [rest = []], and [all[i]] is the head of [rest].
    The slices [cur] and [idxs] may share their backing arrays with the
    caller's, but a callee only appends beyond the caller's length, so the
    caller's elements are never overwritten: plain lists are exact. *)
Fixpoint rec (fuel : nat) (ants : Z) (rest : list (list Room)) (i : nat)
    (cur : list (list Room)) (idxs : list nat) (used : gmap Room bool)
    (s : best_state) : outcome (gmap Room bool * best_state) :=
  match rest with
  | [] => s' ← consider fuel ants cur idxs s; Done (used, s')
  | p :: rest' =>
      r1 ← rec fuel ants rest' (S i) cur idxs used s;
      mid ← interior p;
      if valid r1.1 mid then
        r2 ← rec fuel ants rest' (S i) (cur ++ [p]) (idxs ++ [i])
               (mark r1.1 mid) r1.2;
        Done (unmark r2.1 mid, r2.2)
      else Done r1
  end.

Definition bestDisjointPaths (fuel : nat) (all : list (list Room)) (ants : Z)
  : outcome (list (list Room)) :=
  r ← rec fuel ants all 0 [] [] ∅
        {| bestTurns := GoInt.int_max; best := []; bestIdx := [] |};
  Done (best r.2).

(** ** [sort.SliceStable]

    [FindPaths] sorts with Go's [sort.SliceStable], which is library code:
    insertion sort on blocks of 20 elements, then passes of in-place
    [symMerge] on blocks of doubling size ([stable], [insertionSort],
    [symMerge], [rotate] and [swapRange] of the [sort] package).  The
    slice is a list; [less] receives the current slice and two indices,
    as the closure passed by [FindPaths] reads [all[i]] and [all[j]] from
    the slice being sorted.  Loops that count up to a bound known on entry
    recurse on that bound.  All indices stay below the length. *)

Section GoSort.
Context {A : Type}.
Variable less : list A -> nat -> nat -> bool.

(** [data.Swap(i, j)]. *)
Definition swap (l : list A) (i j : nat) : list A :=
  match l !! i, l !! j with
  | Some x, Some y => <[j := x]> (<[i := y]> l)
  | _, _ => l
  end.

(** The inner loop of [insertionSort]:
    [for j := i; j > a && less(j, j-1); j-- { swap(j, j-1) }]. *)
Fixpoint sift (a j : nat) (l : list A) : list A :=
  match j with
  | O => l
  | S j' => if (a <? j) && less l j j' then sift a j' (swap l j j') else l
  end.

(** [for i := a + 1; i < b; i++]. *)
Definition insertionSort (a b : nat) (l : list A) : list A :=
  foldl (fun l i => sift a i l) l (seq (S a) (b - S a)).

(** [for i := 0; i < n; i++ { swap(a+i, b+i) }]. *)
Definition swapRange (a b n : nat) (l : list A) : list A :=
  foldl (fun l i => swap l (a + i) (b + i)) l (seq 0 n).

(** [rotate]: the loop [for i != j], then the final [swapRange]; [k] bounds
    the number of iterations. *)
Fixpoint rotate_loop (k m i j : nat) (l : list A) : list A :=
  match k with
  | O => l
  | S k' =>
      if i =? j then swapRange (m - i) m i l
      else if j <? i then rotate_loop k' m (i - j) j (swapRange (m - i) m j l)
      else rotate_loop k' m i (j - i) (swapRange (m - i) (m + j - i) i l)
  end.

Definition rotate (a m b : nat) (l : list A) : list A :=
  rotate_loop (b - a) m (m - a) (b - m) l.

(** The binary searches of [symMerge]:
    [for i < j { h := (i+j)/2; if p(h) { i = h + 1 } else { j = h } }]. *)
Fixpoint bsearch (k : nat) (p : nat -> bool) (i j : nat) : nat :=
  match k with
  | O => i
  | S k' =>
      if i <? j then
        let h := (i + j) / 2 in
        if p h then bsearch k' p (h + 1) j else bsearch k' p i h
      else i
  end.

(** [symMerge(data, a, m, b)] merges the sorted [data[a:m]] and
    [data[m:b]]; [k] bounds the depth of the recursion. *)
Fixpoint symMerge (k a m b : nat) (l : list A) : list A :=
  match k with
  | O => l
  | S k' =>
      if m - a =? 1 then
        let i := bsearch (b - m) (fun h => less l h a) m b in
        foldl (fun l k => swap l k (k + 1)) l (seq a (i - 1 - a))
      else if b - m =? 1 then
        let i := bsearch (m - a) (fun h => negb (less l m h)) a m in
        foldl (fun l k => swap l k (k - 1)) l (rev (seq (S i) (m - i)))
      else
        let mid := (a + b) / 2 in
        let n := mid + m in
        let start0 := if mid <? m then n - b else a in
        let r := if mid <? m then mid else m in
        let p := n - 1 in
        let start := bsearch (r - start0) (fun c => negb (less l (p - c) c)) start0 r in
        let end_ := n - start in
        let l1 := if (start <? m) && (m <? end_) then rotate start m end_ l else l in
        let l2 := if (a <? start) && (start <? mid) then symMerge k' a start mid l1 else l1 in
        if (mid <? end_) && (end_ <? b) then symMerge k' mid end_ b l2 else l2
  end.

(** The first loop of [stable]: insertion sort of each block. *)
Fixpoint sort_blocks (k bs a n : nat) (l : list A) : list A :=
  match k with
  | O => insertionSort a n l
  | S k' =>
      if a + bs <=? n then sort_blocks k' bs (a + bs) n (insertionSort a (a + bs) l)
      else insertionSort a n l
  end.

(** One pass of [stable]: merge the blocks two by two. *)
Fixpoint merge_pairs (k bs a n : nat) (l : list A) : list A :=
  match k with
  | O => l
  | S k' =>
      if a + 2 * bs <=? n
      then merge_pairs k' bs (a + 2 * bs) n (symMerge (2 * bs) a (a + bs) (a + 2 * bs) l)
      else if a + bs <? n then symMerge (n - a) a (a + bs) n l else l
  end.

(** The loop [for blockSize < n] of [stable]. *)
Fixpoint merge_passes (k bs n : nat) (l : list A) : list A :=
  match k with
  | O => l
  | S k' =>
      if bs <? n then merge_passes k' (2 * bs) n (merge_pairs n bs 0 n l) else l
  end.

Definition stable (l : list A) : list A :=
  let n := length l in
  merge_passes n 20 n (sort_blocks n 20 0 n l).

End GoSort.

(** The closure passed to [sort.SliceStable] by [FindPaths]. *)
Definition less_len (all : list (list Room)) (i j : nat) : bool :=
  let li := length (default [] (all !! i)) in
  let lj := length (default [] (all !! j)) in
  if li =? lj then i <? j else li <? lj.

(** ** [FindPaths]

    [MaxPaths] is a constant of the package declared outside [paths.go]. *)
Definition FindPaths (MaxPaths : Z) (fuel : nat) (g : Graph)
  : outcome (list (list Room)) :=
  all ← allPaths fuel g MaxPaths;
  bestDisjointPaths fuel (stable less_len all) (Ants g).

(** ** Stable sorting, as the specification words it

    Sorted by a key, a permutation of the input, and, for every key, the
    elements with that key in their original order. *)

Definition by_key {A : Type} (key : A -> nat) (x y : A) : Prop := key x <= key y.

Definition with_key {A : Type} (key : A -> nat) (k : nat) (l : list A) : list A :=
  filter (fun x => key x = k) l.

Definition stable_sorted {A : Type} (key : A -> nat) (X M : list A) : Prop :=
  StronglySorted (by_key key) M /\ M ≡ₚ X /\
  forall k, with_key key k M = with_key key k X.

(** [M] is the stable merge of the sorted [L] and [R]. *)
Definition merged {A : Type} (key : A -> nat) (L R M : list A) : Prop :=
  StronglySorted (by_key key) M /\ M ≡ₚ L ++ R /\
  forall k, with_key key k M = with_key key k L ++ with_key key k R.

(** The state of the slice between the passes of [stable]: consecutive
    blocks of [bs] elements, each sorted stably. *)
Inductive blocks {A : Type} (key : A -> nat) (bs : nat) : list A -> list A -> Prop :=
| blocks_last X M :
    length X <= bs -> stable_sorted key X M -> blocks key bs X M
| blocks_cons X1 M1 X2 M2 :
    length X1 = bs -> stable_sorted key X1 M1 -> blocks key bs X2 M2 ->
    blocks key bs (X1 ++ X2) (M1 ++ M2).

(** ** Combinations of routes, as the specification words them *)

(** Interior rooms of two routes do not meet. *)
Definition interior_disjoint (p q : list Room) : Prop :=
  forall x, x ∈ inner p -> x ∉ inner q.

(** The route-set invariant: any two routes at different positions have
    disjoint interiors. *)
Definition pairwise_disjoint (ps : list (list Room)) : Prop :=
  forall i j p q, i <> j -> ps !! i = Some p -> ps !! j = Some q ->
                  interior_disjoint p q.

(** A fully-decided combination is a skip/include decision [d] for every
    route of the list; [chosen] are the included routes and [chosen_idx]
    their positions in the list, counted from [i]. *)
Fixpoint chosen (d : list bool) (rest : list (list Room)) : list (list Room) :=
  match d, rest with
  | b :: d', p :: rest' => if b then p :: chosen d' rest' else chosen d' rest'
  | _, _ => []
  end.

Fixpoint chosen_idx (d : list bool) (i : nat) : list nat :=
  match d with
  | [] => []
  | b :: d' => if b then i :: chosen_idx d' (S i) else chosen_idx d' (S i)
  end.

Definition combination (all : list (list Room)) (d : list bool) : Prop :=
  length d = length all /\ chosen d all <> [] /\ pairwise_disjoint (chosen d all).

(** The order of the specification on scored combinations: fewer turns
    first; on a tie the smaller index at the first differing position of
    the shared prefix; on an equal shared prefix the fewer routes. *)
Definition first_diff_smaller (c1 c2 : list nat) : Prop :=
  exists k x y, take k c1 = take k c2 /\ c1 !! k = Some x /\ c2 !! k = Some y /\ x < y.

Definition shared_prefix_equal (c1 c2 : list nat) : Prop :=
  take (length c1 `min` length c2) c1 = take (length c1 `min` length c2) c2.

Definition beats (t1 : Z) (c1 : list nat) (t2 : Z) (c2 : list nat) : Prop :=
  (t1 < t2)%Z \/
  (t1 = t2 /\ (first_diff_smaller c1 c2 \/
               (shared_prefix_equal c1 c2 /\ length c1 < length c2))).

(** The turn count of a set of routes. *)
Definition turns_of (ants : Z) (ps : list (list Room)) (T : Z) : Prop :=
  returns (fun fuel => countTurns fuel ants (map hops ps)) T.

(** Route lists on which [countTurns] stays in range and no slice
    expression is out of range. *)
Definition paths_in_range (all : list (list Room)) : Prop :=
  Forall (fun p => 2 <= length p /\ (Z.of_nat (length p) <= 2 ^ 62)%Z) all /\
  (Z.of_nat (length all) < 2 ^ 61)%Z.

(** ** The order in which [rec] reaches its base case *)

(** [used] marks exactly the interior rooms of the routes in [cur]. *)
Definition used_inv (used : gmap Room bool) (cur : list (list Room)) : Prop :=
  forall x, index used x = true <-> exists q, q ∈ cur /\ x ∈ inner q.

Definition clear_of (cur : list (list Room)) (p : list Room) : bool :=
  forallb (fun x => forallb (fun q => bool_decide (x ∉ inner q)) cur) (inner p).

(** The pairs [(cur, idxs)] with which [rec] reaches [i == len(all)], in
    the order of the calls: skipping a route comes before including it. *)
Fixpoint combos (rest : list (list Room)) (i : nat) (cur : list (list Room))
    (idxs : list nat) : list (list (list Room) * list nat) :=
  match rest with
  | [] => [(cur, idxs)]
  | p :: rest' =>
      combos rest' (S i) cur idxs ++
      (if clear_of cur p
       then combos rest' (S i) (cur ++ [p]) (idxs ++ [i])
       else [])
  end.

Fixpoint consider_all (fuel : nat) (ants : Z)
    (cs : list (list (list Room) * list nat)) (s : best_state)
  : outcome best_state :=
  match cs with
  | [] => Done s
  | c :: cs' => s' ← consider fuel ants c.1 c.2 s; consider_all fuel ants cs' s'
  end.

(** Lexicographic order on index sequences, a prefix before its
    extensions. *)
Fixpoint lex_lt (c1 c2 : list nat) : Prop :=
  match c1, c2 with
  | _, [] => False
  | [], _ :: _ => True
  | x :: c1', y :: c2' => x < y \/ (x = y /\ lex_lt c1' c2')
  end.

(** [visited_before cx cy]: [rec] reaches its base case with the index
    sequence [cx] before it does with [cy]. *)
Fixpoint visited_before (cx cy : list nat) : Prop :=
  match cx, cy with
  | _, [] => False
  | [], _ :: _ => True
  | x :: cx', y :: cy' => y < x \/ (x = y /\ visited_before cx' cy')
  end.

(** Scored combinations compared by turns, then by [lex_lt]. *)
Definition key_lt (t1 : Z) (c1 : list nat) (t2 : Z) (c2 : list nat) : Prop :=
  (t1 < t2)%Z \/ (t1 = t2 /\ lex_lt c1 c2).

Definition key_le (t1 : Z) (c1 : list nat) (t2 : Z) (c2 : list nat) : Prop :=
  key_lt t1 c1 t2 c2 \/ (t1 = t2 /\ c1 = c2).

(** The included routes fit together: each is clear of the routes before
    it. *)
Fixpoint fits (cur sel : list (list Room)) : Prop :=
  match sel with
  | [] => True
  | p :: sel' => clear_of cur p = true /\ fits (cur ++ [p]) sel'
  end.

(** ** Invariants of the search *)

(** [visited] marks exactly the rooms of the current [path], which is
    duplicate-free, made of rooms that have links, and [res] holds at most
    [limit] routes. *)
Definition dfs_inv (g : Graph) (limit : Z) (st : dfs_state) : Prop :=
  (forall x, index (visited st) x = true <-> x ∈ path st) /\
  NoDup (path st) /\
  (forall x, x ∈ path st -> x ∈ dom (Rooms g)) /\
  length (res st) <= Z.to_nat limit.

(** ** Sample graphs *)

(** Two routes of two hops each between rooms 0 and 3. *)
Definition diamond : Graph :=
  {| Start := 0; End := 3; Ants := 4;
     Rooms := {[ 0 := [1; 2]; 1 := [0; 3]; 2 := [0; 3]; 3 := [1; 2] ]} |}.

(** The direct link between rooms 0 and 1, with no token to move. *)
Definition direct_no_ants : Graph :=
  {| Start := 0; End := 1; Ants := 0;
     Rooms := {[ 0 := [1]; 1 := [0] ]} |}.

(** A direct link from room 0 to room 3 listed after a detour through
    room 1, and a single ant. *)
Definition detour : Graph :=
  {| Start := 0; End := 3; Ants := 1;
     Rooms := {[ 0 := [1; 3]; 1 := [0; 3]; 3 := [0; 1] ]} |}.

(** Two routes from room 0 to room 3 that share the interior room 1:
    through rooms 1 and 2, and through room 1 alone. *)
Definition bottleneck : Graph :=
  {| Start := 0; End := 3; Ants := 3;
     Rooms := {[ 0 := [1]; 1 := [0; 2; 3]; 2 := [1; 3]; 3 := [1; 2] ]} |}.

(** One room that is both [Start] and [End]. *)
Definition single_room : Graph :=
  {| Start := 0; End := 0; Ants := 2; Rooms := {[ 0 := [] ]} |}.

(** Graphs and caps on which the engine stays within the 64-bit range. *)
Definition graph_in_range (MaxPaths : Z) (g : Graph) : Prop :=
  (MaxPaths < 2 ^ 61)%Z /\ (Z.of_nat (size (Rooms g)) < 2 ^ 62)%Z.

(** * Part II: properties *)

Example countTurns_2_3 : countTurns 10 5 [2; 3]%Z = Done 4%Z.
Proof. reflexivity. Qed.

Example countTurns_direct : countTurns 10 3 [1]%Z = Done 3%Z.
Proof. reflexivity. Qed.

Example countTurns_no_route : countTurns 50 1 [] = OutOfFuel.
Proof. reflexivity. Qed.

Example countTurns_five_passes :
  countTurns 5 7 [4; 1]%Z = Done 5%Z /\ countTurns 4 7 [4; 1]%Z = OutOfFuel.
Proof. split; reflexivity. Qed.

Example allPaths_bottleneck :
  allPaths 10 bottleneck 5 = Done [[0; 1; 2; 3]; [0; 1; 3]].
Proof. vm_compute. reflexivity. Qed.

Example FindPaths_bottleneck : FindPaths 5 10 bottleneck = Done [[0; 1; 3]].
Proof. vm_compute. reflexivity. Qed.

Example allPaths_diamond :
  allPaths 10 diamond 5 = Done [[0; 1; 3]; [0; 2; 3]].
Proof. vm_compute. reflexivity. Qed.

Example best_diamond :
  bestDisjointPaths 10 [[0; 1; 3]; [0; 2; 3]] 4 = Done [[0; 1; 3]; [0; 2; 3]].
Proof. vm_compute. reflexivity. Qed.

(** ** Machine arithmetic *)

Section GoIntFacts.
Local Open Scope Z_scope.
Import GoInt.

Lemma wrap_id z : int_min <= z <= int_max -> wrap z = z.
Proof.
  unfold wrap, int_min, int_max. intros Hz.
  rewrite Z.mod_small; lia.
Qed.

Lemma wrap_range z : int_min <= wrap z <= int_max.
Proof.
  unfold wrap, int_min, int_max.
  pose proof (Z.mod_pos_bound (z + 2 ^ 63) (2 ^ 64)). lia.
Qed.

Lemma add_id a b : int_min <= a + b <= int_max -> add a b = a + b.
Proof. apply wrap_id. Qed.

Lemma sub_id a b : int_min <= a - b <= int_max -> sub a b = a - b.
Proof. apply wrap_id. Qed.

End GoIntFacts.

Lemma returns_inj {A : Type} (run : nat -> outcome A) (a b : A) :
  returns run a -> returns run b -> a = b.
Proof.
  intros [n Hn] [m Hm].
  specialize (Hn (n `max` m) ltac:(lia)).
  specialize (Hm (n `max` m) ltac:(lia)).
  congruence.
Qed.

(** ** The turn capacity calculator *)

Section CountTurnsFacts.
Local Open Scope Z_scope.
Import GoInt.

Lemma capacity_nonneg T lens : 0 <= capacity T lens.
Proof. induction lens as [|l lens IH]; simpl; lia. Qed.

Lemma capacity_mono T T' lens : T <= T' -> capacity T lens <= capacity T' lens.
Proof. intros HT. induction lens as [|l lens IH]; simpl; lia. Qed.

Lemma capacity_succ T lens :
  capacity (T + 1) lens <= capacity T lens + Z.of_nat (length lens).
Proof. induction lens as [|l lens IH]; simpl length; simpl capacity; lia. Qed.

Lemma capacity_one lens :
  Forall (fun l => 0 <= l) lens -> capacity 1 lens <= 2 * Z.of_nat (length lens).
Proof.
  induction 1 as [|l lens Hl _ IH]; simpl length; simpl capacity; lia.
Qed.

Lemma capacity_reach A l lens :
  l ∈ lens -> 1 <= A -> A <= capacity (l + A) lens.
Proof.
  intros Hin HA. induction Hin as [l lens|l l' lens _ IH]; simpl.
  - pose proof (capacity_nonneg (l + A) lens). lia.
  - lia.
Qed.

(** Lengthening routes never raises the capacity. *)
Lemma capacity_anti T lens lens' :
  Forall2 Z.le lens lens' -> capacity T lens' <= capacity T lens.
Proof. induction 1; simpl; lia. Qed.

(** In range, the inner loop computes the capacity exactly. *)
Lemma turn_total_acc T lens acc :
  1 <= T <= int_max ->
  Forall (fun l => 0 <= l < 2 ^ 62) lens ->
  0 <= acc -> acc + capacity T lens <= int_max ->
  foldl (add_route T) acc lens = acc + capacity T lens.
Proof.
  intros HT Hl. revert acc.
  induction Hl as [|l lens Hl _ IH]; intros acc Hacc Hsum; simpl.
  - lia.
  - simpl in Hsum. pose proof (capacity_nonneg T lens) as Hc.
    unfold int_max, int_min in *.
    unfold add_route. rewrite sub_id by (unfold int_max, int_min; lia).
    destruct (Z.geb_spec (T - l) 0) as [Hge|Hlt].
    + rewrite (add_id (T - l) 1) by (unfold int_max, int_min; lia).
      rewrite add_id by (unfold int_max, int_min; lia).
      rewrite IH by lia. lia.
    + rewrite IH by lia. lia.
Qed.

Lemma turn_total_capacity T lens :
  1 <= T <= int_max ->
  Forall (fun l => 0 <= l < 2 ^ 62) lens ->
  capacity T lens <= int_max ->
  turn_total T lens = capacity T lens.
Proof.
  intros. unfold turn_total. rewrite turn_total_acc; auto; lia.
Qed.

(** The scan from [t] stops at the first turn whose capacity reaches
    [ants]. *)
Lemma countTurns_from_first fuel ants lens t T :
  1 <= t <= T -> T <= int_max ->
  Forall (fun l => 0 <= l < 2 ^ 62) lens ->
  capacity T lens <= int_max ->
  (forall t', t <= t' < T -> capacity t' lens < ants) ->
  ants <= capacity T lens ->
  (Z.to_nat (T - t) < fuel)%nat ->
  countTurns_from fuel ants lens t = Done T.
Proof.
  revert t. induction fuel as [|fuel IH]; intros t Ht HT Hl Hcap Hlow Hhit Hfuel.
  - lia.
  - simpl. rewrite turn_total_capacity; [|lia|done|].
    2:{ pose proof (capacity_mono t T lens). lia. }
    destruct (Z.geb_spec (capacity t lens) ants) as [Hge|Hlt].
    + destruct (decide (t = T)) as [->|Hne]; [done|].
      specialize (Hlow t). lia.
    + assert (t < T) by (destruct (decide (t = T)) as [->|]; lia).
      rewrite add_id by (unfold int_max, int_min in *; lia).
      apply IH; try done; try lia.
      intros t' Ht'. apply Hlow. lia.
Qed.

(** A least turn exists below any turn that reaches [ants]. *)
Lemma least_turn ants lens (n : nat) :
  ants <= capacity (1 + Z.of_nat n) lens ->
  exists T, 1 <= T <= 1 + Z.of_nat n /\ ants <= capacity T lens /\
            (forall t', 1 <= t' < T -> capacity t' lens < ants).
Proof.
  induction n as [|n IH]; intros Hn.
  - exists 1. split; [lia|]. split; [done|]. intros; lia.
  - destruct (Z_le_gt_dec ants (capacity (1 + Z.of_nat n) lens)) as [Hle|Hgt].
    + destruct (IH Hle) as (T & HT & Hhit & Hlow). exists T. repeat split; auto; lia.
    + exists (1 + Z.of_nat (S n)). split; [lia|]. split; [done|].
      intros t' Ht'. pose proof (capacity_mono t' (1 + Z.of_nat n) lens). lia.
Qed.

Lemma least_turns_unique ants lens T T' :
  least_turns ants lens T -> least_turns ants lens T' -> T = T'.
Proof.
  intros (H1 & H2 & H3) (H1' & H2' & H3').
  specialize (H3 T' H1' H2'). specialize (H3' T H1 H2). lia.
Qed.

(** In range, [countTurns] returns, and returns the least turn; the
    result stays strictly below [int_max]. *)
Lemma countTurns_returns_least ants lens :
  ants_in_range ants -> hops_in_range lens -> lens <> [] ->
  exists T, least_turns ants lens T /\ T < int_max /\
            (forall fuel, (Z.to_nat T <= fuel)%nat ->
                          countTurns fuel ants lens = Done T).
Proof.
  intros [HA1 HA2] [Hl Hlen] Hne.
  destruct lens as [|l0 lens0] eqn:Elens; [done|]. rewrite <- Elens in *.
  assert (Hin : l0 ∈ lens) by (rewrite Elens; left).
  assert (Hl0 : 0 <= l0 < 2 ^ 62) by (rewrite Forall_forall in Hl; auto).
  set (T0 := Z.max 1 (l0 + ants)).
  assert (Hreach : ants <= capacity T0 lens).
  { destruct (Z_le_gt_dec ants 0).
    - pose proof (capacity_nonneg T0 lens). lia.
    - pose proof (capacity_reach ants l0 lens Hin ltac:(lia)).
      replace T0 with (l0 + ants) by lia. done. }
  destruct (least_turn ants lens (Z.to_nat (T0 - 1))) as (T & HT & Hhit & Hlow).
  { replace (1 + Z.of_nat (Z.to_nat (T0 - 1))) with T0 by lia. done. }
  assert (HTmax : T < int_max) by (unfold int_max; lia).
  assert (Hcap : capacity T lens <= int_max).
  { destruct (decide (T = 1)) as [->|HT1].
    - pose proof (capacity_one lens) as H1.
      unfold int_max.
      assert (Forall (fun l => 0 <= l) lens) by (eapply Forall_impl; [exact Hl|]; simpl; lia).
      specialize (H1 ltac:(done)). lia.
    - pose proof (capacity_succ (T - 1) lens) as Hs.
      replace (T - 1 + 1) with T in Hs by lia.
      specialize (Hlow (T - 1) ltac:(lia)). unfold int_max. lia. }
  exists T. split; [|split; [done|]].
  - split; [lia|]. split; [done|].
    intros T' HT' Hhit'. destruct (Z_le_gt_dec T T'); [done|].
    specialize (Hlow T' ltac:(lia)). lia.
  - intros fuel Hfuel. unfold countTurns.
    apply countTurns_from_first; try done; try lia.
Qed.

End CountTurnsFacts.

Section CountTurnsClaims.
Local Open Scope Z_scope.
Import GoInt.

Lemma capacity_strict T T' lens :
  T < T' -> 0 < capacity T lens -> capacity T lens < capacity T' lens.
Proof.
  intros HT. induction lens as [|l lens IH]; simpl; [lia|].
  intros Hpos. pose proof (capacity_mono T T' lens ltac:(lia)).
  pose proof (capacity_nonneg T lens).
  destruct (Z_lt_le_dec 0 (capacity T lens)) as [Hc|Hc]; [specialize (IH Hc)|]; lia.
Qed.

Lemma hops_in_range_Forall2_nonempty (lens lens' : list Z) :
  Forall2 Z.le lens lens' -> lens <> [] -> lens' <> [].
Proof. intros H Hne. destruct H; [done|discriminate]. Qed.

Lemma countTurns_returns ants lens :
  ants_in_range ants -> hops_in_range lens -> lens <> [] ->
  exists T, least_turns ants lens T /\
            returns (fun fuel => countTurns fuel ants lens) T.
Proof.
  intros HA Hl Hne.
  destruct (countTurns_returns_least ants lens HA Hl Hne) as (T & Hleast & _ & Hrun).
  exists T. split; [done|]. exists (Z.to_nat T). exact Hrun.
Qed.

(** C1: for a token count [ants >= 1] and a non-empty list of hop counts
    (within the 64-bit range), [countTurns] returns the least [T >= 1] whose
    capacity, the sum of [max(0, T - Li + 1)], reaches [ants]; when [ants]
    is exactly the capacity at some turn [T0], the result is [T0] itself. *)
Theorem countTurns_least_turn (ants : Z) (lens : list Z) :
  1 <= ants -> ants < 2 ^ 62 -> hops_in_range lens -> lens <> [] ->
  exists T,
    returns (fun fuel => countTurns fuel ants lens) T /\
    1 <= T /\ ants <= capacity T lens /\
    (forall T', 1 <= T' -> ants <= capacity T' lens -> T <= T') /\
    (forall T0, 1 <= T0 -> ants = capacity T0 lens -> T = T0).
Proof.
  intros HA1 HA2 Hl Hne.
  destruct (countTurns_returns ants lens) as (T & (HT1 & Hhit & Hmin) & Hrun);
    [unfold ants_in_range, int_min; lia|done|done|].
  exists T. repeat split; auto.
  intros T0 HT0 Heq.
  assert (T <= T0) by (apply Hmin; lia).
  destruct (Z_lt_le_dec T T0) as [Hlt|]; [|lia].
  pose proof (capacity_strict T T0 lens Hlt ltac:(lia)). lia.
Qed.

Lemma countTurns_least_turn_witness :
  exists T,
    returns (fun fuel => countTurns fuel 5 [2; 3]) T /\
    1 <= T /\ 5 <= capacity T [2; 3] /\
    (forall T', 1 <= T' -> 5 <= capacity T' [2; 3] -> T <= T') /\
    (forall T0, 1 <= T0 -> 5 = capacity T0 [2; 3] -> T = T0).
Proof.
  apply (countTurns_least_turn 5 [2; 3]).
  - lia.
  - lia.
  - split; [repeat constructor; lia|simpl; lia].
  - discriminate.
Defined.

(** With less fuel than turns to scan, the loop is still running. *)
Lemma countTurns_from_short fuel ants lens t T :
  1 <= t -> T <= int_max -> ants <= int_max ->
  Forall (fun l => 0 <= l < 2 ^ 62) lens ->
  (forall t', t <= t' < T -> capacity t' lens < ants) ->
  Z.of_nat fuel <= T - t ->
  countTurns_from fuel ants lens t = OutOfFuel.
Proof.
  revert t. induction fuel as [|fuel IH]; intros t Ht HT HA Hl Hlow Hfuel; [done|].
  simpl. pose proof (Hlow t ltac:(lia)) as Hcap.
  rewrite turn_total_capacity; [|lia|done|lia].
  destruct (Z.geb_spec (capacity t lens) ants) as [Hge|_]; [lia|].
  rewrite add_id by (unfold int_min; lia).
  apply IH; try done; try lia. intros t' Ht'. apply Hlow. lia.
Qed.

(** Reduction to 64 bits removes a multiple of [2 ^ 64]. *)
Lemma wrap_multiple z : exists q, wrap z = z - 2 ^ 64 * q.
Proof.
  exists ((z + 2 ^ 63) / 2 ^ 64). unfold wrap.
  pose proof (Z.div_mod (z + 2 ^ 63) (2 ^ 64) ltac:(lia)). lia.
Qed.

(** On two routes of two hops [total] is even, so it never reaches the
    odd [int_max]. *)
Lemma turn_total_even (t : Z) : turn_total t [2; 2] < int_max.
Proof.
  unfold turn_total. simpl. unfold add_route.
  destruct (sub t 2 >=? 0); [|unfold int_max; lia].
  unfold add.
  destruct (wrap_multiple (sub t 2 + 1)) as [q1 H1].
  destruct (wrap_multiple (0 + wrap (sub t 2 + 1))) as [q2 H2].
  destruct (wrap_multiple (wrap (0 + wrap (sub t 2 + 1)) + wrap (sub t 2 + 1)))
    as [q3 H3].
  pose proof (wrap_range (wrap (0 + wrap (sub t 2 + 1)) + wrap (sub t 2 + 1))) as Hr.
  unfold int_max in *. lia.
Qed.

Lemma countTurns_from_overflow (fuel : nat) : forall t,
  countTurns_from fuel int_max [2; 2] t = OutOfFuel.
Proof.
  induction fuel as [|fuel IH]; intros t; simpl; [done|].
  pose proof (turn_total_even t).
  destruct (Z.geb_spec (turn_total t [2; 2]) int_max); [lia|]. apply IH.
Qed.

(** C8, as stated, fails: a scan whose [total] wraps around need not end.
    With [int_max] tokens and two routes of two hops, [countTurns] never
    returns. *)
Lemma countTurns_overflow_counterexample :
  ~ (forall ants lens,
        int_min <= ants <= int_max -> Forall (fun l => 0 <= l) lens ->
        lens <> [] ->
        exists T, returns (fun fuel => countTurns fuel ants lens) T).
Proof.
  intros H.
  destruct (H int_max [2; 2]) as (T & n & Hrun).
  - unfold int_min, int_max. lia.
  - repeat constructor; lia.
  - discriminate.
  - specialize (Hrun n (Nat.le_refl n)). unfold countTurns in Hrun.
    by rewrite countTurns_from_overflow in Hrun.
Qed.

(** C8, as amended: on every token count below [2 ^ 62] (zero and
    negative counts included) and every non-empty list of hop counts within
    the 64-bit range, the scan of [countTurns] terminates: it reaches a
    turn [T >= 1] whose capacity covers the tokens and returns it, after
    exactly [T] passes of its loop. *)
Theorem countTurns_terminates (ants : Z) (lens : list Z) :
  ants_in_range ants -> hops_in_range lens -> lens <> [] ->
  exists T, 1 <= T /\ ants <= capacity T lens /\
            returns (fun fuel => countTurns fuel ants lens) T /\
            (forall fuel, (Z.to_nat T <= fuel)%nat ->
                          countTurns fuel ants lens = Done T) /\
            (forall fuel, (fuel < Z.to_nat T)%nat ->
                          countTurns fuel ants lens = OutOfFuel).
Proof.
  intros HA Hl Hne.
  destruct (countTurns_returns_least ants lens HA Hl Hne)
    as (T & (HT1 & Hhit & Hmin) & HTmax & Hrun).
  exists T. split; [done|]. split; [done|].
  split; [by exists (Z.to_nat T)|]. split; [done|].
  intros fuel Hfuel. unfold countTurns.
  apply (countTurns_from_short fuel ants lens 1 T); try lia.
  - destruct HA. unfold int_max. lia.
  - apply Hl.
  - intros t' Ht'. destruct (Z_lt_le_dec (capacity t' lens) ants) as [|Hge]; [done|].
    specialize (Hmin t' ltac:(lia) Hge). lia.
Qed.

Lemma countTurns_terminates_witness :
  exists T, 1 <= T /\ 7 <= capacity T [4; 1] /\
            returns (fun fuel => countTurns fuel 7 [4; 1]) T /\
            (forall fuel, (Z.to_nat T <= fuel)%nat ->
                          countTurns fuel 7 [4; 1] = Done T) /\
            (forall fuel, (fuel < Z.to_nat T)%nat ->
                          countTurns fuel 7 [4; 1] = OutOfFuel).
Proof.
  apply (countTurns_terminates 7 [4; 1]).
  - unfold ants_in_range, int_min. lia.
  - split; [repeat constructor; lia|simpl; lia].
  - discriminate.
Defined.

(** C7, as amended: [countTurns] is non-decreasing in the token count, and
    non-decreasing in every hop count (so lengthening the shortest route,
    the others fixed, never lowers the result). *)
Theorem countTurns_monotone (ants ants' : Z) (lens lens' : list Z) :
  ants_in_range ants -> ants_in_range ants' ->
  hops_in_range lens -> hops_in_range lens' -> lens <> [] ->
  ants <= ants' -> Forall2 Z.le lens lens' ->
  exists T T',
    returns (fun fuel => countTurns fuel ants lens) T /\
    returns (fun fuel => countTurns fuel ants' lens') T' /\
    T <= T'.
Proof.
  intros HA HA' Hl Hl' Hne Hle Hpt.
  pose proof (hops_in_range_Forall2_nonempty _ _ Hpt Hne) as Hne'.
  destruct (countTurns_returns ants lens HA Hl Hne) as (T & (_ & _ & Hmin) & Hrun).
  destruct (countTurns_returns ants' lens' HA' Hl' Hne') as (T' & (HT' & Hhit' & _) & Hrun').
  exists T, T'. repeat split; auto.
  apply Hmin; [done|].
  pose proof (capacity_anti T' lens lens' Hpt). lia.
Qed.

Lemma countTurns_monotone_witness :
  exists T T',
    returns (fun fuel => countTurns fuel 3 [1; 2]) T /\
    returns (fun fuel => countTurns fuel 4 [2; 2]) T' /\
    T <= T'.
Proof.
  apply (countTurns_monotone 3 4 [1; 2] [2; 2]).
  - unfold ants_in_range, int_min. lia.
  - unfold ants_in_range, int_min. lia.
  - split; [repeat constructor; lia|simpl; lia].
  - split; [repeat constructor; lia|simpl; lia].
  - discriminate.
  - lia.
  - repeat constructor; lia.
Defined.

(** C7, as stated, fails: raising the minimum hop count from 1 to 2 raises
    the result from 1 turn to 2. *)
Lemma countTurns_min_element_counterexample :
  ~ (forall ants lens lens' T T',
        ants_in_range ants -> hops_in_range lens -> hops_in_range lens' ->
        lens <> [] -> lens' <> [] ->
        min_element lens <= min_element lens' ->
        returns (fun fuel => countTurns fuel ants lens) T ->
        returns (fun fuel => countTurns fuel ants lens') T' ->
        T' <= T).
Proof.
  intros H.
  specialize (H 1 [1] [2] 1 2).
  assert (Hr : forall l, 0 <= l < 2 ^ 62 -> hops_in_range [l]).
  { intros l Hl. split; [repeat constructor; lia|simpl; lia]. }
  assert (2 <= 1) as Habs; [|lia].
  apply H.
  - unfold ants_in_range, int_min. lia.
  - apply Hr. lia.
  - apply Hr. lia.
  - discriminate.
  - discriminate.
  - simpl. lia.
  - exists 1%nat. intros fuel Hf. destruct fuel as [|fuel]; [lia|]. reflexivity.
  - exists 2%nat. intros fuel Hf. destruct fuel as [|[|fuel]]; [lia|lia|]. reflexivity.
Qed.

End CountTurnsClaims.

(** ** The route enumerator *)

Section AllPathsFacts.
Context (g : Graph) (limit : Z).

Lemma index_insert (m : gmap nat bool) (r x : nat) (b : bool) :
  index (<[r := b]> m) x = if decide (r = x) then b else index m x.
Proof. unfold index. rewrite lookup_insert. by case_decide. Qed.

Lemma index_delete (m : gmap nat bool) (r x : nat) :
  index (delete r m) x = if decide (r = x) then false else index m x.
Proof. unfold index. rewrite lookup_delete. by case_decide. Qed.

Lemma index_empty (x : nat) : index ∅ x = false.
Proof. unfold index. by rewrite lookup_empty. Qed.

Lemma take_take_app {A : Type} (n : nat) (l k : list A) :
  take n (take n l ++ k) = take n (l ++ k).
Proof.
  revert n. induction l as [|x l IH]; intros [|n]; simpl; try done.
  by rewrite IH.
Qed.

Lemma NoDup_length_le_size (l : list nat) (m : gmap nat (list nat)) :
  NoDup l -> (forall x, x ∈ l -> x ∈ dom m) -> length l <= size m.
Proof.
  intros Hnd Hsub.
  rewrite <- (size_list_to_set (C := gset nat) l Hnd), <- size_dom.
  apply subseteq_size. intros x Hx. apply Hsub. by apply elem_of_list_to_set in Hx.
Qed.

Lemma Links_dom (r nb : nat) : nb ∈ Links g r -> r ∈ dom (Rooms g).
Proof.
  unfold Links. intros H. apply elem_of_dom.
  destruct (Rooms g !! r); [eauto|]. simpl in H. by apply elem_of_nil in H.
Qed.

Lemma dfs_inv_enter (st : dfs_state) (r : nat) :
  dfs_inv g limit st -> r ∉ path st -> r ∈ dom (Rooms g) ->
  dfs_inv g limit {| res := res st; path := path st ++ [r];
                     visited := <[r := true]> (visited st) |}.
Proof.
  intros (Hv & Hnd & Hdom & Hlen) Hr Hrd. repeat split; simpl; auto.
  - rewrite index_insert. case_decide; set_solver.
  - rewrite index_insert. case_decide; [done|]. rewrite Hv. set_solver.
  - apply NoDup_app. repeat split; auto; [set_solver|apply NoDup_singleton].
  - set_solver.
Qed.

(** With more fuel than there are rooms off the path, [dfs] returns: it
    adds to [res] the routes through [r] in depth-first order, cut at
    [limit], and restores [path] and [visited]. *)
Lemma dfs_runs (fuel : nat) : forall (r : nat) (st : dfs_state),
  dfs_inv g limit st -> r ∉ path st ->
  size (Rooms g) < fuel + length (path st) ->
  exists st', dfs fuel g limit r st = Done st' /\
    res st' = take (Z.to_nat limit) (res st ++ dfs_order fuel g (path st) r) /\
    path st' = path st /\
    (forall x, index (visited st') x = index (visited st) x).
Proof.
  induction fuel as [|fuel IH]; intros r st Hinv Hr Hfuel.
  - destruct Hinv as (_ & Hnd & Hdom & _).
    pose proof (NoDup_length_le_size _ _ Hnd Hdom). lia.
  - simpl. destruct (Z.geb_spec (Z.of_nat (length (res st))) limit) as [Hfull|Hroom].
    { exists st. repeat split; auto.
      destruct Hinv as (_ & _ & _ & Hlen).
      replace (Z.to_nat limit) with (length (res st)) by lia.
      by rewrite take_app_length. }
    destruct (decide (r = End g)) as [->|Hne].
    { eexists. split; [done|]. simpl. repeat split; auto.
      rewrite take_ge; [done|]. rewrite length_app. simpl. lia. }
    set (st1 := {| res := res st; path := path st ++ [r];
                   visited := <[r := true]> (visited st) |}).
    assert (Hloop : forall nbs st2,
      (forall nb, nb ∈ nbs -> nb ∈ Links g r) ->
      dfs_inv g limit st2 -> path st2 = path st ++ [r] ->
      exists st', visit_links (dfs fuel g limit) nbs st2 = Done st' /\
        res st' = take (Z.to_nat limit)
                    (res st2 ++ flat_map (fun nb =>
                       if decide (nb ∈ path st ++ [r]) then []
                       else dfs_order fuel g (path st ++ [r]) nb) nbs) /\
        path st' = path st2 /\
        (forall x, index (visited st') x = index (visited st2) x)).
    { induction nbs as [|nb nbs IHn]; intros st2 Hsub Hinv2 Hpath; simpl.
      - exists st2. repeat split; auto. rewrite app_nil_r.
        destruct Hinv2 as (_ & _ & _ & Hlen). by rewrite take_ge.
      - destruct (index (visited st2) nb) eqn:Hvis.
        + destruct (IHn st2) as (st' & Hrun & Hres & Hp & Hv); auto.
          { intros; apply Hsub; by right. }
          exists st'. repeat split; auto.
          rewrite decide_True; [done|].
          rewrite <- Hpath. by apply (proj1 Hinv2 nb).
        + assert (Hnb : nb ∉ path st2).
          { intros Hin. pose proof (proj2 (proj1 Hinv2 nb) Hin). congruence. }
          destruct (IH nb st2 Hinv2 Hnb) as (st3 & Hrun3 & Hres3 & Hp3 & Hv3).
          { rewrite Hpath, length_app. simpl. lia. }
          rewrite Hrun3. simpl.
          assert (Hinv3 : dfs_inv g limit st3).
          { destruct Hinv2 as (Hv2 & Hnd2 & Hdom2 & Hlen2).
            repeat split; try rewrite Hp3; auto.
            - rewrite Hv3. apply Hv2.
            - rewrite Hv3. apply Hv2.
            - rewrite Hres3, length_take. lia. }
          destruct (IHn st3) as (st' & Hrun & Hres & Hp & Hv); auto.
          { intros; apply Hsub; by right. }
          { congruence. }
          exists st'. split; [done|]. repeat split.
          * rewrite Hres, Hres3, Hpath.
            rewrite decide_False by (by rewrite <- Hpath).
            by rewrite take_take_app, app_assoc.
          * congruence.
          * intros x. by rewrite Hv, Hv3. }
    assert (Hpop : forall (l : list nat) (x y : outcome dfs_state),
               l <> [] -> match l with [] => x | _ :: _ => y end = y).
    { intros [|? ?] x y Hl; done. }
    assert (Hsnoc : path st ++ [r] <> []) by (by destruct (path st)).
    destruct (Links g r) as [|nb0 nbs0] eqn:Elinks.
    { simpl. rewrite Hpop by done.
      eexists. split; [done|]. simpl. repeat split.
      - rewrite app_nil_r. destruct Hinv as (_ & _ & _ & Hlen). by rewrite take_ge.
      - by rewrite removelast_last.
      - intros x. rewrite !index_insert. case_decide; [|done].
        subst x. destruct (index (visited st) r) eqn:E; [|done].
        exfalso. apply Hr. by apply (proj1 Hinv r). }
    rewrite <- Elinks in *.
    assert (Hrd : r ∈ dom (Rooms g)).
    { apply (Links_dom r nb0). rewrite Elinks. by left. }
    destruct (Hloop (Links g r) st1) as (st' & Hrun & Hres & Hp & Hv); auto.
    { by apply dfs_inv_enter. }
    rewrite Hrun. simpl. rewrite Hpop by (by rewrite Hp).
    eexists. split; [done|]. simpl. repeat split.
    + done.
    + rewrite Hp. simpl. by rewrite removelast_last.
    + intros x. rewrite index_insert. case_decide.
      * subst x. destruct (index (visited st) r) eqn:E; [|done].
        exfalso. apply Hr. by apply (proj1 Hinv r).
      * rewrite Hv. simpl. rewrite index_insert. by rewrite decide_False.
Qed.

Lemma flat_map_ext_elem {A B : Type} (f h : A -> list B) (l : list A) :
  (forall a, a ∈ l -> f a = h a) -> flat_map f l = flat_map h l.
Proof.
  induction l as [|a l IH]; intros Heq; simpl; [done|].
  rewrite Heq by left. rewrite IH; [done|]. intros; apply Heq; by right.
Qed.

Lemma elem_of_flat_map {A B : Type} (f : A -> list B) (l : list A) (y : B) :
  y ∈ flat_map f l <-> exists x, x ∈ l /\ y ∈ f x.
Proof.
  setoid_rewrite list_elem_of_In. apply in_flat_map.
Qed.

(** Beyond the number of rooms off the path, fuel no longer matters. *)
Lemma dfs_order_fuel (f : nat) : forall (f' : nat) (p : list nat) (r : nat),
  NoDup p -> (forall x, x ∈ p -> x ∈ dom (Rooms g)) -> r ∉ p ->
  size (Rooms g) < f + length p -> size (Rooms g) < f' + length p ->
  dfs_order f g p r = dfs_order f' g p r.
Proof.
  induction f as [|f IH]; intros f' p r Hnd Hdom Hr Hf Hf'.
  - pose proof (NoDup_length_le_size _ _ Hnd Hdom). lia.
  - destruct f' as [|f'].
    { pose proof (NoDup_length_le_size _ _ Hnd Hdom). lia. }
    simpl. destruct (decide (r = End g)); [done|].
    apply flat_map_ext_elem. intros nb Hnb.
    destruct (decide (nb ∈ p ++ [r])) as [|Hnot]; [done|].
    apply IH.
    + apply NoDup_app. repeat split; auto; [set_solver|apply NoDup_singleton].
    + intros x [Hx|Hx%list_elem_of_singleton]%elem_of_app; [auto|].
      subst x. by apply (Links_dom r nb).
    + done.
    + rewrite length_app. simpl. lia.
    + rewrite length_app. simpl. lia.
Qed.

Lemma walk_from_snoc (a : nat) (q : list nat) (c d : nat) :
  walk_from g a (q ++ [c]) -> d ∈ Links g c -> walk_from g a ((q ++ [c]) ++ [d]).
Proof.
  revert a. induction q as [|x q IH]; intros a; simpl.
  - tauto.
  - intros [Hx Hw] Hd. split; [done|]. by apply IH.
Qed.

Lemma walk_snoc (p : list nat) (c d : nat) :
  walk g (p ++ [c]) -> d ∈ Links g c -> walk g ((p ++ [c]) ++ [d]).
Proof.
  destruct p as [|a p]; simpl.
  - tauto.
  - apply walk_from_snoc.
Qed.

Lemma walk_cons (a : nat) (p : list nat) : walk g (a :: p) -> walk g p.
Proof. destruct p; simpl; tauto. Qed.

Lemma walk_app_r (p1 p2 : list nat) : walk g (p1 ++ p2) -> walk g p2.
Proof.
  induction p1 as [|a p1 IH]; [done|]. intros H. apply IH. by eapply walk_cons.
Qed.

(** Every listed route is a simple walk that extends the path to [End]. *)
Lemma dfs_order_sound (f : nat) : forall (p : list nat) (r : nat) (w : list nat),
  NoDup (p ++ [r]) -> walk g (p ++ [r]) -> w ∈ dfs_order f g p r ->
  NoDup w /\ walk g w /\ last w = Some (End g) /\ exists q, w = p ++ r :: q.
Proof.
  induction f as [|f IH]; intros p r w Hnd Hwalk Hin; simpl in Hin.
  - by apply elem_of_nil in Hin.
  - destruct (decide (r = End g)) as [->|Hne].
    + apply list_elem_of_singleton in Hin as ->.
      repeat split; auto; [apply last_snoc|by exists []].
    + apply elem_of_flat_map in Hin as (nb & Hnb & Hin).
      destruct (decide (nb ∈ p ++ [r])) as [|Hnot]; [by apply elem_of_nil in Hin|].
      destruct (IH (p ++ [r]) nb w) as (H1 & H2 & H3 & q & H4); auto.
      * apply NoDup_app. repeat split; auto; [set_solver|apply NoDup_singleton].
      * by apply walk_snoc.
      * repeat split; auto. exists (nb :: q). by rewrite H4, <- app_assoc.
Qed.

(** Every simple walk from [r] to [End] that avoids the path is listed. *)
Lemma dfs_order_complete (f : nat) : forall (p : list nat) (r : nat) (q : list nat),
  NoDup (p ++ r :: q) -> walk_from g r q -> last (r :: q) = Some (End g) ->
  length q < f -> p ++ r :: q ∈ dfs_order f g p r.
Proof.
  induction f as [|f IH]; intros p r q Hnd Hwalk Hlast Hlen; [lia|].
  simpl. apply NoDup_app in Hnd as (Hp & Hpq & Hrq).
  apply NoDup_cons in Hrq as [Hr Hq].
  destruct (decide (r = End g)) as [->|Hne].
  - destruct q as [|x q]; [by left|].
    rewrite last_cons_cons in Hlast. apply last_Some_elem_of in Hlast. done.
  - destruct q as [|nb q]; [simpl in Hlast; congruence|].
    destruct Hwalk as [Hnb Hwalk]. rewrite last_cons_cons in Hlast.
    apply elem_of_flat_map. exists nb. split; [done|].
    rewrite decide_False.
    + replace (p ++ r :: nb :: q) with ((p ++ [r]) ++ nb :: q) by (by rewrite <- app_assoc).
      apply IH; auto; [|simpl in Hlen; lia].
      rewrite <- app_assoc. simpl. apply NoDup_app. repeat split; auto.
      by apply NoDup_cons.
    + intros [Hx|Hx%list_elem_of_singleton]%elem_of_app.
      * apply (Hpq nb Hx). right. left.
      * subst nb. apply Hr. left.
Qed.

Lemma route_listed (w : list nat) : route g w -> w ∈ routes_in_dfs_order g.
Proof.
  intros (Hhead & Hlast & Hnd & Hwalk).
  destruct w as [|a q]; [done|]. injection Hhead as ->.
  unfold routes_in_dfs_order.
  assert (Hfuel : dfs_order (S (size (Rooms g))) g [] (Start g) =
                  dfs_order (S (size (Rooms g)) `max` S (length q)) g [] (Start g)).
  { apply dfs_order_fuel.
    - apply NoDup_nil_2.
    - intros x Hx. by apply elem_of_nil in Hx.
    - intros Hx. by apply elem_of_nil in Hx.
    - simpl. lia.
    - simpl. lia. }
  rewrite Hfuel.
  apply (dfs_order_complete _ [] (Start g) q); auto. lia.
Qed.

Lemma listed_route (w : list nat) : w ∈ routes_in_dfs_order g -> route g w.
Proof.
  intros Hin. unfold routes_in_dfs_order in Hin.
  destruct (dfs_order_sound _ [] (Start g) w (NoDup_singleton _) I Hin)
    as (H1 & H2 & H3 & q & H4).
  subst w. by repeat split.
Qed.

(** A walk can be shortened to a simple walk with the same ends. *)
Lemma walk_from_simple (q : list nat) : forall a : nat,
  walk_from g a q ->
  exists q', walk_from g a q' /\ NoDup (a :: q') /\ last (a :: q') = last (a :: q).
Proof.
  induction q as [|b q IH]; intros a Hw.
  - exists []. repeat split; auto. apply NoDup_singleton.
  - destruct Hw as [Hb Hw]. destruct (IH b Hw) as (q' & Hw' & Hnd' & Hlast').
    rewrite last_cons_cons, <- Hlast'.
    destruct (decide (a ∈ b :: q')) as [Hin|Hnot].
    + apply list_elem_of_split in Hin as (l1 & l2 & Heq).
      change (walk g (b :: q')) in Hw'.
      exists l2. rewrite Heq in *. repeat split.
      * change (walk g (a :: l2)). apply (walk_app_r l1). exact Hw'.
      * by apply NoDup_app in Hnd' as (_ & _ & ?).
      * by rewrite last_app_cons.
    + exists (b :: q'). repeat split; auto.
      by apply NoDup_cons.
Qed.

Lemma connected_route : connected g -> exists w, route g w.
Proof.
  intros (p & Hhead & Hlast & Hwalk).
  destruct p as [|a q]; [done|]. injection Hhead as ->.
  destruct (walk_from_simple q (Start g) Hwalk) as (q' & Hw & Hnd & Hl).
  exists (Start g :: q'). repeat split; auto. congruence.
Qed.

Lemma route_connected (w : list nat) : route g w -> connected g.
Proof. intros (H1 & H2 & _ & H3). by exists w. Qed.

(** A route between different rooms has at least two rooms, and [End]
    occurs only as its last room. *)
Lemma route_two_rooms (w : list nat) :
  Start g <> End g -> route g w -> 2 <= length w /\ End g ∉ removelast w.
Proof.
  intros Hne (Hhead & Hlast & Hnd & _). split.
  - destruct w as [|a [|b w]]; simpl in *; [done| |lia]. congruence.
  - apply last_Some in Hlast as (w' & ->). rewrite removelast_last.
    apply NoDup_app in Hnd as (_ & Hd & _). intros Hin. apply (Hd _ Hin). by left.
Qed.

Lemma allPaths_runs (fuel : nat) :
  size (Rooms g) < fuel ->
  allPaths fuel g limit = Done (take (Z.to_nat limit) (routes_in_dfs_order g)).
Proof.
  intros Hfuel. unfold allPaths.
  destruct (dfs_runs fuel (Start g) {| res := []; path := []; visited := ∅ |})
    as (st' & Hrun & Hres & _).
  - repeat split; simpl; try lia.
    + rewrite index_empty. done.
    + intros Hx. by apply elem_of_nil in Hx.
    + apply NoDup_nil_2.
    + intros x Hx. by apply elem_of_nil in Hx.
  - simpl. intros Hx. by apply elem_of_nil in Hx.
  - simpl. lia.
  - rewrite Hrun. simpl. rewrite Hres. simpl. f_equal. f_equal.
    unfold routes_in_dfs_order. apply dfs_order_fuel; simpl; try lia.
    + apply NoDup_nil_2.
    + intros x Hx. by apply elem_of_nil in Hx.
    + intros Hx. by apply elem_of_nil in Hx.
Qed.

End AllPathsFacts.

Section AllPathsClaims.
Context (g : Graph) (limit : Z).

Lemma dfs_at_limit (fuel : nat) (r : nat) (st : dfs_state) :
  (limit <= Z.of_nat (length (res st)))%Z -> dfs (S fuel) g limit r st = Done st.
Proof.
  intros H. simpl.
  destruct (Z.geb_spec (Z.of_nat (length (res st))) limit); [done|lia].
Qed.

Lemma allPaths_returns :
  returns (fun fuel => allPaths fuel g limit)
          (take (Z.to_nat limit) (routes_in_dfs_order g)).
Proof.
  exists (S (size (Rooms g))). intros fuel Hfuel. apply allPaths_runs. lia.
Qed.

Lemma Forall_route_listed : Forall (route g) (routes_in_dfs_order g).
Proof. apply Forall_forall. intros w Hw. by apply listed_route. Qed.

(** C5: [allPaths] returns the first [limit] routes of the depth-first
    enumeration of the simple [Start]-to-[End] walks: at most [limit] of
    them, each simple with [Start] first and [End] last, in discovery
    order; once [limit] routes are found every call of [dfs] returns at
    once; without a path the result is empty, and is a normal return. *)
Theorem allPaths_depth_first_prefix :
  exists rs,
    returns (fun fuel => allPaths fuel g limit) rs /\
    rs = take (Z.to_nat limit) (routes_in_dfs_order g) /\
    (Z.of_nat (length rs) <= Z.max 0 limit)%Z /\
    Forall (route g) rs /\
    (forall w, route g w <-> w ∈ routes_in_dfs_order g) /\
    (forall fuel r st, (limit <= Z.of_nat (length (res st)))%Z ->
                       dfs (S fuel) g limit r st = Done st) /\
    (~ connected g -> rs = []).
Proof.
  exists (take (Z.to_nat limit) (routes_in_dfs_order g)).
  split; [apply allPaths_returns|]. split; [done|]. split; [|split; [|split; [|split]]].
  - rewrite length_take. lia.
  - apply Forall_take, Forall_route_listed.
  - intros w. split; [apply route_listed|apply listed_route].
  - intros fuel r st. apply dfs_at_limit.
  - intros Hnc. destruct (routes_in_dfs_order g) as [|w ws] eqn:E; [by rewrite take_nil|].
    exfalso. apply Hnc. apply (route_connected g w). apply listed_route.
    rewrite E. by left.
Qed.

End AllPathsClaims.

(** ** The disjoint route selector *)

Section SelectorFacts.

Lemma bind_Done {A B : Type} (m : outcome A) (k : A -> outcome B) (b : B) :
  m ≫= k = Done b -> exists a, m = Done a /\ k a = Done b.
Proof. destruct m as [a| |]; simpl; intros H; try done. by exists a. Qed.

Lemma index_mark (rs : list nat) : forall (used : gmap nat bool) (x : nat),
  index (mark used rs) x = if decide (x ∈ rs) then true else index used x.
Proof.
  induction rs as [|r rs IH]; intros used x; simpl.
  - done.
  - rewrite IH, index_insert.
    destruct (decide (x ∈ rs)) as [Hin|Hnot].
    + rewrite decide_True; [done|]. by right.
    + destruct (decide (r = x)) as [->|Hne].
      * rewrite decide_True; [done|]. by left.
      * rewrite decide_False; [done|].
        intros [?|?]%elem_of_cons; [congruence|done].
Qed.

Lemma index_unmark (rs : list nat) : forall (used : gmap nat bool) (x : nat),
  index (unmark used rs) x = if decide (x ∈ rs) then false else index used x.
Proof.
  induction rs as [|r rs IH]; intros used x; simpl.
  - done.
  - rewrite IH, index_delete.
    destruct (decide (x ∈ rs)) as [Hin|Hnot].
    + rewrite decide_True; [done|]. by right.
    + destruct (decide (r = x)) as [->|Hne].
      * rewrite decide_True; [done|]. by left.
      * rewrite decide_False; [done|].
        intros [?|?]%elem_of_cons; [congruence|done].
Qed.

Lemma valid_spec (used : gmap nat bool) (rs : list nat) :
  valid used rs = true <-> forall x, x ∈ rs -> index used x = false.
Proof.
  unfold valid. rewrite forallb_forall. setoid_rewrite <- list_elem_of_In.
  split; intros H x Hx; specialize (H x Hx); by destruct (index used x).
Qed.

Lemma interior_Done (p : list nat) : 2 <= length p -> interior p = Done (inner p).
Proof. intros H. unfold interior. by rewrite decide_True. Qed.

Lemma interior_inner (p mid : list nat) : interior p = Done mid -> mid = inner p.
Proof. unfold interior, inner. case_decide; congruence. Qed.

Lemma interior_disjoint_sym (p q : list nat) :
  interior_disjoint p q -> interior_disjoint q p.
Proof. intros H x Hq Hp. by apply (H x). Qed.

Lemma pairwise_disjoint_nil : pairwise_disjoint [].
Proof. intros i j p q _ Hi. by rewrite lookup_nil in Hi. Qed.

Lemma pairwise_disjoint_snoc (cur : list (list nat)) (p : list nat) :
  pairwise_disjoint cur -> (forall q, q ∈ cur -> interior_disjoint q p) ->
  pairwise_disjoint (cur ++ [p]).
Proof.
  intros Hpd Hp i j a b Hne Hi Hj.
  apply lookup_app_Some in Hi as [Hi|[Hil Hi]];
    apply lookup_app_Some in Hj as [Hj|[Hjl Hj]].
  - by apply (Hpd i j).
  - apply list_lookup_singleton_Some in Hj as [_ <-].
    apply Hp. by eapply list_elem_of_lookup_2.
  - apply list_lookup_singleton_Some in Hi as [_ <-].
    apply interior_disjoint_sym, Hp. by eapply list_elem_of_lookup_2.
  - apply list_lookup_singleton_Some in Hi as [Hi _].
    apply list_lookup_singleton_Some in Hj as [Hj _]. lia.
Qed.

Lemma consider_best (fuel : nat) (ants : Z) (cur : list (list nat))
    (idxs : list nat) (s s' : best_state) :
  consider fuel ants cur idxs s = Done s' ->
  s' = s \/ (cur <> [] /\ exists t, countTurns fuel ants (map hops cur) = Done t /\
             better t idxs s = true /\
             s' = {| bestTurns := t; best := cur; bestIdx := idxs |}).
Proof.
  unfold consider. case_decide as Hlen; [intros [= <-]; by left|].
  intros (t & Ht & Hk)%bind_Done. destruct (better t idxs s) eqn:Hb.
  - injection Hk as <-. right. split; [by destruct cur|]. by exists t.
  - injection Hk as <-. by left.
Qed.

(** [rec] keeps [best] pairwise disjoint and hands [used] back as it
    received it. *)
Lemma rec_keeps_disjoint (fuel : nat) (ants : Z) (rest : list (list nat)) :
  forall (i : nat) (cur : list (list nat)) (idxs : list nat)
         (used : gmap nat bool) (s : best_state) r,
    rec fuel ants rest i cur idxs used s = Done r ->
    pairwise_disjoint cur ->
    (forall q x, q ∈ cur -> x ∈ inner q -> index used x = true) ->
    pairwise_disjoint (best s) ->
    pairwise_disjoint (best r.2) /\ (forall x, index r.1 x = index used x).
Proof.
  induction rest as [|p rest IH]; intros i cur idxs used s r Hrun Hcur Hused Hbest.
  - simpl in Hrun. apply bind_Done in Hrun as (s' & Hc & [= <-]). simpl.
    split; [|done].
    apply consider_best in Hc as [->|(_ & t & _ & _ & ->)]; done.
  - simpl in Hrun.
    apply bind_Done in Hrun as (r1 & Hskip & Hrun).
    apply bind_Done in Hrun as (mid & Hmid & Hrun).
    apply interior_inner in Hmid as ->.
    destruct (IH _ _ _ _ _ _ Hskip Hcur Hused Hbest) as [Hbest1 Hused1].
    destruct (valid r1.1 (inner p)) eqn:Hvalid; [|by injection Hrun as <-].
    apply bind_Done in Hrun as (r2 & Htake & [= <-]). simpl.
    pose proof (proj1 (valid_spec _ _) Hvalid) as Hfree.
    destruct (IH _ _ _ _ _ _ Htake) as [Hbest2 Hused2]; auto.
    + apply pairwise_disjoint_snoc; [done|].
      intros q Hq x Hx Hp. specialize (Hfree x Hp).
      rewrite Hused1, (Hused q x Hq Hx) in Hfree. done.
    + intros q x [Hq|Hq%list_elem_of_singleton]%elem_of_app Hx; rewrite index_mark.
      * destruct (decide (x ∈ inner p)); [done|]. rewrite Hused1. by apply (Hused q).
      * subst q. by rewrite decide_True.
    + split; [done|]. intros x. rewrite index_unmark, Hused2, index_mark.
      destruct (decide (x ∈ inner p)) as [Hin|]; [|by rewrite Hused1].
      rewrite <- Hused1. symmetry. by apply Hfree.
Qed.

Lemma bestDisjointPaths_keeps_disjoint (fuel : nat) (all : list (list nat)) (ants : Z)
    (rs : list (list nat)) :
  bestDisjointPaths fuel all ants = Done rs -> pairwise_disjoint rs.
Proof.
  unfold bestDisjointPaths. intros (r & Hrun & [= <-])%bind_Done.
  eapply rec_keeps_disjoint in Hrun as [H _]; eauto using pairwise_disjoint_nil.
  intros q x Hq. by apply elem_of_nil in Hq.
Qed.

(** *** The order on index sequences *)

Lemma lex_lt_irrefl (c : list nat) : ~ lex_lt c c.
Proof. induction c as [|x c IH]; simpl; [tauto|]. intros [?|[_ ?]]; [lia|tauto]. Qed.

Lemma lex_lt_trans (c1 : list nat) : forall c2 c3 : list nat,
  lex_lt c1 c2 -> lex_lt c2 c3 -> lex_lt c1 c3.
Proof.
  induction c1 as [|x c1 IH]; intros [|y c2] [|z c3]; simpl; try tauto.
  intros [Hxy|[-> H12]] [Hyz|[-> H23]]; try (left; lia).
  right. split; [done|]. by apply (IH c2).
Qed.

Lemma lex_lt_total (c1 : list nat) : forall c2 : list nat,
  lex_lt c1 c2 \/ c1 = c2 \/ lex_lt c2 c1.
Proof.
  induction c1 as [|x c1 IH]; intros [|y c2]; simpl; auto.
  destruct (lt_eq_lt_dec x y) as [[Hlt| ->]|Hgt]; auto.
  destruct (IH c2) as [H|[->|H]]; auto.
Qed.

(** [lex_lt] is the order of the specification on index sequences. *)
Lemma lex_lt_first_diff (c1 : list nat) : forall c2 : list nat,
  lex_lt c1 c2 ->
  first_diff_smaller c1 c2 \/
  (shared_prefix_equal c1 c2 /\ length c1 < length c2).
Proof.
  induction c1 as [|x c1 IH]; intros [|y c2]; simpl; try tauto.
  - intros _. right. split; [done|lia].
  - intros [Hlt|[-> Hlex]].
    + left. exists 0, x, y. by repeat split.
    + destruct (IH c2 Hlex) as [(k & a & b & Hk & Ha & Hb & Hab)|[Hpre Hlen]].
      * left. exists (S k), a, b. simpl. rewrite Hk. by repeat split.
      * right. split; [|lia]. unfold shared_prefix_equal in *. simpl.
        by rewrite Hpre.
Qed.

Lemma key_lt_beats (t1 : Z) (c1 : list nat) (t2 : Z) (c2 : list nat) :
  key_lt t1 c1 t2 c2 -> beats t1 c1 t2 c2.
Proof.
  intros [Hlt|[-> Hlex]]; [by left|]. right. split; [done|].
  by apply lex_lt_first_diff.
Qed.

Lemma key_lt_trans t1 c1 t2 c2 t3 c3 :
  key_lt t1 c1 t2 c2 -> key_lt t2 c2 t3 c3 -> key_lt t1 c1 t3 c3.
Proof.
  intros [H12|[-> H12]] [H23|[-> H23]]; try (left; lia).
  right. split; [done|]. by apply (lex_lt_trans c1 c2).
Qed.

Lemma key_le_trans t1 c1 t2 c2 t3 c3 :
  key_le t1 c1 t2 c2 -> key_le t2 c2 t3 c3 -> key_le t1 c1 t3 c3.
Proof.
  intros [H12|[-> ->]] [H23|[-> ->]]; try (by left); try (by right).
  left. by apply (key_lt_trans t1 c1 t2 c2).
Qed.

Lemma key_lt_total t1 c1 t2 c2 :
  key_lt t1 c1 t2 c2 \/ key_le t2 c2 t1 c1.
Proof.
  unfold key_le, key_lt.
  destruct (Z.lt_total t1 t2) as [?|[->|?]]; auto.
  destruct (lex_lt_total c1 c2) as [?|[->|?]]; auto.
Qed.

Lemma visited_before_app (l a b : list nat) :
  visited_before a b -> visited_before (l ++ a) (l ++ b).
Proof. intros H. induction l as [|x l IH]; simpl; auto. Qed.

(** When the incumbent was reached before the candidate, the comparison
    in [rec] decides exactly [key_lt]. *)
Lemma smaller_index_lex (ix : list nat) : forall iy : list nat,
  visited_before ix iy ->
  ((let b := smaller_index iy ix in
    if negb b && (length iy <? length ix) then true else b) = true
   <-> lex_lt iy ix).
Proof.
  induction ix as [|x ix IH]; intros [|y iy]; simpl; try tauto.
  - intros _. split; [discriminate|tauto].
  - intros [Hlt|[-> Hvb]].
    + destruct (Nat.ltb_spec y x); [|lia]. simpl. tauto.
    + destruct (Nat.ltb_spec y y); [lia|].
      specialize (IH iy Hvb). simpl in IH.
      replace (S (length iy) <? S (length ix)) with (length iy <? length ix)
        by (destruct (Nat.ltb_spec (length iy) (length ix));
            destruct (Nat.ltb_spec (S (length iy)) (S (length ix))); auto; lia).
      rewrite IH. split; [auto|]. intros [?|[_ ?]]; [lia|done].
Qed.

Lemma better_key_lt (t : Z) (iy : list nat) (s : best_state) :
  visited_before (bestIdx s) iy ->
  (better t iy s = true <-> key_lt t iy (bestTurns s) (bestIdx s)).
Proof.
  intros Hvb. unfold better, key_lt.
  destruct (Z.ltb_spec t (bestTurns s)); [tauto|].
  destruct (Z.eqb_spec t (bestTurns s)) as [->|Hne].
  - rewrite (smaller_index_lex _ _ Hvb). split; [auto|]. intros [?|[_ ?]]; [lia|done].
  - split; [discriminate|]. intros [?|[? _]]; lia.
Qed.

(** *** [rec] as a fold over the combinations in visiting order *)

Lemma bind_assoc {A B C : Type} (m : outcome A) (k : A -> outcome B)
    (h : B -> outcome C) :
  (m ≫= k) ≫= h = m ≫= (fun a => k a ≫= h).
Proof. by destruct m. Qed.

Lemma consider_all_app (fuel : nat) (ants : Z) (l1 l2 : list (list (list nat) * list nat)) :
  forall s, consider_all fuel ants (l1 ++ l2) s =
            consider_all fuel ants l1 s ≫= consider_all fuel ants l2.
Proof.
  induction l1 as [|c l1 IH]; intros s; simpl; [done|].
  destruct (consider fuel ants c.1 c.2 s); simpl; auto.
Qed.

Lemma clear_of_spec (cur : list (list nat)) (p : list nat) :
  clear_of cur p = true <-> forall q, q ∈ cur -> interior_disjoint q p.
Proof.
  unfold clear_of, interior_disjoint. rewrite forallb_forall.
  setoid_rewrite forallb_forall. setoid_rewrite <- list_elem_of_In.
  setoid_rewrite bool_decide_eq_true. split.
  - intros H q Hq x Hx Hp. by apply (H x Hp q Hq).
  - intros H x Hp q Hq Hx. by apply (H q Hq x).
Qed.

Lemma clear_of_valid (used : gmap nat bool) (cur : list (list nat)) (p : list nat) :
  used_inv used cur -> valid used (inner p) = clear_of cur p.
Proof.
  intros Hinv. apply Bool.eq_true_iff_eq.
  rewrite valid_spec, clear_of_spec. split.
  - intros H q Hq x Hx Hp. specialize (H x Hp).
    assert (index used x = true) by (apply Hinv; eauto). congruence.
  - intros H x Hp. destruct (index used x) eqn:E; [|done].
    apply Hinv in E as (q & Hq & Hx). by destruct (H q Hq x Hx).
Qed.

Lemma used_inv_ext (u u' : gmap nat bool) (cur : list (list nat)) :
  used_inv u cur -> (forall x, index u' x = index u x) -> used_inv u' cur.
Proof. intros H Heq x. rewrite Heq. apply H. Qed.

Lemma used_inv_mark (u : gmap nat bool) (cur : list (list nat)) (p : list nat) :
  used_inv u cur -> used_inv (mark u (inner p)) (cur ++ [p]).
Proof.
  intros H x. rewrite index_mark. destruct (decide (x ∈ inner p)) as [Hin|Hnot].
  - split; [|done]. intros _. exists p. split; [|done].
    apply elem_of_app. right. by left.
  - rewrite (H x). split; intros (q & Hq & Hx); exists q; split; auto.
    + apply elem_of_app. by left.
    + apply elem_of_app in Hq as [Hq|Hq%list_elem_of_singleton]; [done|].
      by subst q.
Qed.

Lemma used_inv_empty : used_inv ∅ [].
Proof.
  intros x. rewrite index_empty. split; [done|].
  intros (q & Hq & _). by apply elem_of_nil in Hq.
Qed.

Lemma rec_restores_used (fuel : nat) (ants : Z) (rest : list (list nat)) :
  forall i cur idxs used s r,
    rec fuel ants rest i cur idxs used s = Done r ->
    forall x, index r.1 x = index used x.
Proof.
  induction rest as [|p rest IH]; intros i cur idxs used s r Hrun x.
  - simpl in Hrun. by apply bind_Done in Hrun as (s' & _ & [= <-]).
  - simpl in Hrun.
    apply bind_Done in Hrun as (r1 & Hskip & Hrun).
    apply bind_Done in Hrun as (mid & Hmid & Hrun).
    pose proof (IH _ _ _ _ _ _ Hskip) as H1.
    destruct (valid r1.1 mid) eqn:Hvalid; [|injection Hrun as <-; apply H1].
    apply bind_Done in Hrun as (r2 & Htake & [= <-]). simpl.
    rewrite index_unmark, (IH _ _ _ _ _ _ Htake), index_mark.
    destruct (decide (x ∈ mid)) as [Hin|]; [|apply H1].
    rewrite <- H1. symmetry. by apply (proj1 (valid_spec _ _) Hvalid).
Qed.

(** What [rec] leaves in [bestTurns], [best], [bestIdx] is the fold of its
    base case over [combos]. *)
Lemma rec_consider_all (fuel : nat) (ants : Z) (rest : list (list nat)) :
  forall i cur idxs used s,
    Forall (fun p => 2 <= length p) rest -> used_inv used cur ->
    (rec fuel ants rest i cur idxs used s ≫= fun r => Done r.2) =
    consider_all fuel ants (combos rest i cur idxs) s.
Proof.
  induction rest as [|p rest IH]; intros i cur idxs used s Hlen Hinv.
  - simpl. by destruct (consider fuel ants cur idxs s).
  - apply Forall_cons in Hlen as [Hp Hlen]. simpl.
    rewrite consider_all_app, <- (IH (S i) cur idxs used s Hlen Hinv).
    destruct (rec fuel ants rest (S i) cur idxs used s) as [r1| |] eqn:Hskip;
      simpl; try done.
    rewrite (interior_Done p Hp). simpl.
    pose proof (rec_restores_used _ _ _ _ _ _ _ _ _ Hskip) as H1.
    rewrite (clear_of_valid r1.1 cur p) by (by apply (used_inv_ext used)).
    destruct (clear_of cur p); [|done].
    rewrite <- (IH (S i) (cur ++ [p]) (idxs ++ [i]) (mark r1.1 (inner p)) r1.2 Hlen).
    + by destruct (rec fuel ants rest (S i) (cur ++ [p]) (idxs ++ [i])
                    (mark r1.1 (inner p)) r1.2).
    + apply used_inv_mark. by apply (used_inv_ext used).
Qed.

(** *** The combinations reached by [rec] *)

Lemma chosen_idx_ge (d : list bool) : forall i x, x ∈ chosen_idx d i -> i <= x.
Proof.
  induction d as [|[|] d IH]; intros i x; simpl.
  - intros H. by apply elem_of_nil in H.
  - intros [->|H]%elem_of_cons; [lia|]. apply IH in H. lia.
  - intros H. apply IH in H. lia.
Qed.

Lemma chosen_idx_inj (d : list bool) : forall d' i,
  length d = length d' -> chosen_idx d i = chosen_idx d' i -> d = d'.
Proof.
  induction d as [|b d IH]; intros [|b' d'] i Hlen Heq; simpl in *; try done.
  injection Hlen as Hlen.
  destruct b, b'.
  - injection Heq as Heq. f_equal. by apply (IH d' (S i)).
  - pose proof (chosen_idx_ge d' (S i) i) as H. rewrite <- Heq in H.
    specialize (H ltac:(left)). lia.
  - pose proof (chosen_idx_ge d (S i) i) as H. rewrite Heq in H.
    specialize (H ltac:(left)). lia.
  - f_equal. by apply (IH d' (S i)).
Qed.

Lemma chosen_idx_length (d : list bool) : forall rest i,
  length d = length rest -> length (chosen_idx d i) = length (chosen d rest).
Proof.
  induction d as [|[|] d IH]; intros [|p rest] i Hlen; simpl in *; try done;
    injection Hlen as Hlen; auto.
Qed.

Lemma chosen_sub (d : list bool) : forall rest p, p ∈ chosen d rest -> p ∈ rest.
Proof.
  induction d as [|[|] d IH]; intros [|q rest] p; simpl;
    try (intros H; by apply elem_of_nil in H).
  - intros [->|H]%elem_of_cons; [by left|]. right. by apply IH.
  - intros H. right. by apply IH.
Qed.

Lemma chosen_length (d : list bool) : forall rest, length (chosen d rest) <= length rest.
Proof.
  induction d as [|[|] d IH]; intros [|q rest]; simpl; try lia.
  - specialize (IH rest). lia.
  - specialize (IH rest). lia.
Qed.

Lemma in_combos (rest : list (list nat)) : forall i cur idxs c ix,
  (c, ix) ∈ combos rest i cur idxs <->
  exists d, length d = length rest /\ c = cur ++ chosen d rest /\
            ix = idxs ++ chosen_idx d i /\ fits cur (chosen d rest).
Proof.
  induction rest as [|p rest IH]; intros i cur idxs c ix; simpl.
  - rewrite list_elem_of_singleton. split.
    + intros [= -> ->]. exists []. by rewrite !app_nil_r.
    + intros ([|? ?] & Hlen & -> & -> & _); [|done]. by rewrite !app_nil_r.
  - rewrite elem_of_app. split.
    + intros [H|H].
      * apply IH in H as (d & Hlen & -> & -> & Hfit).
        exists (false :: d). simpl. by rewrite Hlen.
      * destruct (clear_of cur p) eqn:Hclear; [|by apply elem_of_nil in H].
        apply IH in H as (d & Hlen & -> & -> & Hfit).
        exists (true :: d). simpl. rewrite Hlen, <- !app_assoc. by repeat split.
    + intros ([|[|] d] & Hlen & -> & -> & Hfit); simpl in *; [done| |].
      * destruct Hfit as [Hclear Hfit]. right. rewrite Hclear.
        apply IH. exists d. rewrite <- !app_assoc. repeat split; auto.
      * left. apply IH. exists d. repeat split; auto.
Qed.

Lemma pairwise_disjoint_app_l (l1 l2 : list (list nat)) :
  pairwise_disjoint (l1 ++ l2) -> pairwise_disjoint l1.
Proof.
  intros H i j p q Hne Hi Hj. apply (H i j); auto; by apply lookup_app_l_Some.
Qed.

Lemma pairwise_disjoint_last (cur : list (list nat)) (p : list nat) :
  pairwise_disjoint (cur ++ [p]) -> forall q, q ∈ cur -> interior_disjoint q p.
Proof.
  intros H q Hq. apply list_elem_of_lookup in Hq as (i & Hi).
  apply (H i (length cur)).
  - apply lookup_lt_Some in Hi. lia.
  - by apply lookup_app_l_Some.
  - rewrite lookup_app_r by lia. by rewrite Nat.sub_diag.
Qed.

Lemma fits_pairwise (sel : list (list nat)) : forall cur,
  pairwise_disjoint cur -> (fits cur sel <-> pairwise_disjoint (cur ++ sel)).
Proof.
  induction sel as [|p sel IH]; intros cur Hcur; simpl.
  - by rewrite app_nil_r.
  - replace (cur ++ p :: sel) with ((cur ++ [p]) ++ sel) by (by rewrite <- app_assoc).
    rewrite clear_of_spec. split.
    + intros [Hclear Hfit]. apply IH; [|done]. by apply pairwise_disjoint_snoc.
    + intros Hpd. pose proof (pairwise_disjoint_app_l _ _ Hpd) as Hpre.
      split; [by apply pairwise_disjoint_last|]. by apply IH.
Qed.

Lemma combination_in_combos (all : list (list nat)) (d : list bool) :
  length d = length all -> pairwise_disjoint (chosen d all) ->
  (chosen d all, chosen_idx d 0) ∈ combos all 0 [] [].
Proof.
  intros Hlen Hpd. apply in_combos. exists d. repeat split; auto.
  by apply (fits_pairwise _ [] pairwise_disjoint_nil).
Qed.

Lemma in_combos_combination (all : list (list nat)) c ix :
  (c, ix) ∈ combos all 0 [] [] ->
  exists d, length d = length all /\ pairwise_disjoint (chosen d all) /\
            c = chosen d all /\ ix = chosen_idx d 0.
Proof.
  intros (d & Hlen & -> & -> & Hfit)%in_combos. exists d. repeat split; auto.
  by apply (fits_pairwise _ [] pairwise_disjoint_nil) in Hfit.
Qed.

Lemma ForallOrdPairs_app {A : Type} (R : A -> A -> Prop) (l1 l2 : list A) :
  ForallOrdPairs R l1 -> ForallOrdPairs R l2 ->
  (forall x y, x ∈ l1 -> y ∈ l2 -> R x y) ->
  ForallOrdPairs R (l1 ++ l2).
Proof.
  induction 1 as [|a l1 Ha H1 IH]; intros H2 Hx; simpl; [done|].
  constructor.
  - apply Forall_app. split; [done|].
    apply Forall_forall. intros y Hy. apply Hx; [by left|done].
  - apply IH; [done|]. intros x y Hx' Hy. apply Hx; [by right|done].
Qed.

(** [combos] lists the combinations in the order [visited_before]. *)
Lemma combos_ordered (rest : list (list nat)) : forall i cur idxs,
  ForallOrdPairs (fun X Y => visited_before X.2 Y.2) (combos rest i cur idxs).
Proof.
  induction rest as [|p rest IH]; intros i cur idxs; simpl.
  - repeat constructor.
  - apply ForallOrdPairs_app; [apply IH| |].
    + destruct (clear_of cur p); [apply IH|constructor].
    + intros [c ix] [c' ix'] HX HY.
      destruct (clear_of cur p); [|by apply elem_of_nil in HY].
      apply in_combos in HX as (d & _ & _ & -> & _).
      apply in_combos in HY as (d' & _ & _ & -> & _).
      simpl. rewrite <- app_assoc. apply visited_before_app. simpl.
      destruct (chosen_idx d (S i)) as [|j js] eqn:E; [done|].
      left. pose proof (chosen_idx_ge d (S i) j) as H. rewrite E in H.
      specialize (H ltac:(left)). lia.
Qed.

(** *** The fold keeps the least scored combination *)

Lemma consider_cases (fuel : nat) (ants : Z) (cur : list (list nat))
    (idxs : list nat) (s s' : best_state) :
  consider fuel ants cur idxs s = Done s' ->
  (cur = [] /\ s' = s) \/
  (cur <> [] /\ exists t, countTurns fuel ants (map hops cur) = Done t /\
     s' = if better t idxs s
          then {| bestTurns := t; best := cur; bestIdx := idxs |} else s).
Proof.
  unfold consider. case_decide as Hlen.
  - intros [= <-]. left. split; [|done]. by destruct cur.
  - intros (t & Ht & Hk)%bind_Done. right. split; [by destruct cur|].
    exists t. split; [done|]. by destruct (better t idxs s); injection Hk as <-.
Qed.

Lemma consider_all_min (fuel : nat) (ants : Z) (cs : list (list (list nat) * list nat)) :
  forall s s',
    ForallOrdPairs (fun X Y => visited_before X.2 Y.2) cs ->
    Forall (fun Y => Y.1 <> [] -> visited_before (bestIdx s) Y.2) cs ->
    consider_all fuel ants cs s = Done s' ->
    (s' = s \/
     exists Y t, Y ∈ cs /\ Y.1 <> [] /\
       countTurns fuel ants (map hops Y.1) = Done t /\
       s' = {| bestTurns := t; best := Y.1; bestIdx := Y.2 |}) /\
    key_le (bestTurns s') (bestIdx s') (bestTurns s) (bestIdx s) /\
    (forall Y t, Y ∈ cs -> Y.1 <> [] ->
       countTurns fuel ants (map hops Y.1) = Done t ->
       key_le (bestTurns s') (bestIdx s') t Y.2).
Proof.
  induction cs as [|X cs IH]; intros s s' Hord Hvb Hrun.
  - injection Hrun as <-. split; [by left|]. split; [by right|].
    intros Y t HY. by apply elem_of_nil in HY.
  - simpl in Hrun. apply bind_Done in Hrun as (s1 & Hc & Hrest).
    inversion Hord as [|? ? HX Hord']; subst.
    apply Forall_cons in Hvb as [HvX Hvb].
    apply consider_cases in Hc as [[Hnil ->]|(Hne & t & Ht & ->)].
    + destruct (IH s s' Hord' Hvb Hrest) as (Hfrom & Hle & Hall).
      split; [|split; [done|]].
      * destruct Hfrom as [->|(Y & t & HY & ?)]; [by left|].
        right. exists Y, t. split; [by right|done].
      * intros Y t [->|HY]%elem_of_cons; [done|]. by apply Hall.
    + destruct (better t X.2 s) eqn:Hb.
      * apply (better_key_lt t X.2 s (HvX Hne)) in Hb.
        assert (HX' : Forall (fun Y : list (list nat) * list nat =>
                                Y.1 <> [] -> visited_before X.2 Y.2) cs).
        { eapply Forall_impl; [exact HX|]. by intros Y HY _. }
        destruct (IH {| bestTurns := t; best := X.1; bestIdx := X.2 |} s'
                    Hord' HX' Hrest) as (Hfrom & Hle & Hall). simpl in *.
        split; [|split].
        -- right. destruct Hfrom as [->|(Y & t' & HY & ?)].
           ++ exists X, t. split; [by left|done].
           ++ exists Y, t'. split; [by right|done].
        -- left. destruct Hle as [Hlt|[-> ->]]; [|done].
           by apply (key_lt_trans _ _ t X.2).
        -- intros Y t' [->|HY]%elem_of_cons HYne Ht'; [|by apply Hall].
           rewrite Ht in Ht'. by injection Ht' as <-.
      * assert (Hnb : ~ key_lt t X.2 (bestTurns s) (bestIdx s)).
        { rewrite <- (better_key_lt t X.2 s (HvX Hne)). congruence. }
        destruct (IH s s' Hord' Hvb Hrest) as (Hfrom & Hle & Hall).
        split; [|split; [done|]].
        -- destruct Hfrom as [->|(Y & t' & HY & ?)]; [by left|].
           right. exists Y, t'. split; [by right|done].
        -- intros Y t' [->|HY]%elem_of_cons HYne Ht'; [|by apply Hall].
           rewrite Ht in Ht'. injection Ht' as <-.
           apply (key_le_trans _ _ (bestTurns s) (bestIdx s)); [done|].
           destruct (key_lt_total t X.2 (bestTurns s) (bestIdx s)); done.
Qed.

Lemma consider_all_fuel (f1 f2 : nat) (ants : Z) (cs : list (list (list nat) * list nat)) :
  (forall Y, Y ∈ cs -> Y.1 <> [] ->
     countTurns f1 ants (map hops Y.1) = countTurns f2 ants (map hops Y.1)) ->
  forall s, consider_all f1 ants cs s = consider_all f2 ants cs s.
Proof.
  induction cs as [|X cs IH]; intros Heq s; simpl; [done|].
  assert (consider f1 ants X.1 X.2 s = consider f2 ants X.1 X.2 s) as ->.
  { unfold consider. case_decide as Hlen; [done|].
    rewrite Heq; [done|by left|by destruct (X.1)]. }
  destruct (consider f2 ants X.1 X.2 s); simpl; auto.
  apply IH. intros Y HY. apply Heq. by right.
Qed.

Lemma consider_all_total (fuel : nat) (ants : Z) (cs : list (list (list nat) * list nat)) :
  (forall Y, Y ∈ cs -> Y.1 <> [] ->
     exists t, countTurns fuel ants (map hops Y.1) = Done t) ->
  forall s, exists s', consider_all fuel ants cs s = Done s'.
Proof.
  induction cs as [|X cs IH]; intros Hct s; simpl; [by exists s|].
  assert (exists s1, consider fuel ants X.1 X.2 s = Done s1) as [s1 ->].
  { unfold consider. case_decide as Hlen; [by exists s|].
    destruct (Hct X) as [t ->]; [by left|by destruct (X.1)|]. simpl.
    destruct (better t X.2 s); eauto. }
  simpl. apply IH. intros Y HY. apply Hct. by right.
Qed.

(** *** Turn counts of the combinations *)

Lemma chosen_hops_in_range (all : list (list nat)) (d : list bool) :
  paths_in_range all -> hops_in_range (map hops (chosen d all)).
Proof.
  intros [Hall Hlen]. split.
  - apply Forall_forall. intros l (p & -> & Hp)%list_elem_of_fmap.
    apply chosen_sub in Hp. rewrite Forall_forall in Hall.
    specialize (Hall p Hp). unfold hops. lia.
  - rewrite length_map. pose proof (chosen_length d all). lia.
Qed.

Lemma chosen_turns (all : list (list nat)) (ants : Z) (d : list bool) :
  ants_in_range ants -> paths_in_range all -> chosen d all <> [] ->
  exists T, least_turns ants (map hops (chosen d all)) T /\
            (T < GoInt.int_max)%Z /\
            forall fuel, Z.to_nat GoInt.int_max <= fuel ->
                         countTurns fuel ants (map hops (chosen d all)) = Done T.
Proof.
  intros HA Hall Hne.
  destruct (countTurns_returns_least ants (map hops (chosen d all)) HA)
    as (T & Hleast & HT & Hrun).
  - by apply chosen_hops_in_range.
  - by destruct (chosen d all).
  - exists T. split; [done|]. split; [done|].
    intros fuel Hfuel. apply Hrun. unfold GoInt.int_max in *. lia.
Qed.

Lemma chosen_none (rest : list (list nat)) :
  chosen (replicate (length rest) false) rest = [].
Proof. induction rest; simpl; auto. Qed.

Lemma chosen_idx_none (n i : nat) : chosen_idx (replicate n false) i = [].
Proof. revert i. induction n; simpl; auto. Qed.

Lemma pairwise_disjoint_singleton (p : list nat) : pairwise_disjoint [p].
Proof.
  intros i j a b Hne Hi Hj.
  apply list_lookup_singleton_Some in Hi as [Hi _].
  apply list_lookup_singleton_Some in Hj as [Hj _]. lia.
Qed.

(** The first route alone is always a combination. *)
Lemma first_route_combination (p : list nat) (all : list (list nat)) :
  combination (p :: all) (true :: replicate (length all) false) /\
  chosen (true :: replicate (length all) false) (p :: all) = [p] /\
  chosen_idx (true :: replicate (length all) false) 0 = [0].
Proof.
  assert (H : chosen (true :: replicate (length all) false) (p :: all) = [p])
    by (simpl; by rewrite chosen_none).
  split; [|split; [done|]].
  - unfold combination. rewrite H. simpl. rewrite length_replicate.
    repeat split; auto using pairwise_disjoint_singleton.
  - simpl. by rewrite chosen_idx_none.
Qed.

(** In range, [bestDisjointPaths] returns the combination whose score is
    least for [key_le]; it returns no route only when given none. *)
Lemma bestDisjointPaths_least (all : list (list nat)) (ants : Z) :
  ants_in_range ants -> paths_in_range all ->
  exists rs,
    returns (fun fuel => bestDisjointPaths fuel all ants) rs /\
    ((all = [] /\ rs = []) \/
     exists d T,
       combination all d /\ rs = chosen d all /\ turns_of ants rs T /\
       least_turns ants (map hops rs) T /\
       forall d' T', combination all d' -> turns_of ants (chosen d' all) T' ->
                     key_le T (chosen_idx d 0) T' (chosen_idx d' 0)).
Proof.
  intros HA Hall.
  set (n := Z.to_nat GoInt.int_max).
  set (cs := combos all 0 [] []).
  set (init := {| bestTurns := GoInt.int_max; best := []; bestIdx := [] |}).
  assert (Hct : forall Y, Y ∈ cs -> Y.1 <> [] ->
            exists T, least_turns ants (map hops Y.1) T /\ (T < GoInt.int_max)%Z /\
                      forall fuel, n <= fuel ->
                                   countTurns fuel ants (map hops Y.1) = Done T).
  { intros [c ix] HY Hne. apply in_combos_combination in HY as (d & _ & _ & -> & _).
    by apply chosen_turns. }
  destruct (consider_all_total n ants cs) with (s := init) as [s' Hs'].
  { intros Y HY Hne. destruct (Hct Y HY Hne) as (T & _ & _ & Hrun).
    exists T. by apply Hrun. }
  assert (Hrun : forall fuel, n <= fuel ->
            bestDisjointPaths fuel all ants = Done (best s')).
  { intros fuel Hfuel. unfold bestDisjointPaths.
    pose proof (rec_consider_all fuel ants all 0 [] [] ∅ init) as Hrec.
    fold cs in Hrec.
    rewrite (consider_all_fuel fuel n), Hs' in Hrec.
    - fold init.
      assert (Hlen2 : Forall (fun p : list nat => 2 <= length p) all).
      { eapply Forall_impl; [exact (proj1 Hall)|]. by intros p [? _]. }
      specialize (Hrec Hlen2 used_inv_empty).
      destruct (rec fuel ants all 0 [] [] ∅ init) as [r| |]; simpl in *; try done.
      by injection Hrec as ->.
    - intros Y HY Hne. destruct (Hct Y HY Hne) as (T & _ & _ & HT).
      rewrite !HT; auto. }
  exists (best s'). split; [by exists n|].
  destruct (consider_all_min n ants cs init s') as (Hfrom & _ & Hleast); auto.
  { apply combos_ordered. }
  { apply Forall_forall. intros [c ix] HY Hne. simpl in *.
    apply in_combos_combination in HY as (d & Hlen & _ & -> & ->).
    pose proof (chosen_idx_length d all 0 Hlen) as Hl.
    destruct (chosen_idx d 0); [|done]. by destruct (chosen d all). }
  destruct (decide (all = [])) as [Hnil|Hnn].
  { left. split; [done|]. subst all. unfold cs in Hs'. simpl in Hs'.
    by injection Hs' as <-. }
  right.
  assert (Hturns : forall d, combination all d ->
            exists T, least_turns ants (map hops (chosen d all)) T /\
                      (T < GoInt.int_max)%Z /\
                      countTurns n ants (map hops (chosen d all)) = Done T /\
                      turns_of ants (chosen d all) T).
  { intros d (Hlen & Hne & Hpd).
    destruct (chosen_turns all ants d HA Hall Hne) as (T & H1 & H2 & H3).
    exists T. split; [done|]. split; [done|]. split; [by apply H3|]. by exists n. }
  assert (Hnot_init : s' <> init).
  { intros ->.
    assert (Hex : exists d0, combination all d0).
    { destruct all as [|p0 all0]; [done|]. eexists. apply first_route_combination. }
    destruct Hex as [d0 Hc0].
    destruct (Hturns _ Hc0) as (T0 & _ & HT0 & Hrun0 & _).
    specialize (Hleast (chosen d0 all, chosen_idx d0 0) T0
                  (combination_in_combos all _ (proj1 Hc0) (proj2 (proj2 Hc0)))
                  (proj1 (proj2 Hc0)) Hrun0).
    simpl in Hleast. destruct Hleast as [[?|[? _]]|[? _]]; lia. }
  destruct Hfrom as [->|([c ix] & t & HY & Hne & Ht & ->)]; [done|]. simpl in *.
  apply in_combos_combination in HY as (d & Hlen & Hpd & -> & ->).
  assert (Hcomb : combination all d) by done.
  destruct (Hturns d Hcomb) as (T & Hl & _ & HrunT & HtT).
  assert (t = T) as -> by congruence.
  exists d, T. split; [done|]. split; [done|]. split; [done|]. split; [done|].
  intros d' T' Hcomb' HT'.
  destruct (Hturns d' Hcomb') as (T1 & _ & _ & Hrun1 & Ht1).
  assert (T' = T1) as -> by (by apply (returns_inj _ _ _ HT' Ht1)).
  apply (Hleast (chosen d' all, chosen_idx d' 0) T1); auto.
  - apply combination_in_combos; apply Hcomb'.
  - apply Hcomb'.
Qed.

End SelectorFacts.

(** ** The stable sort of the library *)

Section SwapFacts.
Context {A : Type}.
Implicit Types l pre mid post : list A.

Lemma swap_cons (a : A) l i j : swap (a :: l) (S i) (S j) = a :: swap l i j.
Proof. unfold swap. simpl. by destruct (l !! i), (l !! j). Qed.

Lemma swap_comm l i j : swap l i j = swap l j i.
Proof.
  unfold swap. destruct (l !! i) as [x|] eqn:Hi, (l !! j) as [y|] eqn:Hj; try done.
  destruct (decide (i = j)) as [->|Hne].
  - congruence.
  - by rewrite list_insert_insert_ne.
Qed.

Lemma swap_mid pre (x : A) mid (y : A) post :
  swap (pre ++ x :: mid ++ y :: post) (length pre) (length pre + S (length mid))
  = pre ++ y :: mid ++ x :: post.
Proof.
  induction pre as [|a pre IH]; simpl.
  - unfold swap. simpl. rewrite list_lookup_middle by done. simpl.
    f_equal. by rewrite insert_app_r_alt, Nat.sub_diag by lia.
  - by rewrite swap_cons, IH.
Qed.

Lemma swap_adjacent pre (x y : A) post :
  swap (pre ++ x :: y :: post) (length pre) (S (length pre)) = pre ++ y :: x :: post.
Proof.
  pose proof (swap_mid pre x [] y post) as H. simpl in H.
  by rewrite Nat.add_1_r in H.
Qed.

Lemma swap_same l i : swap l i i = l.
Proof.
  unfold swap. destruct (l !! i) as [x|] eqn:Hi; [|done].
  rewrite list_insert_insert_eq. by apply list_insert_id.
Qed.

Lemma split_two l i j x y :
  i < j -> l !! i = Some x -> l !! j = Some y ->
  exists pre mid post, l = pre ++ x :: mid ++ y :: post /\
    length pre = i /\ length pre + S (length mid) = j.
Proof.
  intros Hij Hi Hj.
  exists (take i l), (take (j - S i) (drop (S i) l)), (drop (S j) l).
  pose proof (lookup_lt_Some _ _ _ Hi). pose proof (lookup_lt_Some _ _ _ Hj).
  split; [|split].
  - rewrite <- (take_drop_middle l i x Hi) at 1. f_equal. f_equal.
    assert (drop (S i) l !! (j - S i) = Some y) as Hj'.
    { rewrite lookup_drop. by replace (S i + (j - S i)) with j by lia. }
    rewrite <- (take_drop_middle _ _ _ Hj') at 1. f_equal. f_equal.
    rewrite drop_drop. f_equal. lia.
  - rewrite length_take. lia.
  - rewrite !length_take, length_drop. lia.
Qed.

Lemma swap_perm l i j : swap l i j ≡ₚ l.
Proof.
  assert (Hlt : forall i j, i < j -> swap l i j ≡ₚ l).
  { clear i j. intros i j Hij. unfold swap.
    destruct (l !! i) as [x|] eqn:Hi, (l !! j) as [y|] eqn:Hj; try done.
    destruct (split_two l i j x y Hij Hi Hj) as (pre & mid & post & -> & <- & <-).
    pose proof (swap_mid pre x mid y post) as H. unfold swap in H.
    rewrite Hi, Hj in H. rewrite H. solve_Permutation. }
  destruct (lt_eq_lt_dec i j) as [[?| ->]|?]; auto.
  - by rewrite swap_same.
  - rewrite swap_comm. auto.
Qed.

End SwapFacts.

Section SortPerm.
Context {A : Type} (less : list A -> nat -> nat -> bool).
Implicit Types l : list A.

Lemma foldl_perm {B : Type} (f : list A -> B -> list A) (xs : list B) :
  (forall l x, f l x ≡ₚ l) -> forall l, foldl f l xs ≡ₚ l.
Proof.
  intros Hf. induction xs as [|x xs IH]; intros l; simpl; [done|].
  by rewrite IH.
Qed.

Lemma sift_perm a j : forall l, sift less a j l ≡ₚ l.
Proof.
  induction j as [|j IH]; intros l; simpl; [done|].
  destruct ((a <? S j) && less l (S j) j); [|done].
  by rewrite IH, swap_perm.
Qed.

Lemma insertionSort_perm a b l : insertionSort less a b l ≡ₚ l.
Proof. apply foldl_perm. intros. apply sift_perm. Qed.

Lemma swapRange_perm a b n l : swapRange a b n l ≡ₚ l.
Proof. apply foldl_perm. intros. apply swap_perm. Qed.

Lemma rotate_loop_perm k : forall m i j l, rotate_loop k m i j l ≡ₚ l.
Proof.
  induction k as [|k IH]; intros m i j l; simpl; [done|].
  destruct (i =? j); [apply swapRange_perm|].
  destruct (j <? i); by rewrite IH, swapRange_perm.
Qed.

Lemma symMerge_perm k : forall a m b l, symMerge less k a m b l ≡ₚ l.
Proof.
  induction k as [|k IH]; intros a m b l; simpl; [done|].
  destruct (m - a =? 1); [apply foldl_perm; intros; apply swap_perm|].
  destruct (b - m =? 1); [apply foldl_perm; intros; apply swap_perm|].
  repeat match goal with
         | |- context [if ?c then _ else _] => destruct c
         end;
    rewrite ?IH; unfold rotate; rewrite ?rotate_loop_perm; done.
Qed.

Lemma sort_blocks_perm k bs : forall a n l, sort_blocks less k bs a n l ≡ₚ l.
Proof.
  induction k as [|k IH]; intros a n l; simpl; [apply insertionSort_perm|].
  destruct (a + bs <=? n); [|apply insertionSort_perm].
  by rewrite IH, insertionSort_perm.
Qed.

Lemma merge_pairs_perm k bs : forall a n l, merge_pairs less k bs a n l ≡ₚ l.
Proof.
  induction k as [|k IH]; intros a n l; simpl; [done|].
  destruct (a + (bs + (bs + 0)) <=? n); [by rewrite IH, symMerge_perm|].
  destruct (a + bs <? n); [apply symMerge_perm|done].
Qed.

Lemma merge_passes_perm k : forall bs n l, merge_passes less k bs n l ≡ₚ l.
Proof.
  induction k as [|k IH]; intros bs n l; simpl; [done|].
  destruct (bs <? n); [|done]. by rewrite IH, merge_pairs_perm.
Qed.

Lemma stable_perm l : stable less l ≡ₚ l.
Proof. unfold stable. by rewrite merge_passes_perm, sort_blocks_perm. Qed.

End SortPerm.

(** ** More on the enumerator: fuel and panics *)

Section AllPathsFuel.
Context (g : Graph) (limit : Z).

Lemma visit_links_mono (d d' : nat -> dfs_state -> outcome dfs_state) :
  (forall r st st', d r st = Done st' -> d' r st = Done st') ->
  forall nbs st st', visit_links d nbs st = Done st' ->
                     visit_links d' nbs st = Done st'.
Proof.
  intros Hd. induction nbs as [|nb nbs IH]; intros st st'; simpl; [done|].
  destruct (index (visited st) nb); [apply IH|].
  intros (st1 & H1 & H2)%bind_Done. rewrite (Hd _ _ _ H1). simpl. by apply IH.
Qed.

Lemma dfs_fuel_mono (f : nat) : forall f' r st st',
  dfs f g limit r st = Done st' -> f <= f' -> dfs f' g limit r st = Done st'.
Proof.
  induction f as [|f IH]; intros f' r st st' Hrun Hle; [done|].
  destruct f' as [|f']; [lia|]. simpl in *.
  destruct (Z.of_nat (length (res st)) >=? limit)%Z; [done|].
  destruct (decide (r = End g)); [done|].
  apply bind_Done in Hrun as (st2 & Hloop & Hpop).
  rewrite (visit_links_mono (dfs f g limit) (dfs f' g limit)) with (st' := st2); auto.
  intros r' s s' H. apply (IH f'); [done|lia].
Qed.

Lemma dfs_Done_inv (f : nat) (r : nat) (st st' : dfs_state) :
  dfs_inv g limit st -> r ∉ path st -> dfs f g limit r st = Done st' ->
  dfs_inv g limit st' /\ path st' = path st.
Proof.
  intros Hinv Hr Hrun.
  destruct (dfs_runs g limit (f `max` S (size (Rooms g))) r st Hinv Hr ltac:(lia))
    as (st1 & Hrun1 & Hres & Hpath & Hvis).
  rewrite (dfs_fuel_mono f _ r st st' Hrun) in Hrun1 by lia.
  injection Hrun1 as <-. split; [|done].
  destruct Hinv as (Hv & Hnd & Hdom & Hlen).
  repeat split; try rewrite Hpath; auto.
  - rewrite Hvis. apply Hv.
  - rewrite Hvis. apply Hv.
  - rewrite Hres, length_take. lia.
Qed.

(** [path[:len(path)-1]] is never out of range. *)
Lemma dfs_no_panic (f : nat) : forall r st,
  dfs_inv g limit st -> r ∉ path st -> dfs f g limit r st <> Panic.
Proof.
  induction f as [|f IH]; intros r st Hinv Hr; [done|]. simpl.
  destruct (Z.of_nat (length (res st)) >=? limit)%Z eqn:Hfull; [done|].
  destruct (decide (r = End g)) as [|Hne]; [done|].
  set (st1 := {| res := res st; path := path st ++ [r];
                 visited := <[r := true]> (visited st) |}).
  assert (Hloop : forall nbs st2,
    (forall nb, nb ∈ nbs -> nb ∈ Links g r) ->
    dfs_inv g limit st2 -> path st2 = path st ++ [r] ->
    match visit_links (dfs f g limit) nbs st2 with
    | Done st' => path st' = path st ++ [r]
    | Panic => False
    | OutOfFuel => True
    end).
  { induction nbs as [|nb nbs IHn]; intros st2 Hsub Hinv2 Hpath; simpl; [done|].
    destruct (index (visited st2) nb) eqn:Hvis.
    - apply IHn; auto. intros; apply Hsub; by right.
    - assert (Hnb : nb ∉ path st2).
      { intros Hin. pose proof (proj2 (proj1 Hinv2 nb) Hin). congruence. }
      destruct (dfs f g limit nb st2) as [st3| |] eqn:Hrun; simpl; auto.
      + destruct (dfs_Done_inv f nb st2 st3 Hinv2 Hnb Hrun) as [Hinv3 Hp3].
        apply IHn; auto; [|congruence]. intros; apply Hsub; by right.
      + by apply (IH nb st2). }
  destruct (Links g r) as [|nb0 nbs0] eqn:Elinks.
  { simpl. by destruct (path st ++ [r]) eqn:E; [destruct (path st)|]. }
  rewrite <- Elinks in *.
  assert (Hinv1 : dfs_inv g limit st1).
  { apply dfs_inv_enter; auto. apply (Links_dom g r nb0). rewrite Elinks. by left. }
  specialize (Hloop (Links g r) st1 ltac:(auto) Hinv1 eq_refl).
  destruct (visit_links (dfs f g limit) (Links g r) st1) as [st2| |]; simpl; try done.
  rewrite Hloop. by destruct (path st ++ [r]) eqn:E; [destruct (path st)|].
Qed.

Lemma dfs_inv_init : dfs_inv g limit {| res := []; path := []; visited := ∅ |}.
Proof.
  repeat split; simpl; try lia.
  - rewrite index_empty. done.
  - intros Hx. by apply elem_of_nil in Hx.
  - apply NoDup_nil_2.
  - intros x Hx. by apply elem_of_nil in Hx.
Qed.

Lemma allPaths_no_panic (fuel : nat) : allPaths fuel g limit <> Panic.
Proof.
  unfold allPaths.
  pose proof (dfs_no_panic fuel (Start g) _ dfs_inv_init) as H.
  destruct (dfs fuel g limit (Start g) _) eqn:E; simpl; try done.
  intros _. apply H; [|done]. simpl. intros Hx. by apply elem_of_nil in Hx.
Qed.

(** Whatever fuel lets [allPaths] return, it returns the same routes. *)
Lemma allPaths_Done (fuel : nat) (rs : list (list nat)) :
  allPaths fuel g limit = Done rs ->
  rs = take (Z.to_nat limit) (routes_in_dfs_order g).
Proof.
  unfold allPaths. intros (st & Hrun & [= <-])%bind_Done.
  apply (dfs_fuel_mono fuel (fuel `max` S (size (Rooms g)))) in Hrun; [|lia].
  pose proof (allPaths_runs g limit (fuel `max` S (size (Rooms g))) ltac:(lia)) as H.
  unfold allPaths in H. rewrite Hrun in H. simpl in H. by injection H.
Qed.

Lemma walk_has_links (w : list nat) (e : nat) :
  walk g (w ++ [e]) -> forall y, y ∈ w -> y ∈ dom (Rooms g).
Proof.
  induction w as [|a w IH]; intros Hw y Hy; [by apply elem_of_nil in Hy|].
  apply elem_of_cons in Hy as [->|Hy].
  - simpl in Hw. destruct (w ++ [e]) as [|b q] eqn:E; [by destruct w|].
    destruct Hw as [Hb _]. by apply (Links_dom g a b).
  - apply IH; [|done]. by apply (walk_cons g a).
Qed.

Lemma route_length (w : list nat) : route g w -> length w <= S (size (Rooms g)).
Proof.
  intros (_ & Hlast & Hnd & Hwalk).
  apply last_Some in Hlast as (w' & ->).
  rewrite length_app. simpl.
  apply NoDup_app in Hnd as (Hnd & _ & _).
  pose proof (NoDup_length_le_size w' (Rooms g) Hnd (walk_has_links w' _ Hwalk)). lia.
Qed.

End AllPathsFuel.

(** ** The engine: [FindPaths] *)

Section FindPathsFacts.

Lemma countTurns_from_no_panic (fuel : nat) : forall ants lens t,
  countTurns_from fuel ants lens t <> Panic.
Proof.
  induction fuel as [|fuel IH]; intros ants lens t; simpl; [done|].
  destruct (turn_total t lens >=? ants)%Z; [done|apply IH].
Qed.

Lemma consider_all_no_panic (fuel : nat) (ants : Z) cs : forall s,
  consider_all fuel ants cs s <> Panic.
Proof.
  induction cs as [|X cs IH]; intros s; simpl; [done|].
  unfold consider. case_decide; simpl; [apply IH|].
  pose proof (countTurns_from_no_panic fuel ants (map hops X.1) 1) as Hct.
  unfold countTurns. destruct (countTurns_from fuel ants (map hops X.1) 1); simpl; try done.
  destruct (better a X.2 s); simpl; apply IH.
Qed.

(** With two rooms or more in every route, no slice expression of
    [bestDisjointPaths] is out of range. *)
Lemma bestDisjointPaths_no_panic (fuel : nat) (all : list (list nat)) (ants : Z) :
  Forall (fun p => 2 <= length p) all -> bestDisjointPaths fuel all ants <> Panic.
Proof.
  intros Hall. unfold bestDisjointPaths.
  pose proof (rec_consider_all fuel ants all 0 [] [] ∅
                {| bestTurns := GoInt.int_max; best := []; bestIdx := [] |}
                Hall used_inv_empty) as H.
  destruct (rec fuel ants all 0 [] [] ∅ _); simpl in *; try done.
  intros _. symmetry in H. by apply consider_all_no_panic in H.
Qed.

Lemma listed_routes_in_range (MaxPaths : Z) (g : Graph) :
  graph_in_range MaxPaths g -> Start g <> End g ->
  paths_in_range (stable less_len (take (Z.to_nat MaxPaths) (routes_in_dfs_order g))).
Proof.
  intros [Hmax Hsize] Hne. split.
  - eapply Permutation_Forall; [symmetry; apply stable_perm|].
    apply Forall_take, Forall_forall. intros w Hw%listed_route.
    pose proof (route_two_rooms g w Hne Hw) as [H2 _].
    pose proof (route_length g w Hw). lia.
  - rewrite (Permutation_length (stable_perm less_len _)), length_take. lia.
Qed.

(** [FindPaths] returns what [bestDisjointPaths] returns on the sorted
    enumeration. *)
Lemma FindPaths_returns (MaxPaths : Z) (g : Graph) (rs : list (list nat)) :
  returns (fun fuel => bestDisjointPaths fuel
             (stable less_len (take (Z.to_nat MaxPaths) (routes_in_dfs_order g)))
             (Ants g)) rs ->
  returns (fun fuel => FindPaths MaxPaths fuel g) rs.
Proof.
  intros [n Hn]. exists (n `max` S (size (Rooms g))). intros fuel Hfuel.
  unfold FindPaths. rewrite allPaths_runs by lia. simpl. apply Hn. lia.
Qed.

Lemma least_turns_nonpositive (ants : Z) (lens : list Z) (T : Z) :
  (ants <= 0)%Z -> least_turns ants lens T -> T = 1%Z.
Proof.
  intros Hle (H1 & _ & Hmin).
  pose proof (capacity_nonneg 1 lens). specialize (Hmin 1%Z). lia.
Qed.

(** Without a token every combination needs one turn, so the first route
    of the list alone is selected. *)
Lemma bestDisjointPaths_nonpositive (all : list (list nat)) (ants : Z) :
  ants_in_range ants -> (ants <= 0)%Z -> paths_in_range all ->
  returns (fun fuel => bestDisjointPaths fuel all ants) (take 1 all).
Proof.
  intros HA Hle Hall.
  destruct (bestDisjointPaths_least all ants HA Hall)
    as (rs & Hrun & [[-> ->]|(d & T & Hcomb & -> & HT & Hleast & Hmin)]); [done|].
  destruct all as [|p0 all0] eqn:Eall; [by destruct Hcomb as (? & ? & _); destruct d|].
  rewrite <- Eall in *.
  destruct (first_route_combination p0 all0) as (Hc0 & Hsel & Hidx).
  rewrite <- Eall in Hc0, Hsel.
  set (d0 := true :: replicate (length all0) false) in *.
  assert (d = d0) as ->.
  { destruct (chosen_turns all ants d0 HA Hall (proj1 (proj2 Hc0)))
      as (T0 & Hl0 & _ & Hrun0).
    assert (Ht0 : turns_of ants (chosen d0 all) T0) by (by eexists).
    specialize (Hmin d0 T0 Hc0 Ht0).
    apply least_turns_nonpositive in Hleast as ->; [|done].
    apply least_turns_nonpositive in Hl0 as ->; [|done].
    apply (chosen_idx_inj d d0 0); [destruct Hcomb, Hc0; congruence|].
    rewrite Hidx in *.
    pose proof (chosen_idx_length d all 0 (proj1 Hcomb)) as Hlen.
    destruct Hmin as [[?|[_ Hlex]]|[_ ?]]; [lia| |done].
    destruct (chosen_idx d 0) as [|x ix]; simpl in *.
    - destruct Hcomb as (_ & Hne & _). by destruct (chosen d all).
    - destruct Hlex as [?|[_ Hlex]]; [lia|]. by destruct ix. }
  rewrite Hsel in Hrun. by rewrite Eall in *.
Qed.

Lemma take_nonempty {A : Type} (n : Z) (l : list A) :
  (0 < n)%Z -> l <> [] -> take (Z.to_nat n) l <> [].
Proof.
  intros Hn Hl. destruct l as [|x l]; [done|].
  destruct (Z.to_nat n) eqn:E; [lia|done].
Qed.

Lemma perm_nonempty {A : Type} (l l' : list A) : l ≡ₚ l' -> l <> [] -> l' <> [].
Proof. intros H Hl ->. by apply Permutation_nil_r in H. Qed.

End FindPathsFacts.

Section EngineClaims.

(** C2: any two routes at different positions of the route set returned by
    [FindPaths], or by [bestDisjointPaths] on any list of routes, have
    disjoint interiors (all rooms but the first and the last); nothing is
    required of the first and last rooms. *)
Theorem route_set_interiors_disjoint (MaxPaths : Z) (fuel : nat) (g : Graph)
    (all rs : list (list nat)) (ants : Z) :
  FindPaths MaxPaths fuel g = Done rs \/ bestDisjointPaths fuel all ants = Done rs ->
  pairwise_disjoint rs.
Proof.
  intros [Hrun|Hrun].
  - unfold FindPaths in Hrun. apply bind_Done in Hrun as (all' & _ & Hrun).
    apply (bestDisjointPaths_keeps_disjoint _ _ _ _ Hrun).
  - apply (bestDisjointPaths_keeps_disjoint _ _ _ _ Hrun).
Qed.

Lemma route_set_interiors_disjoint_witness :
  pairwise_disjoint [[0; 1; 3]; [0; 2; 3]].
Proof.
  apply (route_set_interiors_disjoint 10 10 diamond [] [[0; 1; 3]; [0; 2; 3]] 0).
  left. vm_compute. reflexivity.
Defined.

(** C3: [bestDisjointPaths] returns the fully-decided, non-empty,
    interior-disjoint combination that beats every other one in the order
    of the specification: fewer turns; on a tie the smaller index at the
    first differing position of the shared prefix; on an equal shared
    prefix the fewer routes. *)
Theorem bestDisjointPaths_selects_best (all : list (list nat)) (ants : Z) :
  ants_in_range ants -> paths_in_range all ->
  exists rs,
    returns (fun fuel => bestDisjointPaths fuel all ants) rs /\
    ((all = [] /\ rs = []) \/
     exists d T,
       combination all d /\ rs = chosen d all /\ turns_of ants rs T /\
       forall d' T', combination all d' -> d' <> d ->
                     turns_of ants (chosen d' all) T' ->
                     beats T (chosen_idx d 0) T' (chosen_idx d' 0)).
Proof.
  intros HA Hall.
  destruct (bestDisjointPaths_least all ants HA Hall)
    as (rs & Hrun & [?|(d & T & Hcomb & Hrs & HT & _ & Hmin)]);
    exists rs; (split; [done|]); [by left|].
  right. exists d, T. split; [done|]. split; [done|]. split; [done|].
  intros d' T' Hcomb' Hne HT'.
  destruct (Hmin d' T' Hcomb' HT') as [Hlt|[_ Heq]]; [by apply key_lt_beats|].
  exfalso. apply Hne. symmetry. apply (chosen_idx_inj d d' 0); [|done].
  destruct Hcomb, Hcomb'. congruence.
Qed.

Lemma bestDisjointPaths_selects_best_witness :
  exists rs,
    returns (fun fuel => bestDisjointPaths fuel [[0; 1; 3]; [0; 2; 3]] 4) rs /\
    (([[0; 1; 3]; [0; 2; 3]] = [] /\ rs = []) \/
     exists d T,
       combination [[0; 1; 3]; [0; 2; 3]] d /\
       rs = chosen d [[0; 1; 3]; [0; 2; 3]] /\ turns_of 4 rs T /\
       forall d' T', combination [[0; 1; 3]; [0; 2; 3]] d' -> d' <> d ->
                     turns_of 4 (chosen d' [[0; 1; 3]; [0; 2; 3]]) T' ->
                     beats T (chosen_idx d 0) T' (chosen_idx d' 0)).
Proof.
  apply (bestDisjointPaths_selects_best [[0; 1; 3]; [0; 2; 3]] 4).
  - unfold ants_in_range, GoInt.int_min. lia.
  - split; [repeat constructor; simpl; lia|simpl; lia].
Defined.

(** C4: on a graph whose [Start] and [End] differ and are connected, with
    a positive token count and a positive cap (all within the 64-bit
    range), [FindPaths] returns a non-empty route set of the graph: every
    member is a route (a simple walk along links from [Start] to [End]),
    any two members have disjoint interiors; [countTurns] returns a turn
    count for it, a turn [T >= 1] by which the set carries every token. *)
Theorem FindPaths_nonempty (MaxPaths : Z) (g : Graph) :
  (0 < MaxPaths)%Z -> graph_in_range MaxPaths g ->
  Start g <> End g -> connected g -> (1 <= Ants g < 2 ^ 62)%Z ->
  exists rs T,
    returns (fun fuel => FindPaths MaxPaths fuel g) rs /\ rs <> [] /\
    Forall (route g) rs /\ pairwise_disjoint rs /\
    turns_of (Ants g) rs T /\ (1 <= T)%Z /\
    (Ants g <= capacity T (map hops rs))%Z.
Proof.
  intros Hmax Hrange Hne Hconn HA.
  assert (HA' : ants_in_range (Ants g)) by (unfold ants_in_range, GoInt.int_min; lia).
  pose proof (listed_routes_in_range MaxPaths g Hrange Hne) as Hall.
  destruct (bestDisjointPaths_least _ (Ants g) HA' Hall)
    as (rs & Hrun & [[Hnil _]|(d & T & Hcomb & -> & HT & Hleast & _)]).
  - exfalso. destruct (connected_route g Hconn) as [w Hw].
    apply (route_listed g) in Hw.
    eapply (perm_nonempty _ _ (symmetry (stable_perm less_len _))); [|exact Hnil].
    apply take_nonempty; [done|]. intros E. rewrite E in Hw. by apply elem_of_nil in Hw.
  - exists (chosen d (stable less_len (take (Z.to_nat MaxPaths) (routes_in_dfs_order g)))), T.
    split; [by apply FindPaths_returns|]. split; [apply Hcomb|].
    split; [|split; [apply Hcomb|]; split; [done|]; split; apply Hleast].
    apply Forall_forall. intros w Hw%chosen_sub.
    rewrite (stable_perm less_len _) in Hw.
    apply listed_route. by apply (elem_of_sublist _ _ _ Hw), sublist_take.
Qed.

Lemma FindPaths_nonempty_witness :
  exists rs T,
    returns (fun fuel => FindPaths 5 fuel bottleneck) rs /\ rs <> [] /\
    Forall (route bottleneck) rs /\ pairwise_disjoint rs /\
    turns_of (Ants bottleneck) rs T /\ (1 <= T)%Z /\
    (Ants bottleneck <= capacity T (map hops rs))%Z.
Proof.
  apply (FindPaths_nonempty 5 bottleneck).
  - lia.
  - split; [lia|]. vm_compute. reflexivity.
  - discriminate.
  - exists [0; 1; 3]. repeat split; apply (bool_decide_unpack _); vm_compute; exact I.
  - simpl. lia.
Defined.

(** C9, as stated, fails: with no token to move [FindPaths] returns a
    route set like any other. *)
Lemma FindPaths_no_ants_counterexample :
  ~ (forall MaxPaths fuel g,
        (Ants g <= 0)%Z \/ Start g = End g ->
        forall rs, FindPaths MaxPaths fuel g <> Done rs).
Proof.
  intros H.
  assert (Hdeg : (Ants direct_no_ants <= 0)%Z \/ Start direct_no_ants = End direct_no_ants).
  { left. simpl. lia. }
  apply (H 10%Z 10 direct_no_ants Hdeg [[0; 1]]).
  vm_compute. reflexivity.
Qed.

(** C9, as amended: a zero or negative token count is no error; with
    [Start] and [End] different, [FindPaths] returns the first route of
    the sorted enumeration alone, or no route when there is none. *)
Theorem FindPaths_without_tokens (MaxPaths : Z) (g : Graph) :
  graph_in_range MaxPaths g -> Start g <> End g ->
  (GoInt.int_min <= Ants g <= 0)%Z ->
  returns (fun fuel => FindPaths MaxPaths fuel g)
          (take 1 (stable less_len
                     (take (Z.to_nat MaxPaths) (routes_in_dfs_order g)))).
Proof.
  intros Hrange Hne HA. apply FindPaths_returns.
  apply bestDisjointPaths_nonpositive; [|lia|by apply listed_routes_in_range].
  unfold ants_in_range. lia.
Qed.

Lemma FindPaths_without_tokens_witness :
  returns (fun fuel => FindPaths 10 fuel direct_no_ants)
          (take 1 (stable less_len
                     (take (Z.to_nat 10) (routes_in_dfs_order direct_no_ants)))).
Proof.
  apply (FindPaths_without_tokens 10 direct_no_ants).
  - split; [lia|]. vm_compute. reflexivity.
  - discriminate.
  - unfold GoInt.int_min. simpl. lia.
Defined.

(** C10: when [Start] and [End] differ, every path returned by [allPaths]
    has at least two rooms, [Start] first, [End] last and nowhere else, so
    the slice [p[1:len(p)-1]] is in range for it, and [FindPaths] never
    panics. *)
Theorem interior_slice_in_range (MaxPaths : Z) (fuel : nat) (g : Graph) :
  Start g <> End g ->
  (forall limit rs, allPaths fuel g limit = Done rs ->
     Forall (fun p => 2 <= length p /\ head p = Some (Start g) /\
                      last p = Some (End g) /\ (End g ∉ removelast p) /\
                      interior p = Done (removelast (tail p))) rs) /\
  FindPaths MaxPaths fuel g <> Panic.
Proof.
  intros Hne.
  assert (Hall : forall limit rs, allPaths fuel g limit = Done rs ->
                                  Forall (route g) rs).
  { intros limit rs ->%allPaths_Done. apply Forall_take, Forall_route_listed. }
  split.
  - intros limit rs Hrun. eapply Forall_impl; [exact (Hall limit rs Hrun)|].
    intros p Hp. destruct (route_two_rooms g p Hne Hp) as [H2 Hend].
    destruct Hp as (Hhead & Hlast & _). repeat split; auto.
    by apply interior_Done.
  - unfold FindPaths.
    destruct (allPaths fuel g MaxPaths) as [rs| |] eqn:Hrun; simpl; [| |done].
    + apply bestDisjointPaths_no_panic.
      eapply Permutation_Forall; [symmetry; apply stable_perm|].
      eapply Forall_impl; [exact (Hall _ _ Hrun)|].
      intros p Hp. by destruct (route_two_rooms g p Hne Hp).
    + by apply allPaths_no_panic in Hrun.
Qed.

Lemma interior_slice_in_range_witness :
  (forall limit rs, allPaths 10 diamond limit = Done rs ->
     Forall (fun p => 2 <= length p /\ head p = Some (Start diamond) /\
                      last p = Some (End diamond) /\ (End diamond ∉ removelast p) /\
                      interior p = Done (removelast (tail p))) rs) /\
  FindPaths 10 10 diamond <> Panic.
Proof.
  apply (interior_slice_in_range 10 10 diamond). discriminate.
Defined.

(** X21: when [Start] is [End] and the cap is positive, [FindPaths]
    panics: the only route listed is the single room, and
    [bestDisjointPaths] slices it out of range. *)
Lemma FindPaths_start_is_end (MaxPaths : Z) (fuel : nat) (g : Graph) :
  (0 < MaxPaths)%Z -> Start g = End g -> FindPaths MaxPaths (S fuel) g = Panic.
Proof.
  intros Hmax Heq. unfold FindPaths, allPaths. simpl.
  rewrite decide_True by done.
  destruct (Z.geb_spec (Z.of_nat 0) MaxPaths); [simpl in *; lia|].
  reflexivity.
Qed.

Lemma FindPaths_start_is_end_witness : FindPaths 3 (S 0) single_room = Panic.
Proof. apply (FindPaths_start_is_end 3 0 single_room); [lia|reflexivity]. Defined.

End EngineClaims.

(** ** [sort.SliceStable] sorts stably

    The closure of [FindPaths] is only consulted on a pair of indices whose
    first is the larger; there it is the strict comparison of the lengths. *)

Section SortFacts.
Context {A : Type} (key : A -> nat) (less : list A -> nat -> nat -> bool).
Hypothesis Hless : forall l i j x y,
  j < i -> l !! i = Some x -> l !! j = Some y -> less l i j = (key x <? key y).
Implicit Types l pre post L R M X : list A.

Local Abbreviation sorted := (StronglySorted (by_key key)).
Local Abbreviation wk := (with_key key).

Lemma with_key_app k l1 l2 : wk k (l1 ++ l2) = wk k l1 ++ wk k l2.
Proof. apply filter_app. Qed.

Lemma with_key_none k l : Forall (fun x => key x <> k) l -> wk k l = [].
Proof.
  induction 1 as [|x l Hx _ IH]; [done|].
  unfold with_key in *. by rewrite filter_cons_False.
Qed.

Lemma with_key_one k (x : A) : wk k [x] = if decide (key x = k) then [x] else [].
Proof. unfold with_key. rewrite filter_cons. by destruct (decide (key x = k)). Qed.

Lemma sorted_lookup l i j x y :
  sorted l -> i <= j -> l !! i = Some x -> l !! j = Some y -> key x <= key y.
Proof.
  intros Hs Hij Hi Hj. destruct (decide (i = j)) as [->|Hne].
  - assert (x = y) as -> by congruence. done.
  - rewrite <- (take_drop j l) in Hs.
    apply (StronglySorted_app_1_elem_of _ _ _ x y Hs).
    + apply list_elem_of_lookup. exists i. rewrite lookup_take_lt by lia. done.
    + apply list_elem_of_lookup. exists 0. rewrite lookup_drop. by rewrite Nat.add_0_r.
Qed.

Lemma sorted_singleton (x : A) : sorted [x].
Proof. repeat constructor. Qed.

(** *** Insertion sort *)

Lemma sift_spec S : forall pre (x : A) post,
  sorted S ->
  exists S1 S2, S = S1 ++ S2 /\
    Forall (fun y => key y <= key x) S1 /\ Forall (fun y => key x < key y) S2 /\
    sift less (length pre) (length pre + length S) (pre ++ S ++ x :: post)
    = pre ++ S1 ++ x :: S2 ++ post.
Proof.
  induction S as [|y S IH] using rev_ind; intros pre x post Hs.
  - exists [], []. repeat split; auto. simpl. rewrite Nat.add_0_r.
    destruct (length pre) as [|a] eqn:E; simpl; [done|].
    destruct (Nat.ltb_spec (S a) (S a)); [lia|done].
  - apply StronglySorted_app in Hs as (Hle & Hs & _).
    rewrite length_app. simpl.
    replace (length pre + (length S + 1)) with (Datatypes.S (length pre + length S)) by lia.
    simpl. destruct (Nat.ltb_spec (length pre) (Datatypes.S (length pre + length S))); [|lia].
    simpl.
    assert (Hl : pre ++ (S ++ [y]) ++ x :: post = (pre ++ S) ++ y :: x :: post).
    { by rewrite <- !app_assoc. }
    rewrite (Hless _ _ _ x y); [|lia| |].
    2:{ rewrite Hl. rewrite lookup_app_r; rewrite length_app; [|lia].
        by replace (Datatypes.S (length pre + length S) - (length pre + length S)) with 1 by lia. }
    2:{ rewrite Hl. rewrite lookup_app_r; rewrite length_app; [|lia].
        by rewrite Nat.sub_diag. }
    destruct (Nat.ltb_spec (key x) (key y)) as [Hlt|Hge].
    + rewrite swap_comm, Hl.
      pose proof (swap_adjacent (pre ++ S) y x post) as Hsw.
      rewrite length_app in Hsw. rewrite Hsw.
      destruct (IH pre x (y :: post) Hs) as (S1 & S2 & -> & H1 & H2 & Hrun).
      exists S1, (S2 ++ [y]).
      rewrite <- !app_assoc in Hrun. rewrite <- !app_assoc.
      rewrite Hrun. repeat split; auto.
      apply Forall_app. split; [done|]. by constructor.
    + exists (S ++ [y]), []. rewrite app_nil_r. repeat split; auto.
      apply Forall_app. split; [|by constructor].
      apply Forall_forall. intros z Hz.
      specialize (Hle z y Hz ltac:(left)). unfold by_key in Hle. lia.
Qed.

Lemma insertionSort_spec X : forall pre post,
  exists M, stable_sorted key X M /\
    insertionSort less (length pre) (length pre + length X) (pre ++ X ++ post)
    = pre ++ M ++ post.
Proof.
  induction X as [|x X IH] using rev_ind; intros pre post.
  - exists []. split; [by repeat split; try constructor|].
    unfold insertionSort. simpl.
    by replace (length pre + 0 - Datatypes.S (length pre)) with 0 by lia.
  - destruct (IH pre (x :: post)) as (M & (Hs & Hp & Hk) & Hrun).
    unfold insertionSort in *. rewrite length_app. simpl.
    destruct X as [|x0 X0] eqn:EX.
    { exists [x]. split.
      - split; [apply sorted_singleton|]. split; done.
      - simpl. by replace (length pre + 1 - Datatypes.S (length pre)) with 0 by lia. }
    rewrite <- EX in *.
    assert (Hlen : length X = Datatypes.S (length X0)) by (by rewrite EX).
    replace (length pre + (length X + 1) - Datatypes.S (length pre))
      with (Datatypes.S (length X0)) by lia.
    replace (length pre + length X - Datatypes.S (length pre)) with (length X0) in Hrun by lia.
    rewrite seq_S, foldl_app. cbn [foldl].
    rewrite <- app_assoc. cbn [app]. rewrite Hrun.
    replace (Datatypes.S (length pre) + length X0) with (length pre + length M).
    2:{ rewrite (Permutation_length Hp). lia. }
    destruct (sift_spec M pre x post Hs) as (S1 & S2 & -> & H1 & H2 & Hsift).
    rewrite Hsift. exists (S1 ++ x :: S2). split; [|by rewrite <- app_assoc].
    apply StronglySorted_app in Hs as (H12 & Hs1 & Hs2).
    split; [|split].
    + apply StronglySorted_app. split; [|split; [done|]].
      * intros a b Ha [->|Hb]%elem_of_cons.
        -- rewrite Forall_forall in H1. by apply H1.
        -- by apply H12.
      * constructor; [done|]. eapply Forall_impl; [exact H2|].
        intros b Hb. unfold by_key. simpl in Hb. lia.
    + rewrite <- Hp. solve_Permutation.
    + intros k. specialize (Hk k). rewrite !with_key_app in *.
      rewrite <- Hk. change (x :: S2) with ([x] ++ S2).
      rewrite with_key_app, with_key_one.
      destruct (decide (key x = k)) as [<-|Hne]; [|by rewrite !app_nil_r].
      rewrite (with_key_none (key x) S2); [by rewrite !app_nil_r|].
      eapply Forall_impl; [exact H2|]. intros b Hb. simpl in Hb. lia.
Qed.


(** *** Block swaps and rotation *)

Lemma foldl_seq_shift {B : Type} (f f' : B -> nat -> B) (n : nat) :
  (forall b i, f b (Datatypes.S i) = f' b i) ->
  forall b s, foldl f b (seq (Datatypes.S s) n) = foldl f' b (seq s n).
Proof.
  intros Hf. induction n as [|n IH]; intros b s; simpl; [done|].
  by rewrite Hf, IH.
Qed.

Lemma swapRange_S (a b n : nat) l :
  swapRange a b (Datatypes.S n) l = swapRange (Datatypes.S a) (Datatypes.S b) n (swap l a b).
Proof.
  unfold swapRange. cbn [seq foldl]. rewrite !Nat.add_0_r.
  apply foldl_seq_shift. intros l' i. f_equal; lia.
Qed.

Lemma swapRange_spec X : forall Y pre mid post,
  length X = length Y ->
  swapRange (length pre) (length pre + length X + length mid) (length X)
            (pre ++ X ++ mid ++ Y ++ post)
  = pre ++ Y ++ mid ++ X ++ post.
Proof.
  induction X as [|x X IH]; intros [|y Y] pre mid post Hlen; simpl in Hlen; try done.
  injection Hlen as Hlen. cbn [length]. rewrite swapRange_S.
  pose proof (swap_mid pre x (X ++ mid) y (Y ++ post)) as Hsw.
  rewrite length_app in Hsw. rewrite <- !app_assoc in Hsw. cbn [app] in Hsw.
  replace (length pre + Datatypes.S (length X + length mid))
    with (length pre + Datatypes.S (length X) + length mid) in Hsw by lia.
  cbn [app]. rewrite Hsw.
  specialize (IH Y (pre ++ [y]) (mid ++ [x]) post Hlen).
  rewrite <- !app_assoc in IH. cbn [app] in IH.
  rewrite !length_app in IH. cbn [length] in IH.
  replace (length pre + 1) with (Datatypes.S (length pre)) in IH by lia.
  replace (Datatypes.S (length pre) + length X + (length mid + 1))
    with (Datatypes.S (length pre + Datatypes.S (length X) + length mid)) in IH by lia.
  exact IH.
Qed.

Lemma rotate_loop_spec k : forall U V pre post,
  U <> [] -> V <> [] -> length U + length V <= k ->
  rotate_loop k (length pre + length U) (length U) (length V)
              (pre ++ U ++ V ++ post)
  = pre ++ V ++ U ++ post.
Proof.
  induction k as [|k IH]; intros U V pre post HU HV Hk.
  { destruct U; [done|]. simpl in Hk. lia. }
  assert (0 < length U) by (destruct U; [done|simpl; lia]).
  assert (0 < length V) by (destruct V; [done|simpl; lia]).
  simpl. destruct (Nat.eqb_spec (length U) (length V)) as [Heq|Hne].
  - replace (length pre + length U - length U) with (length pre) by lia.
    pose proof (swapRange_spec U V pre [] post Heq) as Hsw. simpl in Hsw.
    by rewrite Nat.add_0_r in Hsw.
  - destruct (Nat.ltb_spec (length V) (length U)) as [Hlt|Hge].
    + assert (exists U1 U2, U = U1 ++ U2 /\ length U1 = length V /\ U2 <> [])
        as (U1 & U2 & -> & HU1 & HU2).
      { exists (take (length V) U), (drop (length V) U).
        split; [by rewrite take_drop|]. split; [rewrite length_take; lia|].
        intros E. apply (f_equal length) in E. rewrite length_drop in E. simpl in E. lia. }
      rewrite length_app in *.
      replace (length pre + (length U1 + length U2) - (length U1 + length U2))
        with (length pre) by lia.
      replace (length U1 + length U2 - length V) with (length U2) by lia.
      pose proof (swapRange_spec U1 V pre U2 post HU1) as Hsw.
      replace (length pre + (length U1 + length U2))
        with (length pre + length U1 + length U2) by lia.
      rewrite <- HU1 at 2. rewrite <- !app_assoc. rewrite Hsw.
      pose proof (IH U2 U1 (pre ++ V) post HU2) as Hrot.
      rewrite length_app in Hrot. rewrite <- !app_assoc in Hrot.
      replace (length pre + length V + length U2)
        with (length pre + length U1 + length U2) in Hrot by lia.
      rewrite <- HU1. apply Hrot; [|lia].
      intros ->. simpl in *. lia.
    + assert (length U < length V) by lia.
      assert (exists V1 V2, V = V1 ++ V2 /\ length V2 = length U /\ V1 <> [])
        as (V1 & V2 & -> & HV2 & HV1).
      { exists (take (length V - length U) V), (drop (length V - length U) V).
        split; [by rewrite take_drop|]. split; [rewrite length_drop; lia|].
        intros E. apply (f_equal length) in E. rewrite length_take in E. simpl in E. lia. }
      rewrite length_app in *.
      replace (length pre + length U - length U) with (length pre) by lia.
      replace (length pre + length U + (length V1 + length V2) - length U)
        with (length pre + length U + length V1) by lia.
      replace (length V1 + length V2 - length U) with (length V1) by lia.
      pose proof (swapRange_spec U V2 pre V1 post (eq_sym HV2)) as Hsw.
      rewrite <- !app_assoc. rewrite Hsw.
      pose proof (IH V2 V1 pre (U ++ post)) as Hrot.
      rewrite HV2 in Hrot. rewrite Hrot; [done| |done|lia].
      intros ->. simpl in *. lia.
Qed.

Lemma rotate_spec U V pre post :
  U <> [] -> V <> [] ->
  rotate (length pre) (length pre + length U) (length pre + length U + length V)
         (pre ++ U ++ V ++ post)
  = pre ++ V ++ U ++ post.
Proof.
  intros HU HV. unfold rotate.
  replace (length pre + length U - length pre) with (length U) by lia.
  replace (length pre + length U + length V - (length pre + length U)) with (length V) by lia.
  replace (length pre + length U + length V - length pre) with (length U + length V) by lia.
  by apply rotate_loop_spec.
Qed.

(** *** Binary search and shifts *)

Lemma half_bounds (i j : nat) : i < j -> i <= (i + j) / 2 < j.
Proof.
  intros Hij. pose proof (Nat.div_mod_eq (i + j) 2).
  pose proof (Nat.mod_upper_bound (i + j) 2). lia.
Qed.

Lemma bsearch_spec (p : nat -> bool) k : forall lo hi,
  lo <= hi -> hi - lo <= k ->
  (forall x y, lo <= x -> x <= y -> y < hi -> p y = true -> p x = true) ->
  lo <= bsearch k p lo hi <= hi /\
  (forall x, lo <= x < bsearch k p lo hi -> p x = true) /\
  (forall x, bsearch k p lo hi <= x < hi -> p x = false).
Proof.
  induction k as [|k IH]; intros lo hi Hle Hk Hmono; cbn [bsearch].
  - repeat split; intros; lia.
  - destruct (Nat.ltb_spec lo hi) as [Hlt|Hge]; [|repeat split; intros; lia].
    pose proof (half_bounds lo hi Hlt) as Hh.
    set (h := (lo + hi) / 2) in *.
    destruct (p h) eqn:Hp.
    + destruct (IH (h + 1) hi) as (H1 & H2 & H3); [lia|lia| |].
      { intros x y Hx Hxy Hy. apply Hmono; lia. }
      split; [lia|]. split; [|done].
      intros x Hx. destruct (le_lt_dec x h) as [Hxh|Hxh].
      * apply (Hmono x h); auto; lia.
      * apply H2. lia.
    + destruct (IH lo h) as (H1 & H2 & H3); [lia|lia| |].
      { intros x y Hx Hxy Hy. apply Hmono; lia. }
      split; [lia|]. split; [done|].
      intros x Hx. destruct (le_lt_dec h x) as [Hxh|Hxh].
      * destruct (p x) eqn:Hpx; [|done].
        rewrite (Hmono h x) in Hp; auto; lia.
      * apply H3. lia.
Qed.

Lemma shift_right_spec ys : forall pre (x : A) post,
  foldl (fun l k => swap l k (k + 1)) (pre ++ x :: ys ++ post)
        (seq (length pre) (length ys))
  = pre ++ ys ++ x :: post.
Proof.
  induction ys as [|y ys IH]; intros pre x post; [done|].
  cbn [length seq foldl app]. rewrite Nat.add_1_r, swap_adjacent.
  specialize (IH (pre ++ [y]) x post). rewrite length_app in IH. cbn [length] in IH.
  rewrite Nat.add_1_r in IH. rewrite <- !app_assoc in IH. exact IH.
Qed.

Lemma shift_left_spec ys : forall pre (x : A) post,
  foldl (fun l k => swap l k (k - 1)) (pre ++ ys ++ x :: post)
        (rev (seq (Datatypes.S (length pre)) (length ys)))
  = pre ++ x :: ys ++ post.
Proof.
  induction ys as [|y ys IH] using rev_ind; intros pre x post; [done|].
  rewrite length_app. cbn [length]. rewrite Nat.add_1_r, seq_S, rev_app_distr.
  cbn [rev app foldl].
  replace (Datatypes.S (length pre) + length ys - 1) with (length pre + length ys) by lia.
  rewrite swap_comm.
  replace (pre ++ (ys ++ [y]) ++ x :: post) with ((pre ++ ys) ++ y :: x :: post)
    by (by rewrite <- !app_assoc).
  pose proof (swap_adjacent (pre ++ ys) y x post) as Hsw.
  rewrite length_app in Hsw. cbn [plus] in *. rewrite Hsw.
  rewrite <- !app_assoc. by rewrite IH.
Qed.


(** *** Merging *)

Lemma lookup_seg_L pre L R post i :
  i < length L -> (pre ++ L ++ R ++ post) !! (length pre + i) = L !! i.
Proof.
  intros Hi. rewrite lookup_app_r by lia.
  replace (length pre + i - length pre) with i by lia.
  by rewrite lookup_app_l.
Qed.

Lemma lookup_seg_R pre L R post i :
  i < length R -> (pre ++ L ++ R ++ post) !! (length pre + length L + i) = R !! i.
Proof.
  intros Hi. rewrite lookup_app_r by lia. rewrite lookup_app_r by lia.
  replace (length pre + length L + i - length pre - length L) with i by lia.
  by rewrite lookup_app_l.
Qed.

Lemma merged_nil_r L : sorted L -> merged key L [] L.
Proof. intros Hs. split; [done|]. split; [by rewrite app_nil_r|]. intros k. by rewrite app_nil_r. Qed.

Lemma merged_nil_l R : sorted R -> merged key [] R R.
Proof. intros Hs. by split. Qed.

Lemma merged_left_one (x : A) R1 R2 :
  sorted (R1 ++ R2) ->
  Forall (fun y => key y < key x) R1 -> Forall (fun y => key x <= key y) R2 ->
  merged key [x] (R1 ++ R2) (R1 ++ x :: R2).
Proof.
  intros (H12 & Hs1 & Hs2)%StronglySorted_app H1 H2. split; [|split].
  - apply StronglySorted_app. split; [|split; [done|by constructor]].
    intros a b Ha [->|Hb]%elem_of_cons; [|by apply H12].
    rewrite Forall_forall in H1. specialize (H1 a Ha). unfold by_key. simpl in H1. lia.
  - solve_Permutation.
  - intros k. change (x :: R2) with ([x] ++ R2). rewrite !with_key_app, with_key_one.
    destruct (decide (key x = k)) as [<-|]; [|done].
    rewrite (with_key_none (key x) R1); [done|].
    eapply Forall_impl; [exact H1|]. intros b Hb. simpl in Hb. lia.
Qed.

Lemma merged_right_one (y : A) L1 L2 :
  sorted (L1 ++ L2) ->
  Forall (fun z => key z <= key y) L1 -> Forall (fun z => key y < key z) L2 ->
  merged key (L1 ++ L2) [y] (L1 ++ y :: L2).
Proof.
  intros (H12 & Hs1 & Hs2)%StronglySorted_app H1 H2. split; [|split].
  - apply StronglySorted_app. split; [|split; [done|]].
    + intros a b Ha [->|Hb]%elem_of_cons; [|by apply H12].
      rewrite Forall_forall in H1. by apply H1.
    + constructor; [done|]. eapply Forall_impl; [exact H2|].
      intros b Hb. unfold by_key. simpl in Hb. lia.
  - solve_Permutation.
  - intros k. change (y :: L2) with ([y] ++ L2). rewrite !with_key_app, with_key_one.
    destruct (decide (key y = k)) as [<-|]; [|by rewrite !app_nil_r].
    rewrite (with_key_none (key y) L2); [by rewrite !app_nil_r|].
    eapply Forall_impl; [exact H2|]. intros b Hb. simpl in Hb. lia.
Qed.

Lemma merged_split L1 L2 R1 R2 M1 M2 :
  sorted (L1 ++ L2) -> sorted (R1 ++ R2) ->
  (forall x y, x ∈ L1 -> y ∈ R2 -> key x <= key y) ->
  (forall y x, y ∈ R1 -> x ∈ L2 -> key y < key x) ->
  merged key L1 R1 M1 -> merged key L2 R2 M2 ->
  merged key (L1 ++ L2) (R1 ++ R2) (M1 ++ M2).
Proof.
  intros (HL & _ & _)%StronglySorted_app (HR & _ & _)%StronglySorted_app
         F1 F2 (Hs1 & Hp1 & Hk1) (Hs2 & Hp2 & Hk2).
  split; [|split].
  - apply StronglySorted_app. split; [|done].
    intros a b Ha Hb. rewrite Hp1 in Ha. rewrite Hp2 in Hb.
    apply elem_of_app in Ha as [Ha|Ha]; apply elem_of_app in Hb as [Hb|Hb].
    + by apply HL.
    + by apply F1.
    + unfold by_key. specialize (F2 a b Ha Hb). lia.
    + by apply HR.
  - rewrite Hp1, Hp2. solve_Permutation.
  - intros k. rewrite !with_key_app, Hk1, Hk2, <- !app_assoc. f_equal.
    destruct (wk k R1) as [|y ys] eqn:ER; [done|].
    rewrite (with_key_none k L2); [done|].
    apply Forall_forall. intros x Hx Hkx.
    assert (Hy : y ∈ wk k R1) by (rewrite ER; left).
    apply list_elem_of_filter in Hy as [Hky Hy].
    specialize (F2 y x Hy Hx). lia.
Qed.

Lemma stable_sorted_merged X1 X2 M1 M2 M :
  stable_sorted key X1 M1 -> stable_sorted key X2 M2 -> merged key M1 M2 M ->
  stable_sorted key (X1 ++ X2) M.
Proof.
  intros (_ & Hp1 & Hk1) (_ & Hp2 & Hk2) (Hs & Hp & Hk). split; [done|]. split.
  - by rewrite Hp, Hp1, Hp2.
  - intros k. by rewrite Hk, Hk1, Hk2, with_key_app.
Qed.

Lemma symMerge_left_one (x : A) R pre post :
  sorted R ->
  let l := pre ++ [x] ++ R ++ post in
  let a := length pre in
  let i := bsearch (length R) (fun h => less l h a) (a + 1) (a + 1 + length R) in
  exists M, merged key [x] R M /\
    foldl (fun l k => swap l k (k + 1)) l (seq a (i - 1 - a)) = pre ++ M ++ post.
Proof.
  intros Hs l a i.
  assert (Hp : forall j, j < length R ->
             exists y, R !! j = Some y /\
                       less l (a + 1 + j) a = (key y <? key x)).
  { intros j Hj. destruct (lookup_lt_is_Some_2 R j) as [y Hy]; [lia|].
    exists y. split; [done|]. apply Hless; [lia| |].
    - pose proof (lookup_seg_R pre [x] R post j Hj) as H. simpl in H.
      unfold l, a. simpl. by rewrite H.
    - unfold l, a. simpl. by apply list_lookup_middle. }
  destruct (bsearch_spec (fun h => less l h a) (length R) (a + 1) (a + 1 + length R))
    as (Hi & Htrue & Hfalse); [lia|lia| |].
  { intros h h' Hh Hhh' Hh' Ht.
    destruct (Hp (h - (a + 1)) ltac:(lia)) as (y & Hy & Ey).
    destruct (Hp (h' - (a + 1)) ltac:(lia)) as (y' & Hy' & Ey').
    replace (a + 1 + (h - (a + 1))) with h in Ey by lia.
    replace (a + 1 + (h' - (a + 1))) with h' in Ey' by lia.
    rewrite Ey. rewrite Ey' in Ht.
    apply Nat.ltb_lt in Ht. apply Nat.ltb_lt.
    pose proof (sorted_lookup R (h - (a + 1)) (h' - (a + 1)) y y' Hs ltac:(lia) Hy Hy').
    lia. }
  fold i in Hi, Htrue, Hfalse.
  exists (take (i - (a + 1)) R ++ x :: drop (i - (a + 1)) R). split.
  - rewrite <- (take_drop (i - (a + 1)) R) at 1.
    rewrite <- (take_drop (i - (a + 1)) R) in Hs.
    apply merged_left_one; [done| |].
    + apply Forall_lookup. intros j y Hj. apply lookup_take_Some in Hj as [Hj Hlt].
      pose proof (lookup_lt_Some _ _ _ Hj).
      destruct (Hp j ltac:(lia)) as (y' & Hy' & Ey').
      assert (y' = y) as -> by congruence.
      rewrite Htrue in Ey' by lia. symmetry in Ey'. by apply Nat.ltb_lt in Ey'.
    + apply Forall_lookup. intros j y Hj. rewrite lookup_drop in Hj.
      pose proof (lookup_lt_Some _ _ _ Hj).
      destruct (Hp (i - (a + 1) + j) ltac:(lia)) as (y' & Hy' & Ey').
      assert (y' = y) as -> by congruence.
      rewrite Hfalse in Ey' by lia. symmetry in Ey'. by apply Nat.ltb_ge in Ey'.
  - unfold l. rewrite <- (take_drop (i - (a + 1)) R) at 1.
    pose proof (shift_right_spec (take (i - (a + 1)) R) pre x
                  (drop (i - (a + 1)) R ++ post)) as Hsh.
    rewrite length_take in Hsh.
    replace ((i - (a + 1)) `min` length R) with (i - 1 - a) in Hsh by lia.
    rewrite <- !app_assoc. simpl. exact Hsh.
Qed.


Lemma symMerge_right_one (y : A) L pre post :
  sorted L ->
  let l := pre ++ L ++ [y] ++ post in
  let a := length pre in
  let m := a + length L in
  let i := bsearch (length L) (fun h => negb (less l m h)) a m in
  exists M, merged key L [y] M /\
    foldl (fun l k => swap l k (k - 1)) l (rev (seq (Datatypes.S i) (m - i)))
    = pre ++ M ++ post.
Proof.
  intros Hs l a m i.
  assert (Hp : forall j, j < length L ->
             exists z, L !! j = Some z /\
                       less l m (a + j) = (key y <? key z)).
  { intros j Hj. destruct (lookup_lt_is_Some_2 L j) as [z Hz]; [lia|].
    exists z. split; [done|]. apply Hless; [unfold m; lia| |].
    - unfold l, m, a. rewrite app_assoc. simpl.
      apply list_lookup_middle. by rewrite length_app.
    - pose proof (lookup_seg_L pre L [y] post j Hj) as H.
      unfold l, a. by rewrite H. }
  destruct (bsearch_spec (fun h => negb (less l m h)) (length L) a m)
    as (Hi & Htrue & Hfalse); [unfold m; lia|unfold m; lia| |].
  { intros h h' Hh Hhh' Hh' Ht.
    destruct (Hp (h - a) ltac:(unfold m in *; lia)) as (z & Hz & Ez).
    destruct (Hp (h' - a) ltac:(unfold m in *; lia)) as (z' & Hz' & Ez').
    replace (a + (h - a)) with h in Ez by lia.
    replace (a + (h' - a)) with h' in Ez' by lia.
    rewrite Ez. rewrite Ez' in Ht.
    apply negb_true_iff, Nat.ltb_ge in Ht. apply negb_true_iff, Nat.ltb_ge.
    pose proof (sorted_lookup L (h - a) (h' - a) z z' Hs ltac:(lia) Hz Hz').
    lia. }
  fold i in Hi, Htrue, Hfalse.
  exists (take (i - a) L ++ y :: drop (i - a) L). split.
  - rewrite <- (take_drop (i - a) L) at 1.
    rewrite <- (take_drop (i - a) L) in Hs.
    apply merged_right_one; [done| |].
    + apply Forall_lookup. intros j z Hj. apply lookup_take_Some in Hj as [Hj Hlt].
      pose proof (lookup_lt_Some _ _ _ Hj).
      destruct (Hp j ltac:(lia)) as (z' & Hz' & Ez').
      assert (z' = z) as -> by congruence.
      specialize (Htrue (a + j) ltac:(lia)). simpl in Htrue. rewrite Ez' in Htrue.
      by apply negb_true_iff, Nat.ltb_ge in Htrue.
    + apply Forall_lookup. intros j z Hj. rewrite lookup_drop in Hj.
      pose proof (lookup_lt_Some _ _ _ Hj).
      destruct (Hp (i - a + j) ltac:(lia)) as (z' & Hz' & Ez').
      assert (z' = z) as -> by congruence.
      specialize (Hfalse (a + (i - a + j)) ltac:(unfold m; lia)). simpl in Hfalse.
      rewrite Ez' in Hfalse. by apply negb_false_iff, Nat.ltb_lt in Hfalse.
  - unfold l. rewrite <- (take_drop (i - a) L) at 1.
    pose proof (shift_left_spec (drop (i - a) L) (pre ++ take (i - a) L) y post) as Hsh.
    rewrite length_app, length_take, length_drop in Hsh.
    replace (Datatypes.S (length pre + (i - a) `min` length L))
      with (Datatypes.S i) in Hsh by (unfold m, a in *; lia).
    replace (length L - (i - a)) with (m - i) in Hsh by (unfold m, a in *; lia).
    rewrite <- !app_assoc in Hsh. rewrite <- !app_assoc. simpl. exact Hsh.
Qed.

(** The binary search of the general case cuts [L] and [R] so that the
    two halves can be merged separately. *)
Lemma symMerge_cut L R pre post :
  sorted L -> sorted R ->
  let l := pre ++ L ++ R ++ post in
  let a := length pre in
  let m := a + length L in
  let b := m + length R in
  let mid := (a + b) / 2 in
  let n := mid + m in
  let start0 := if mid <? m then n - b else a in
  let r := if mid <? m then mid else m in
  let start := bsearch (r - start0) (fun c => negb (less l (n - 1 - c) c)) start0 r in
  a <= start /\ start <= m /\ start <= mid /\ mid - start <= length R /\
  (forall x y, x ∈ take (start - a) L -> y ∈ drop (mid - start) R -> key x <= key y) /\
  (forall y x, y ∈ take (mid - start) R -> x ∈ drop (start - a) L -> key y < key x).
Proof.
  intros HsL HsR l a m b mid n start0 r start.
  assert (Hmid : 2 * mid <= a + b < 2 * mid + 2).
  { unfold mid. pose proof (Nat.div_mod_eq (a + b) 2).
    pose proof (Nat.mod_upper_bound (a + b) 2). lia. }
  assert (Hrange : a <= start0 /\ start0 <= r /\ r <= m /\ r <= mid /\
                   mid <= start0 + length R).
  { unfold start0, r, n, b, m in *. destruct (Nat.ltb_spec mid (a + length L)); lia. }
  destruct Hrange as (Ha0 & H0r & Hrm & Hrmid & Hmid0).
  assert (Hp : forall c, start0 <= c < r ->
             exists x y, L !! (c - a) = Some x /\ R !! (mid - 1 - c) = Some y /\
                         less l (n - 1 - c) c = (key y <? key x)).
  { intros c Hc.
    destruct (lookup_lt_is_Some_2 L (c - a)) as [x Hx]; [unfold m in *; lia|].
    destruct (lookup_lt_is_Some_2 R (mid - 1 - c)) as [y Hy]; [lia|].
    exists x, y. split; [done|]. split; [done|]. apply Hless; [unfold n; lia| |].
    - pose proof (lookup_seg_R pre L R post (mid - 1 - c) ltac:(lia)) as H.
      unfold l. replace (n - 1 - c) with (length pre + length L + (mid - 1 - c))
        by (unfold n, m, a in *; lia). by rewrite H.
    - pose proof (lookup_seg_L pre L R post (c - a) ltac:(unfold m in *; lia)) as H.
      unfold l. replace c with (length pre + (c - a)) at 1 by (unfold a in *; lia).
      by rewrite H. }
  destruct (bsearch_spec (fun c => negb (less l (n - 1 - c) c)) (r - start0) start0 r)
    as (Hs & Htrue & Hfalse); [lia|lia| |].
  { intros c c' Hc Hcc' Hc' Ht.
    destruct (Hp c ltac:(lia)) as (x & y & Hx & Hy & E).
    destruct (Hp c' ltac:(lia)) as (x' & y' & Hx' & Hy' & E').
    rewrite E. rewrite E' in Ht.
    apply negb_true_iff, Nat.ltb_ge in Ht. apply negb_true_iff, Nat.ltb_ge.
    pose proof (sorted_lookup L (c - a) (c' - a) x x' HsL ltac:(lia) Hx Hx').
    pose proof (sorted_lookup R (mid - 1 - c') (mid - 1 - c) y' y HsR ltac:(lia) Hy' Hy).
    lia. }
  fold start in Hs, Htrue, Hfalse.
  split; [lia|]. split; [lia|]. split; [lia|]. split; [lia|]. split.
  - intros x y (i1 & Hi1)%list_elem_of_lookup (j2 & Hj2)%list_elem_of_lookup.
    apply lookup_take_Some in Hi1 as [Hi1 Hlt1]. rewrite lookup_drop in Hj2.
    pose proof (lookup_lt_Some _ _ _ Hj2) as Hlt2.
    assert (Hs0 : start0 < start).
    { unfold start0, n, b, m in *. destruct (Nat.ltb_spec mid (a + length L)); lia. }
    destruct (Hp (start - 1) ltac:(lia)) as (x' & y' & Hx' & Hy' & E).
    specialize (Htrue (start - 1) ltac:(lia)). simpl in Htrue. rewrite E in Htrue.
    apply negb_true_iff, Nat.ltb_ge in Htrue.
    pose proof (sorted_lookup L i1 (start - 1 - a) x x' HsL ltac:(lia) Hi1 Hx').
    pose proof (sorted_lookup R (mid - 1 - (start - 1)) (mid - start + j2) y' y HsR
                  ltac:(lia) Hy' Hj2).
    lia.
  - intros y x (j1 & Hj1)%list_elem_of_lookup (i2 & Hi2)%list_elem_of_lookup.
    apply lookup_take_Some in Hj1 as [Hj1 Hlt1]. rewrite lookup_drop in Hi2.
    pose proof (lookup_lt_Some _ _ _ Hi2) as Hlt2.
    assert (Hsr : start < r).
    { unfold r, m in *. destruct (Nat.ltb_spec mid (a + length L)); lia. }
    destruct (Hp start ltac:(lia)) as (x' & y' & Hx' & Hy' & E).
    specialize (Hfalse start ltac:(lia)). simpl in Hfalse. rewrite E in Hfalse.
    apply negb_false_iff, Nat.ltb_lt in Hfalse.
    pose proof (sorted_lookup R j1 (mid - 1 - start) y y' HsR ltac:(lia) Hj1 Hy').
    pose proof (sorted_lookup L (start - a) (start - a + i2) x' x HsL ltac:(lia) Hx' Hi2).
    lia.
Qed.


Lemma rotate_if U V pre post (s m e : nat) :
  s = length pre -> m = s + length U -> e = m + length V ->
  (if (s <? m) && (m <? e) then rotate s m e (pre ++ U ++ V ++ post)
   else pre ++ U ++ V ++ post)
  = pre ++ V ++ U ++ post.
Proof.
  intros -> -> ->. destruct U as [|u U].
  { simpl. by rewrite Nat.add_0_r, Nat.ltb_irrefl. }
  destruct V as [|v V].
  { by rewrite Nat.add_0_r, Nat.ltb_irrefl, andb_false_r. }
  destruct (Nat.ltb_spec (length pre) (length pre + length (u :: U))); [|simpl in *; lia].
  destruct (Nat.ltb_spec (length pre + length (u :: U))
              (length pre + length (u :: U) + length (v :: V))); [|simpl in *; lia].
  by apply rotate_spec.
Qed.

Lemma symMerge_if k L R pre post (a s e : nat) :
  (forall L R pre post,
     L <> [] -> R <> [] -> sorted L -> sorted R -> length L + length R <= k ->
     exists M, merged key L R M /\
       symMerge less k (length pre) (length pre + length L)
                (length pre + length L + length R) (pre ++ L ++ R ++ post)
       = pre ++ M ++ post) ->
  sorted L -> sorted R -> length L + length R <= k ->
  a = length pre -> s = a + length L -> e = s + length R ->
  exists M, merged key L R M /\
    (if (a <? s) && (s <? e) then symMerge less k a s e (pre ++ L ++ R ++ post)
     else pre ++ L ++ R ++ post)
    = pre ++ M ++ post.
Proof.
  intros IH HsL HsR Hk -> -> ->. destruct L as [|x L].
  { exists R. split; [by apply merged_nil_l|].
    simpl. by rewrite Nat.add_0_r, Nat.ltb_irrefl. }
  destruct R as [|y R].
  { exists (x :: L). split; [by apply merged_nil_r|].
    by rewrite Nat.add_0_r, Nat.ltb_irrefl, andb_false_r. }
  destruct (Nat.ltb_spec (length pre) (length pre + length (x :: L))); [|simpl in *; lia].
  destruct (Nat.ltb_spec (length pre + length (x :: L))
              (length pre + length (x :: L) + length (y :: R))); [|simpl in *; lia].
  by apply IH.
Qed.

Lemma symMerge_spec k : forall L R pre post,
  L <> [] -> R <> [] -> sorted L -> sorted R -> length L + length R <= k ->
  exists M, merged key L R M /\
    symMerge less k (length pre) (length pre + length L)
             (length pre + length L + length R) (pre ++ L ++ R ++ post)
    = pre ++ M ++ post.
Proof.
  induction k as [|k IH]; intros L R pre post HL HR HsL HsR Hk.
  { destruct L; [done|]. simpl in Hk. lia. }
  assert (0 < length L) by (destruct L; [done|simpl; lia]).
  assert (0 < length R) by (destruct R; [done|simpl; lia]).
  cbn [symMerge].
  replace (length pre + length L - length pre) with (length L) by lia.
  replace (length pre + length L + length R - (length pre + length L))
    with (length R) by lia.
  destruct (Nat.eqb_spec (length L) 1) as [HL1|HL1].
  { destruct L as [|x [|? ?]]; try done. simpl length.
    pose proof (symMerge_left_one x R pre post HsR) as Hone. cbv zeta in Hone.
    exact Hone. }
  destruct (Nat.eqb_spec (length R) 1) as [HR1|HR1].
  { destruct R as [|y [|? ?]]; try done. simpl length.
    pose proof (symMerge_right_one y L pre post HsL) as Hone. cbv zeta in Hone.
    replace (length pre + length L + 1) with (Datatypes.S (length pre + length L)) by lia.
    exact Hone. }
  pose proof (symMerge_cut L R pre post HsL HsR) as Hcut. cbv zeta in Hcut |- *.
  set (a := length pre) in *. set (m := a + length L) in *.
  set (b := m + length R) in *. set (mid := (a + b) / 2) in *.
  set (n := mid + m) in *.
  set (start := bsearch _ _ _ _) in *. clearbody start.
  destruct Hcut as (Has & Hsm & Hsmid & HmidR & F1 & F2).
  assert (Hmid : 2 * mid <= a + b < 2 * mid + 2).
  { unfold mid. pose proof (Nat.div_mod_eq (a + b) 2).
    pose proof (Nat.mod_upper_bound (a + b) 2). lia. }
  set (L1 := take (start - a) L) in *. set (L2 := drop (start - a) L) in *.
  set (R1 := take (mid - start) R) in *. set (R2 := drop (mid - start) R) in *.
  assert (HL12 : L = L1 ++ L2) by (unfold L1, L2; by rewrite take_drop).
  assert (HR12 : R = R1 ++ R2) by (unfold R1, R2; by rewrite take_drop).
  assert (HlL1 : length L1 = start - a) by (unfold L1, m in *; rewrite length_take; lia).
  assert (HlL2 : length L2 = m - start) by (unfold L2, m in *; rewrite length_drop; lia).
  assert (HlR1 : length R1 = mid - start) by (unfold R1; rewrite length_take; lia).
  assert (HlR2 : length R2 = length R - (mid - start)) by (unfold R2; by rewrite length_drop).
  clearbody L1 L2 R1 R2.
  assert (Hl : pre ++ L ++ R ++ post = (pre ++ L1) ++ L2 ++ R1 ++ R2 ++ post).
  { rewrite HL12, HR12. by rewrite <- !app_assoc. }
  rewrite Hl.
  rewrite (rotate_if L2 R1 (pre ++ L1) (R2 ++ post) start m (n - start));
    [|rewrite length_app; lia|lia|unfold n; lia].
  rewrite HL12 in HsL. rewrite HR12 in HsR.
  pose proof (StronglySorted_app_1_l _ _ _ HsL) as HsL1.
  pose proof (StronglySorted_app_1_r _ _ _ HsL) as HsL2.
  pose proof (StronglySorted_app_1_l _ _ _ HsR) as HsR1.
  pose proof (StronglySorted_app_1_r _ _ _ HsR) as HsR2.
  destruct (symMerge_if k L1 R1 pre (L2 ++ R2 ++ post) a start mid IH HsL1 HsR1)
    as (M1 & Hm1 & Hrun1); [unfold m, b in *; lia|done|lia|lia|].
  assert (HlM1 : length M1 = length L1 + length R1).
  { destruct Hm1 as (_ & Hp & _). by rewrite (Permutation_length Hp), length_app. }
  destruct (symMerge_if k L2 R2 (pre ++ M1) post mid (n - start) b IH HsL2 HsR2)
    as (M2 & Hm2 & Hrun2);
    [unfold m, b in *; lia|rewrite length_app; lia|unfold n; lia|unfold n, b, m in *; lia|].
  rewrite <- !app_assoc in Hrun2.
  exists (M1 ++ M2). split.
  - rewrite HL12, HR12. by apply merged_split.
  - rewrite <- !app_assoc. by rewrite Hrun1, Hrun2.
Qed.


(** *** The passes of [stable] *)

Lemma stable_sorted_nil : stable_sorted key [] [].
Proof. split; [constructor|]. by split. Qed.

Lemma stable_sorted_perm X M : stable_sorted key X M -> M ≡ₚ X.
Proof. by intros (_ & ? & _). Qed.

Lemma blocks_perm bs X M : blocks key bs X M -> M ≡ₚ X.
Proof.
  induction 1 as [X M _ Hs|X1 M1 X2 M2 _ Hs _ IH]; [by apply stable_sorted_perm|].
  by rewrite (stable_sorted_perm _ _ Hs), IH.
Qed.

Lemma blocks_short bs X M :
  1 <= bs -> blocks key bs X M -> length X <= bs -> stable_sorted key X M.
Proof.
  intros Hbs Hb Hlen. destruct Hb as [X M _ Hs|X1 M1 X2 M2 H1 Hs Hb]; [done|].
  rewrite length_app in Hlen. destruct X2; [|simpl in Hlen; lia].
  apply blocks_perm, Permutation_nil_r in Hb as ->. by rewrite !app_nil_r.
Qed.

Lemma sort_blocks_spec bs k :
  1 <= bs -> forall X pre, length X <= k ->
  exists M, blocks key bs X M /\
    sort_blocks less k bs (length pre) (length pre + length X) (pre ++ X) = pre ++ M.
Proof.
  intros Hbs. induction k as [|k IH]; intros X pre Hk.
  - destruct X; [|simpl in Hk; lia]. simpl.
    destruct (insertionSort_spec [] pre []) as (M & Hs & Hrun). simpl in Hrun.
    exists M. split; [apply blocks_last; [simpl; lia|done]|].
    by rewrite Hrun, app_nil_r.
  - cbn [sort_blocks]. destruct (Nat.leb_spec (length pre + bs) (length pre + length X)).
    + assert (exists X1 X2, X = X1 ++ X2 /\ length X1 = bs) as (X1 & X2 & -> & HX1).
      { exists (take bs X), (drop bs X). split; [by rewrite take_drop|].
        rewrite length_take. lia. }
      rewrite length_app in *.
      destruct (insertionSort_spec X1 pre X2) as (M1 & Hs1 & Hrun1).
      rewrite HX1 in Hrun1. rewrite Hrun1.
      destruct (IH X2 (pre ++ M1) ltac:(lia)) as (M2 & Hb2 & Hrun2).
      rewrite length_app, (Permutation_length (stable_sorted_perm _ _ Hs1)), HX1 in Hrun2.
      replace (length pre + (length X1 + length X2)) with (length pre + bs + length X2) by lia.
      rewrite <- !app_assoc in Hrun2. rewrite Hrun2.
      exists (M1 ++ M2). split; [by apply blocks_cons|done].
    + destruct (insertionSort_spec X pre []) as (M & Hs & Hrun).
      rewrite !app_nil_r in Hrun. rewrite Hrun.
      exists M. split; [apply blocks_last; [lia|done]|done].
Qed.

Lemma merge_pairs_done k bs a n l :
  1 <= bs -> n <= a -> merge_pairs less k bs a n l = l.
Proof.
  intros Hbs Hn. destruct k as [|k]; [done|]. cbn [merge_pairs].
  destruct (Nat.leb_spec (a + 2 * bs) n); [lia|].
  destruct (Nat.ltb_spec (a + bs) n); [lia|done].
Qed.

Lemma stable_sorted_nonempty X M : stable_sorted key X M -> X <> [] -> M <> [].
Proof. intros Hs HX ->. apply stable_sorted_perm in Hs. symmetry in Hs. by apply Permutation_nil_r in Hs. Qed.

Lemma merge_two X1 X2 M1 M2 pre post k :
  stable_sorted key X1 M1 -> stable_sorted key X2 M2 ->
  X1 <> [] -> X2 <> [] -> length X1 + length X2 <= k ->
  exists M, stable_sorted key (X1 ++ X2) M /\
    symMerge less k (length pre) (length pre + length X1)
             (length pre + length X1 + length X2) (pre ++ M1 ++ M2 ++ post)
    = pre ++ M ++ post.
Proof.
  intros Hs1 Hs2 HX1 HX2 Hk.
  pose proof (Permutation_length (stable_sorted_perm _ _ Hs1)) as Hl1.
  pose proof (Permutation_length (stable_sorted_perm _ _ Hs2)) as Hl2.
  destruct (symMerge_spec k M1 M2 pre post) as (M & Hm & Hrun).
  - by apply (stable_sorted_nonempty X1).
  - by apply (stable_sorted_nonempty X2).
  - apply Hs1.
  - apply Hs2.
  - lia.
  - rewrite Hl1, Hl2 in Hrun. exists M. split; [|done].
    by apply (stable_sorted_merged X1 X2 M1 M2).
Qed.

Lemma merge_pairs_spec bs k :
  1 <= bs -> forall X M0 pre, blocks key bs X M0 -> length X <= k ->
  exists M, blocks key (2 * bs) X M /\
    merge_pairs less k bs (length pre) (length pre + length X) (pre ++ M0) = pre ++ M.
Proof.
  intros Hbs. induction k as [|k IH]; intros X M0 pre Hb Hk.
  { destruct X; [|simpl in Hk; lia].
    pose proof (blocks_perm _ _ _ Hb) as ->%Permutation_nil_r.
    exists []. split; [|done]. apply blocks_last; [simpl; lia|apply stable_sorted_nil]. }
  cbn [merge_pairs].
  destruct Hb as [X M0 Hlen Hs|X1 M1 X2 M2 HX1 Hs1 Hb2].
  { destruct (Nat.leb_spec (length pre + 2 * bs) (length pre + length X)); [lia|].
    destruct (Nat.ltb_spec (length pre + bs) (length pre + length X)); [lia|].
    exists M0. split; [apply blocks_last; [lia|done]|done]. }
  assert (HX1ne : X1 <> []) by (intros ->; simpl in HX1; lia).
  rewrite length_app in *.
  destruct Hb2 as [X2 M2 Hlen2 Hs2|X2 M2 X3 M3 HX2 Hs2 Hb3].
  - destruct (Nat.leb_spec (length pre + 2 * bs) (length pre + (length X1 + length X2))).
    + assert (HX2ne : X2 <> []) by (intros ->; simpl in *; lia).
      destruct (merge_two X1 X2 M1 M2 pre [] (2 * bs) Hs1 Hs2 HX1ne HX2ne ltac:(lia))
        as (M & Hs & Hrun).
      rewrite !app_nil_r in Hrun.
      replace (length pre + bs) with (length pre + length X1) by lia.
      replace (length pre + 2 * bs) with (length pre + length X1 + length X2) by lia.
      rewrite <- ?app_assoc. rewrite Hrun.
      rewrite merge_pairs_done; [|done|lia].
      exists M. split; [|done]. apply blocks_last; [rewrite length_app; lia|done].
    + destruct (Nat.ltb_spec (length pre + bs) (length pre + (length X1 + length X2))).
      * assert (HX2ne : X2 <> []) by (intros ->; simpl in *; lia).
        destruct (merge_two X1 X2 M1 M2 pre [] (length X1 + length X2)
                    Hs1 Hs2 HX1ne HX2ne ltac:(lia)) as (M & Hs & Hrun).
        rewrite !app_nil_r in Hrun.
        replace (length pre + bs) with (length pre + length X1) by lia.
        replace (length pre + (length X1 + length X2) - length pre)
          with (length X1 + length X2) by lia.
        replace (length pre + (length X1 + length X2))
          with (length pre + length X1 + length X2) by lia.
        rewrite <- ?app_assoc. rewrite Hrun.
        exists M. split; [|done]. apply blocks_last; [rewrite length_app; lia|done].
      * destruct X2; [|simpl in *; lia].
        pose proof (stable_sorted_perm _ _ Hs2) as ->%Permutation_nil_r.
        exists (M1 ++ []). split; [|done]. rewrite !app_nil_r.
        apply blocks_last; [lia|done].
  - rewrite length_app in *.
    destruct (Nat.leb_spec (length pre + 2 * bs)
                (length pre + (length X1 + (length X2 + length X3)))); [|lia].
    assert (HX2ne : X2 <> []) by (intros ->; simpl in *; lia).
    destruct (merge_two X1 X2 M1 M2 pre M3 (2 * bs) Hs1 Hs2 HX1ne HX2ne ltac:(lia))
      as (M12 & Hs12 & Hrun).
    replace (length pre + bs) with (length pre + length X1) by lia.
    replace (length pre + 2 * bs) with (length pre + length X1 + length X2) by lia.
    rewrite <- ?app_assoc. rewrite Hrun.
    destruct (IH X3 M3 (pre ++ M12) Hb3 ltac:(lia)) as (M' & Hb' & Hrun').
    rewrite length_app, (Permutation_length (stable_sorted_perm _ _ Hs12)), length_app
      in Hrun'.
    replace (length pre + (length X1 + (length X2 + length X3)))
      with (length pre + (length X1 + length X2) + length X3) by lia.
    replace (length pre + length X1 + length X2) with (length pre + (length X1 + length X2))
      by lia.
    rewrite <- ?app_assoc in Hrun'. rewrite Hrun'.
    exists (M12 ++ M'). split; [|done].
    rewrite (app_assoc X1). apply blocks_cons; [rewrite length_app; lia|done|done].
Qed.

Lemma merge_passes_spec k : forall bs X M0,
  1 <= bs -> blocks key bs X M0 -> length X < bs * 2 ^ k ->
  stable_sorted key X (merge_passes less k bs (length X) M0).
Proof.
  induction k as [|k IH]; intros bs X M0 Hbs Hb Hk.
  - simpl in *. apply (blocks_short bs); [done|done|lia].
  - cbn [merge_passes]. destruct (Nat.ltb_spec bs (length X)).
    + destruct (merge_pairs_spec bs (length X) Hbs X M0 [] Hb ltac:(lia)) as (M & HbM & Hrun).
      simpl in Hrun. rewrite Hrun. apply IH; [lia|done|].
      rewrite Nat.pow_succ_r' in Hk. lia.
    + apply (blocks_short bs); [done|done|lia].
Qed.

Lemma stable_spec l : stable_sorted key l (stable less l).
Proof.
  unfold stable.
  destruct (sort_blocks_spec 20 (length l) ltac:(lia) l [] ltac:(lia)) as (M0 & Hb & Hrun).
  simpl in Hrun. rewrite Hrun.
  apply merge_passes_spec; [lia|done|].
  pose proof (Nat.pow_gt_lin_r 2 (length l) ltac:(lia)). lia.
Qed.

End SortFacts.

Lemma less_len_key (l : list (list nat)) (i j : nat) (x y : list nat) :
  j < i -> l !! i = Some x -> l !! j = Some y ->
  less_len l i j = (length x <? length y).
Proof.
  intros Hji Hi Hj. unfold less_len. rewrite Hi, Hj. simpl.
  destruct (Nat.eqb_spec (length x) (length y)) as [->|Hne]; [|done].
  rewrite Nat.ltb_irrefl. apply Nat.ltb_ge. lia.
Qed.


Section SortClaims.

Lemma FindPaths_sorts (MaxPaths : Z) (fuel : nat) (g : Graph) (all : list (list nat)) :
  allPaths fuel g MaxPaths = Done all ->
  FindPaths MaxPaths fuel g = bestDisjointPaths fuel (stable less_len all) (Ants g).
Proof. intros H. unfold FindPaths. by rewrite H. Qed.

(** C6: the list that [FindPaths] hands to the selector is the stably
    sorted enumeration: a permutation of the enumerated routes,
    non-decreasing in length (hence in hop count), in which the routes of
    any one length keep the order of their discovery. *)
Theorem FindPaths_sorts_stably (all : list (list nat)) :
  stable less_len all ≡ₚ all /\
  (forall i j p q, i <= j -> stable less_len all !! i = Some p ->
                   stable less_len all !! j = Some q ->
                   length p <= length q /\ (hops p <= hops q)%Z) /\
  (forall n, filter (fun p => length p = n) (stable less_len all)
             = filter (fun p => length p = n) all) /\
  (forall MaxPaths fuel g, allPaths fuel g MaxPaths = Done all ->
     FindPaths MaxPaths fuel g
     = bestDisjointPaths fuel (stable less_len all) (Ants g)).
Proof.
  destruct (stable_spec length less_len less_len_key all) as (Hs & Hp & Hk).
  split; [done|]. split; [|split; [exact Hk|]].
  - intros i j p q Hij Hi Hj.
    pose proof (sorted_lookup length _ i j p q Hs Hij Hi Hj). unfold hops. lia.
  - intros MaxPaths fuel g. apply FindPaths_sorts.
Qed.

End SortClaims.

(** ** Further properties of [countTurns] *)

Section CountTurnsMore.
Local Open Scope Z_scope.
Import GoInt.

Lemma countTurns_from_no_routes (fuel : nat) : forall ants t,
  1 <= ants -> countTurns_from fuel ants [] t = OutOfFuel.
Proof.
  induction fuel as [|fuel IH]; intros ants t Hants; simpl; [done|].
  unfold turn_total. simpl.
  destruct (Z.geb_spec 0 ants); [lia|]. by apply IH.
Qed.

(** More routes give more capacity. *)
Lemma capacity_submseteq T lens lens' :
  lens ⊆+ lens' -> capacity T lens <= capacity T lens'.
Proof.
  induction 1 as [|x l1 l2 _ IH|x y l|x l1 l2 _ IH|l1 l2 l3 _ IH1 _ IH2];
    simpl; try lia.
Qed.

Lemma capacity_perm T lens lens' :
  lens ≡ₚ lens' -> capacity T lens = capacity T lens'.
Proof.
  intros H.
  pose proof (capacity_submseteq T lens lens' ltac:(by rewrite H)).
  pose proof (capacity_submseteq T lens' lens ltac:(by rewrite H)). lia.
Qed.

Lemma hops_in_range_submseteq lens lens' :
  lens ⊆+ lens' -> hops_in_range lens' -> hops_in_range lens.
Proof.
  intros Hsub [Hall Hlen]. split.
  - apply Forall_forall. intros l Hl. rewrite Forall_forall in Hall.
    apply Hall. by apply (elem_of_submseteq lens).
  - apply submseteq_length in Hsub. lia.
Qed.

Lemma min_element_spec (lens : list Z) :
  lens <> [] ->
  min_element lens ∈ lens /\ Forall (fun l => min_element lens <= l) lens.
Proof.
  destruct lens as [|l0 lens]; [done|]. intros _. unfold min_element.
  revert l0. induction lens as [|l lens IH]; intros l0; simpl.
  - split; [left|]. apply Forall_singleton. lia.
  - destruct (IH (Z.min l0 l)) as [Hin Hle]. split.
    + apply elem_of_cons in Hin as [Heq|Hin].
      * rewrite Heq. destruct (Z.min_spec l0 l) as [[_ ->]|[_ ->]];
          [left|right; left].
      * right; by right.
    + apply Forall_cons in Hle as [H0 Hle].
      repeat apply Forall_cons_2; try lia. done.
Qed.

Lemma capacity_single T l : capacity T [l] = Z.max 0 (T - l + 1).
Proof. simpl. lia. Qed.

Lemma capacity_le_turns T lens :
  0 <= T -> Forall (fun l => 1 <= l) lens ->
  capacity T lens <= T * Z.of_nat (length lens).
Proof.
  intros HT. induction 1 as [|l lens Hl _ IH]; simpl length; simpl capacity; lia.
Qed.

(** A turn with capacity for an ant is no earlier than the shortest
    route is long. *)
Lemma capacity_pos_min T lens :
  0 < capacity T lens -> exists l, l ∈ lens /\ l <= T.
Proof.
  induction lens as [|l lens IH]; simpl; [lia|]. intros H.
  destruct (Z_lt_le_dec 0 (capacity T lens)) as [Hc|Hc].
  - destruct (IH Hc) as (l' & Hin & Hle). exists l'. split; [by right|done].
  - exists l. split; [left|lia].
Qed.

(** X1: with at least one ant and no route, [countTurns] never returns:
    [total] stays 0 and the loop has no other exit. *)
Theorem countTurns_no_routes_never_returns (ants : Z) :
  1 <= ants -> forall fuel, countTurns fuel ants [] = OutOfFuel.
Proof. intros Hants fuel. by apply countTurns_from_no_routes. Qed.

Lemma countTurns_no_routes_never_returns_witness :
  countTurns 1000 1 [] = OutOfFuel.
Proof. apply (countTurns_no_routes_never_returns 1). lia. Defined.

(** X2: with no ant to move (a zero or negative count), [countTurns]
    returns 1 on the first pass of its loop, whatever the routes, an
    empty list included. *)
Theorem countTurns_no_ants (ants : Z) (lens : list Z) :
  ants <= 0 -> hops_in_range lens ->
  forall fuel, countTurns (S fuel) ants lens = Done 1.
Proof.
  intros Hants [Hall Hlen] fuel. unfold countTurns. simpl.
  assert (Hnn : Forall (fun l => 0 <= l) lens)
    by (eapply Forall_impl; [exact Hall|]; simpl; lia).
  pose proof (capacity_one lens Hnn) as Hone.
  rewrite turn_total_capacity; try done; unfold int_max; try lia.
  pose proof (capacity_nonneg 1 lens).
  destruct (Z.geb_spec (capacity 1 lens) ants); [done|lia].
Qed.

Lemma countTurns_no_ants_witness : countTurns 1 (-3) [2; 5] = Done 1.
Proof.
  apply (countTurns_no_ants (-3) [2; 5]); [lia|].
  split; [|simpl; lia]. repeat constructor; lia.
Defined.

Lemma capacity_replicate T (k : nat) l :
  capacity T (replicate k l) = Z.of_nat k * Z.max 0 (T - l + 1).
Proof. induction k as [|k IH]; simpl capacity; [lia|]. rewrite IH. lia. Qed.

(** X3: [k] routes of [l] hops each carry [ants] ants in
    [l + ceil(ants / k) - 1] turns (one turn at least); a single route of
    [l] hops needs [l + ants - 1]. *)
Theorem countTurns_equal_routes (ants l : Z) (k : nat) :
  1 <= ants < 2 ^ 62 -> 0 <= l < 2 ^ 62 -> (1 <= k)%nat -> Z.of_nat k < 2 ^ 61 ->
  returns (fun fuel => countTurns fuel ants (replicate k l))
          (Z.max 1 (l + (ants + Z.of_nat k - 1) / Z.of_nat k - 1)).
Proof.
  intros Hants Hl Hk Hk2.
  set (c := (ants + Z.of_nat k - 1) / Z.of_nat k).
  assert (Hc1 : ants <= Z.of_nat k * c).
  { unfold c. pose proof (Z.mul_div_le (ants + Z.of_nat k - 1) (Z.of_nat k) ltac:(lia)).
    pose proof (Z.mod_pos_bound (ants + Z.of_nat k - 1) (Z.of_nat k) ltac:(lia)).
    pose proof (Z.div_mod (ants + Z.of_nat k - 1) (Z.of_nat k) ltac:(lia)). lia. }
  assert (Hc2 : forall x, ants <= Z.of_nat k * x -> c <= x).
  { intros x Hx. unfold c.
    apply Z.lt_succ_r. apply Z.div_lt_upper_bound; lia. }
  destruct (countTurns_returns ants (replicate k l)) as (T & Hleast & Hrun).
  - unfold ants_in_range, int_min. lia.
  - split; [|rewrite length_replicate; lia].
    apply Forall_forall. intros x [-> _]%elem_of_replicate. done.
  - destruct k; [lia|done].
  - replace (Z.max 1 (l + c - 1)) with T; [done|].
    apply (least_turns_unique ants (replicate k l)); [done|].
    split; [lia|]. split.
    + rewrite capacity_replicate.
      assert (c <= Z.max 0 (Z.max 1 (l + c - 1) - l + 1)) by lia. nia.
    + intros T' HT'. rewrite capacity_replicate. intros Hcap.
      assert (0 < Z.max 0 (T' - l + 1)) by nia.
      specialize (Hc2 (T' - l + 1)).
      assert (ants <= Z.of_nat k * (T' - l + 1))
        by (replace (T' - l + 1) with (Z.max 0 (T' - l + 1)) by lia; done).
      lia.
Qed.

Lemma countTurns_equal_routes_witness :
  returns (fun fuel => countTurns fuel 5 (replicate 2 3%Z))
          (Z.max 1 (3 + (5 + Z.of_nat 2 - 1) / Z.of_nat 2 - 1)).
Proof. apply (countTurns_equal_routes 5 3 2); lia. Defined.

(** On a reordered list [countTurns] returns what it returned. *)
Lemma countTurns_perm (ants : Z) (lens lens' : list Z) (T : Z) :
  ants_in_range ants -> hops_in_range lens -> lens ≡ₚ lens' ->
  returns (fun fuel => countTurns fuel ants lens) T ->
  returns (fun fuel => countTurns fuel ants lens') T.
Proof.
  intros HA Hl Hp Hrun.
  destruct (decide (lens = [])) as [->|Hne].
  { apply Permutation_nil_l in Hp. by subst lens'. }
  assert (Hne' : lens' <> []) by (intros ->; by apply Permutation_nil_r in Hp).
  assert (Hl' : hops_in_range lens').
  { apply (hops_in_range_submseteq lens' lens); [by rewrite Hp|done]. }
  destruct (countTurns_returns ants lens HA Hl Hne) as (T1 & Hleast1 & Hrun1).
  destruct (countTurns_returns ants lens' HA Hl' Hne') as (T2 & Hleast2 & Hrun2).
  rewrite (returns_inj _ _ _ Hrun Hrun1).
  replace T1 with T2; [done|]. symmetry.
  apply (least_turns_unique ants lens); [done|].
  destruct Hleast2 as (H1 & H2 & H3). split; [done|].
  split; [by rewrite (capacity_perm T2 lens lens')|].
  intros T' HT'. rewrite (capacity_perm T' lens lens') by done. by apply H3.
Qed.

(** X4: the result of [countTurns] does not depend on the order of the
    hop counts: on a reordered list it returns the same turn count, and
    returns exactly when it did. *)
Theorem countTurns_permutation (ants : Z) (lens lens' : list Z) :
  ants_in_range ants -> hops_in_range lens -> lens ≡ₚ lens' ->
  (forall T, returns (fun fuel => countTurns fuel ants lens) T <->
             returns (fun fuel => countTurns fuel ants lens') T) /\
  (lens <> [] ->
   exists T, returns (fun fuel => countTurns fuel ants lens) T /\
             returns (fun fuel => countTurns fuel ants lens') T).
Proof.
  intros HA Hl Hp.
  assert (Hl' : hops_in_range lens').
  { apply (hops_in_range_submseteq lens' lens); [by rewrite Hp|done]. }
  split.
  - intros T. split; apply countTurns_perm; auto. by symmetry.
  - intros Hne.
    destruct (countTurns_returns ants lens HA Hl Hne) as (T & _ & Hrun).
    exists T. split; [done|]. by apply (countTurns_perm ants lens).
Qed.

Lemma countTurns_permutation_witness :
  (forall T, returns (fun fuel => countTurns fuel 5 [2; 3]) T <->
             returns (fun fuel => countTurns fuel 5 [3; 2]) T) /\
  ([2; 3] <> [] ->
   exists T, returns (fun fuel => countTurns fuel 5 [2; 3]) T /\
             returns (fun fuel => countTurns fuel 5 [3; 2]) T).
Proof.
  apply (countTurns_permutation 5 [2; 3] [3; 2]).
  - unfold ants_in_range, int_min. lia.
  - split; [|simpl; lia]. repeat constructor; lia.
  - apply perm_swap.
Defined.

(** X5: more routes never need more turns: when [lens'] holds the hop
    counts of [lens] and possibly others, [countTurns] on [lens'] returns
    at most what it returns on [lens]. *)
Theorem countTurns_more_routes (ants : Z) (lens lens' : list Z) :
  ants_in_range ants -> hops_in_range lens' -> lens <> [] -> lens ⊆+ lens' ->
  exists T T',
    returns (fun fuel => countTurns fuel ants lens) T /\
    returns (fun fuel => countTurns fuel ants lens') T' /\
    T' <= T.
Proof.
  intros HA Hl' Hne Hsub.
  assert (Hne' : lens' <> []).
  { intros ->. by apply submseteq_nil_r in Hsub. }
  pose proof (hops_in_range_submseteq lens lens' Hsub Hl') as Hl.
  destruct (countTurns_returns ants lens HA Hl Hne) as (T & (H1 & H2 & _) & Hrun).
  destruct (countTurns_returns ants lens' HA Hl' Hne') as (T' & (_ & _ & H3') & Hrun').
  exists T, T'. split; [done|]. split; [done|].
  apply H3'; [done|]. pose proof (capacity_submseteq T lens lens' Hsub). lia.
Qed.

Lemma countTurns_more_routes_witness :
  exists T T',
    returns (fun fuel => countTurns fuel 5 [3]) T /\
    returns (fun fuel => countTurns fuel 5 [2; 3]) T' /\
    T' <= T.
Proof.
  apply (countTurns_more_routes 5 [3] [2; 3]).
  - unfold ants_in_range, int_min. lia.
  - split; [|simpl; lia]. repeat constructor; lia.
  - done.
  - apply submseteq_cons, reflexivity.
Defined.

(** X6: the turn count lies between the hop count of the shortest route
    and what that route alone would need, [min + ants - 1]; and when every
    route has a hop at least, the routes carry at most one ant each per
    turn: [ants <= T * len(lens)]. *)
Theorem countTurns_bounds (ants : Z) (lens : list Z) :
  1 <= ants < 2 ^ 62 -> hops_in_range lens -> lens <> [] ->
  exists T,
    returns (fun fuel => countTurns fuel ants lens) T /\
    Z.max 1 (min_element lens) <= T <= Z.max 1 (min_element lens + ants - 1) /\
    (Forall (fun l => 1 <= l) lens -> ants <= T * Z.of_nat (length lens)).
Proof.
  intros Hants Hl Hne.
  destruct (countTurns_returns ants lens) as (T & (H1 & H2 & H3) & Hrun); try done.
  { unfold ants_in_range, int_min. lia. }
  destruct (min_element_spec lens Hne) as [Hin Hmin].
  exists T. split; [done|]. split; [split|].
  - destruct (capacity_pos_min T lens ltac:(lia)) as (l & Hl1 & Hl2).
    rewrite Forall_forall in Hmin. specialize (Hmin l Hl1). lia.
  - apply H3; [lia|].
    destruct Hl as [Hall _]. rewrite Forall_forall in Hall.
    specialize (Hall _ Hin).
    destruct (Z_le_gt_dec 1 (min_element lens + ants - 1)) as [Hc|Hc].
    + replace (Z.max 1 (min_element lens + ants - 1))
        with (min_element lens + ants - 1 + 1 - 1) by lia.
      replace (min_element lens + ants - 1 + 1 - 1)
        with (min_element lens + (ants - 1)) by lia.
      pose proof (capacity_submseteq (min_element lens + (ants - 1))
                    [min_element lens] lens) as Hs.
      rewrite capacity_single in Hs.
      assert ([min_element lens] ⊆+ lens) as Hsub.
      { apply singleton_submseteq_l. done. }
      specialize (Hs Hsub). lia.
    + replace (Z.max 1 (min_element lens + ants - 1)) with 1 by lia.
      pose proof (capacity_submseteq 1 [min_element lens] lens) as Hs.
      rewrite capacity_single in Hs.
      assert ([min_element lens] ⊆+ lens) as Hsub.
      { apply singleton_submseteq_l. done. }
      specialize (Hs Hsub). lia.
  - intros Hpos. pose proof (capacity_le_turns T lens ltac:(lia) Hpos). lia.
Qed.

Lemma countTurns_bounds_witness :
  exists T,
    returns (fun fuel => countTurns fuel 5 [2; 3]) T /\
    Z.max 1 (min_element [2; 3]) <= T <= Z.max 1 (min_element [2; 3] + 5 - 1) /\
    (Forall (fun l => 1 <= l) [2; 3] -> 5 <= T * Z.of_nat (length [2; 3])).
Proof.
  apply (countTurns_bounds 5 [2; 3]); [lia| |done].
  split; [|simpl; lia]. repeat constructor; lia.
Defined.



End CountTurnsMore.

(** ** Further properties of [allPaths] *)

Section AllPathsMore.

Lemma dfs_order_prefix (g : Graph) (f : nat) : forall (p : list nat) (r : nat) (w : list nat),
  w ∈ dfs_order f g p r -> exists q, w = p ++ r :: q.
Proof.
  induction f as [|f IH]; intros p r w Hin; simpl in Hin.
  - by apply elem_of_nil in Hin.
  - destruct (decide (r = End g)).
    + apply list_elem_of_singleton in Hin as ->. by exists [].
    + apply elem_of_flat_map in Hin as (nb & _ & Hin).
      destruct (decide (nb ∈ p ++ [r])); [by apply elem_of_nil in Hin|].
      destruct (IH _ _ _ Hin) as (q & ->). exists (nb :: q). by rewrite <- app_assoc.
Qed.

Lemma NoDup_flat_map {A B : Type} (f : A -> list B) (l : list A) :
  NoDup l -> (forall x, x ∈ l -> NoDup (f x)) ->
  (forall x1 x2 y, x1 ∈ l -> x2 ∈ l -> y ∈ f x1 -> y ∈ f x2 -> x1 = x2) ->
  NoDup (flat_map f l).
Proof.
  induction 1 as [|a l Ha Hl IH]; intros Hf Hinj; simpl; [apply NoDup_nil_2|].
  apply NoDup_app. split; [apply Hf; left|]. split.
  - intros y Hy (x & Hx & Hyx)%elem_of_flat_map.
    assert (a = x) as -> by (apply (Hinj a x y); [left|by right|done|done]).
    done.
  - apply IH; [intros; apply Hf; by right|].
    intros x1 x2 y H1 H2. apply Hinj; by right.
Qed.

(** When no room lists a link twice, no route is listed twice. *)
Lemma dfs_order_NoDup (g : Graph) (f : nat) : forall (p : list nat) (r : nat),
  (forall x, NoDup (Links g x)) -> NoDup (dfs_order f g p r).
Proof.
  induction f as [|f IH]; intros p r Hlinks; simpl; [apply NoDup_nil_2|].
  destruct (decide (r = End g)); [apply NoDup_singleton|].
  apply NoDup_flat_map; [apply Hlinks| |].
  - intros nb _. destruct (decide (nb ∈ p ++ [r])); [apply NoDup_nil_2|by apply IH].
  - intros nb1 nb2 w _ _ H1 H2.
    destruct (decide (nb1 ∈ p ++ [r])); [by apply elem_of_nil in H1|].
    destruct (decide (nb2 ∈ p ++ [r])); [by apply elem_of_nil in H2|].
    apply dfs_order_prefix in H1 as (q1 & ->).
    apply dfs_order_prefix in H2 as (q2 & Heq).
    apply app_inv_head in Heq. congruence.
Qed.

Lemma diamond_links (r : nat) : NoDup (Links diamond r).
Proof.
  assert (H : map_Forall (fun _ l => NoDup l) (Rooms diamond))
    by (apply (bool_decide_unpack _); vm_compute; exact I).
  unfold Links. destruct (Rooms diamond !! r) as [l|] eqn:E; simpl.
  - apply (H r l E).
  - apply NoDup_nil_2.
Qed.

(** X8: when no room lists the same link twice, [allPaths] returns no
    route twice. *)
Theorem allPaths_no_route_twice (g : Graph) (limit : Z) :
  (forall r, NoDup (Links g r)) ->
  exists rs, returns (fun fuel => allPaths fuel g limit) rs /\ NoDup rs.
Proof.
  intros Hlinks. eexists. split; [apply allPaths_returns|].
  eapply sublist_NoDup; [|apply sublist_take]. by apply dfs_order_NoDup.
Qed.

Lemma allPaths_no_route_twice_witness :
  exists rs, returns (fun fuel => allPaths fuel diamond 5) rs /\ NoDup rs.
Proof. apply (allPaths_no_route_twice diamond 5), diamond_links. Defined.

(** X9: raising the cap only appends routes: the routes returned under
    [limit] are the first of those returned under a larger [limit']. *)
Theorem allPaths_cap_prefix (g : Graph) (limit limit' : Z) :
  (limit <= limit')%Z ->
  exists rs rs',
    returns (fun fuel => allPaths fuel g limit) rs /\
    returns (fun fuel => allPaths fuel g limit') rs' /\
    rs `prefix_of` rs'.
Proof.
  intros Hle. eexists _, _. split; [apply allPaths_returns|].
  split; [apply allPaths_returns|].
  replace (Z.to_nat limit) with (Z.to_nat limit `min` Z.to_nat limit') by lia.
  rewrite <- take_take. apply prefix_take.
Qed.

Lemma allPaths_cap_prefix_witness :
  exists rs rs',
    returns (fun fuel => allPaths fuel diamond 1) rs /\
    returns (fun fuel => allPaths fuel diamond 5) rs' /\
    rs `prefix_of` rs'.
Proof. apply (allPaths_cap_prefix diamond 1 5). lia. Defined.

(** X10: a call of [dfs] on a room off the current path returns with
    [path] and [visited] as it found them, having only appended to
    [res]. *)
Theorem dfs_backtracks (g : Graph) (limit : Z) (fuel : nat) (r : nat)
    (st : dfs_state) :
  dfs_inv g limit st -> r ∉ path st ->
  size (Rooms g) < fuel + length (path st) ->
  exists st',
    dfs fuel g limit r st = Done st' /\
    path st' = path st /\
    (forall x, index (visited st') x = index (visited st) x) /\
    res st `prefix_of` res st' /\
    dfs_inv g limit st'.
Proof.
  intros Hinv Hr Hfuel.
  destruct (dfs_runs g limit fuel r st Hinv Hr Hfuel) as (st' & Hrun & Hres & Hpath & Hvis).
  exists st'. split; [done|]. split; [done|]. split; [done|].
  split; [|by apply (dfs_Done_inv g limit fuel r st)].
  rewrite Hres. destruct Hinv as (_ & _ & _ & Hlen).
  rewrite take_app_ge by lia. by apply prefix_app_r.
Qed.

Lemma dfs_backtracks_witness :
  exists st',
    dfs 10 diamond 5 0 {| res := []; path := []; visited := ∅ |} = Done st' /\
    path st' = [] /\
    (forall x, index (visited st') x = index (∅ : gmap nat bool) x) /\
    [] `prefix_of` res st' /\
    dfs_inv diamond 5 st'.
Proof.
  apply (dfs_backtracks diamond 5 10 0 {| res := []; path := []; visited := ∅ |}).
  - apply dfs_inv_init.
  - simpl. apply not_elem_of_nil.
  - apply (bool_decide_unpack _). vm_compute. exact I.
Defined.

End AllPathsMore.

(** ** Further properties of [bestDisjointPaths] *)

Section SelectorMore.

(** [best] is always a subsequence of the routes decided so far. *)
Lemma rec_sublist (fuel : nat) (ants : Z) (rest : list (list nat)) :
  forall (pre : list (list nat)) (i : nat) (cur : list (list nat))
         (idxs : list nat) (used : gmap nat bool) (s : best_state) r,
    rec fuel ants rest i cur idxs used s = Done r ->
    cur `sublist_of` pre -> best s `sublist_of` pre ++ rest ->
    best r.2 `sublist_of` pre ++ rest.
Proof.
  induction rest as [|p rest IH]; intros pre i cur idxs used s r Hrun Hcur Hbest.
  - simpl in Hrun. apply bind_Done in Hrun as (s' & Hc & [= <-]). simpl.
    apply consider_best in Hc as [->|(_ & t & _ & _ & ->)]; [done|].
    simpl. by apply sublist_inserts_r.
  - simpl in Hrun.
    apply bind_Done in Hrun as (r1 & Hskip & Hrun).
    apply bind_Done in Hrun as (mid & Hmid & Hrun).
    replace (pre ++ p :: rest) with ((pre ++ [p]) ++ rest) in *
      by (by rewrite <- app_assoc).
    pose proof (IH (pre ++ [p]) _ _ _ _ _ _ Hskip
                  (sublist_inserts_r [p] _ _ Hcur) Hbest) as H1.
    destruct (valid r1.1 mid); [|by injection Hrun as <-].
    apply bind_Done in Hrun as (r2 & Htake & [= <-]). simpl.
    apply (IH (pre ++ [p]) _ _ _ _ _ _ Htake); [|done].
    by apply sublist_app.
Qed.

(** X11: the routes returned by [bestDisjointPaths] are a subsequence
    of its input: each is one of the given routes, and they come in the
    order of the input. *)
Theorem bestDisjointPaths_subsequence (fuel : nat) (all : list (list nat))
    (ants : Z) (rs : list (list nat)) :
  bestDisjointPaths fuel all ants = Done rs -> rs `sublist_of` all.
Proof.
  unfold bestDisjointPaths. intros (r & Hrun & [= <-])%bind_Done.
  apply (rec_sublist _ _ _ [] _ _ _ _ _ _ Hrun); [done|]. apply sublist_nil_l.
Qed.

Lemma bestDisjointPaths_subsequence_witness :
  [[0; 1; 3]; [0; 2; 3]] `sublist_of` [[0; 1; 3]; [0; 2; 3]].
Proof.
  apply (bestDisjointPaths_subsequence 10 [[0; 1; 3]; [0; 2; 3]] 4).
  vm_compute. reflexivity.
Defined.

(** A route of fewer than two rooms keeps [rec] from returning. *)
Lemma rec_short_route (fuel : nat) (ants : Z) (rest : list (list nat)) :
  forall (i : nat) (cur : list (list nat)) (idxs : list nat)
         (used : gmap nat bool) (s : best_state) r,
    Exists (fun p => length p < 2) rest ->
    rec fuel ants rest i cur idxs used s <> Done r.
Proof.
  induction rest as [|p rest IH]; intros i cur idxs used s r Hex Hrun.
  - by apply Exists_nil in Hex.
  - simpl in Hrun.
    apply bind_Done in Hrun as (r1 & Hskip & Hrun).
    apply bind_Done in Hrun as (mid & Hmid & Hrun).
    apply Exists_cons in Hex as [Hp|Hex].
    + unfold interior in Hmid. case_decide; [lia|done].
    + by apply IH in Hskip.
Qed.

(** In range, and with two rooms or more in every route, [rec] returns
    from the empty selection. *)
Lemma rec_runs (fuel : nat) (ants : Z) (rest : list (list nat)) (i : nat)
    (used : gmap nat bool) (s : best_state) :
  ants_in_range ants -> paths_in_range rest -> used_inv used [] ->
  Z.to_nat GoInt.int_max <= fuel ->
  exists r, rec fuel ants rest i [] [] used s = Done r.
Proof.
  intros HA Hall Hused Hfuel.
  assert (Hlen2 : Forall (fun p : list nat => 2 <= length p) rest).
  { eapply Forall_impl; [exact (proj1 Hall)|]. by intros p [? _]. }
  pose proof (rec_consider_all fuel ants rest i [] [] used s Hlen2 Hused) as Hrec.
  destruct (consider_all_total fuel ants (combos rest i [] [])) with (s := s)
    as [s' Hs'].
  { intros [c ix] HY Hne. apply in_combos in HY as (d & _ & -> & _ & _).
    simpl in *. destruct (chosen_turns rest ants d HA Hall Hne) as (T & _ & _ & Hrun).
    exists T. by apply Hrun. }
  rewrite Hs' in Hrec.
  destruct (rec fuel ants rest i [] [] used s) as [r| |]; simpl in *; try done.
  by exists r.
Qed.

Lemma rec_short_route_panics (fuel : nat) (ants : Z) (rest : list (list nat)) :
  ants_in_range ants ->
  Forall (fun q => (Z.of_nat (length q) <= 2 ^ 62)%Z) rest ->
  (Z.of_nat (length rest) < 2 ^ 61)%Z ->
  Z.to_nat GoInt.int_max <= fuel ->
  Exists (fun p => length p < 2) rest ->
  forall (i : nat) (used : gmap nat bool) (s : best_state),
    used_inv used [] -> rec fuel ants rest i [] [] used s = Panic.
Proof.
  intros HA Hall Hlen Hfuel.
  induction rest as [|p rest IH]; intros Hex i used s Hused.
  - by apply Exists_nil in Hex.
  - apply Forall_cons in Hall as [Hp Hall]. simpl in Hlen. simpl.
    destruct (decide (Exists (fun p => length p < 2) rest)) as [Hrest|Hrest].
    + rewrite IH; auto. lia.
    + apply not_Exists_Forall in Hrest; [|intros q; apply _].
      destruct (rec_runs fuel ants rest (S i) used s) as [r1 ->]; auto.
      { split; [|lia]. apply Forall_forall. intros q Hq.
        rewrite Forall_forall in Hrest, Hall.
        specialize (Hrest q Hq). specialize (Hall q Hq). simpl in Hrest. lia. }
      simpl. apply Exists_cons in Hex as [Hshort|Hex].
      * unfold interior. by rewrite decide_False by lia.
      * apply Exists_exists in Hex as (q & Hq & Hshort).
        rewrite Forall_forall in Hrest. specialize (Hrest q Hq). simpl in Hrest. lia.
Qed.

(** X12: given a route of fewer than two rooms, [bestDisjointPaths]
    never returns a route set; within the 64-bit range it panics, on the
    slice [p[1 : len(p)-1]] of such a route. *)
Theorem bestDisjointPaths_short_route (all : list (list nat)) (ants : Z)
    (p : list nat) :
  p ∈ all -> length p < 2 ->
  (forall fuel rs, bestDisjointPaths fuel all ants <> Done rs) /\
  (ants_in_range ants ->
   Forall (fun q => (Z.of_nat (length q) <= 2 ^ 62)%Z) all ->
   (Z.of_nat (length all) < 2 ^ 61)%Z ->
   exists n, forall fuel, n <= fuel -> bestDisjointPaths fuel all ants = Panic).
Proof.
  intros Hin Hshort.
  assert (Hex : Exists (fun p => length p < 2) all)
    by (apply Exists_exists; eauto).
  split.
  - intros fuel rs. unfold bestDisjointPaths.
    intros (r & Hrun & _)%bind_Done. by apply rec_short_route in Hrun.
  - intros HA Hall Hlen. exists (Z.to_nat GoInt.int_max). intros fuel Hfuel.
    unfold bestDisjointPaths.
    rewrite rec_short_route_panics; auto using used_inv_empty.
Qed.

Lemma bestDisjointPaths_short_route_witness :
  (forall fuel rs, bestDisjointPaths fuel [[0; 1]; [0]] 2 <> Done rs) /\
  (ants_in_range 2 ->
   Forall (fun q => (Z.of_nat (length q) <= 2 ^ 62)%Z) [[0; 1]; [0]] ->
   (Z.of_nat (length [[0; 1]; [0]]) < 2 ^ 61)%Z ->
   exists n, forall fuel, n <= fuel ->
             bestDisjointPaths fuel [[0; 1]; [0]] 2 = Panic).
Proof.
  apply (bestDisjointPaths_short_route [[0; 1]; [0]] 2 [0]).
  - right; left.
  - simpl; lia.
Defined.

(** Any one route of the list is a combination by itself. *)
Lemma single_route_combination (all : list (list nat)) :
  forall (k : nat) (q : list nat), all !! k = Some q ->
  exists d, combination all d /\ chosen d all = [q].
Proof.
  induction all as [|p all IH]; intros k q Hk; [done|].
  destruct k as [|k].
  - injection Hk as ->. exists (true :: replicate (length all) false).
    destruct (first_route_combination q all) as (H1 & H2 & _). done.
  - destruct (IH k q Hk) as (d & (Hlen & Hne & Hpd) & Hsel).
    exists (false :: d). split; [|done].
    split; [simpl; by rewrite Hlen|]. by split.
Qed.

(** X13: the selection is never slower than any single route of the
    list used alone: its turn count is at most [hops q + ants - 1] for
    every route [q] given. *)
Theorem bestDisjointPaths_beats_single_route (all : list (list nat)) (ants : Z) :
  (1 <= ants < 2 ^ 62)%Z -> paths_in_range all -> all <> [] ->
  exists rs T,
    returns (fun fuel => bestDisjointPaths fuel all ants) rs /\
    turns_of ants rs T /\
    forall q, q ∈ all -> (T <= hops q + ants - 1)%Z.
Proof.
  intros Hants Hall Hne.
  assert (HA : ants_in_range ants) by (unfold ants_in_range, GoInt.int_min; lia).
  destruct (bestDisjointPaths_least all ants HA Hall)
    as (rs & Hrun & [[-> _]|(d & T & Hcomb & -> & HT & Hleast & Hmin)]); [done|].
  exists (chosen d all), T. split; [done|]. split; [done|].
  intros q (k & Hk)%list_elem_of_lookup.
  destruct (single_route_combination all k q Hk) as (d' & Hc' & Hsel).
  destruct (chosen_turns all ants d' HA Hall (proj1 (proj2 Hc')))
    as (T' & (H1 & H2 & H3) & _ & Hrun').
  assert (Ht' : turns_of ants (chosen d' all) T') by (by eexists).
  specialize (Hmin d' T' Hc' Ht').
  assert (T <= T')%Z by (destruct Hmin as [[?|[? _]]|[? _]]; lia).
  rewrite Hsel in H3. simpl in H3.
  destruct Hall as [Hlens _]. rewrite Forall_forall in Hlens.
  assert (Hq : q ∈ all) by (by apply list_elem_of_lookup; exists k).
  specialize (Hlens q Hq). unfold hops in *.
  specialize (H3 (Z.of_nat (length q) - 1 + ants - 1)%Z). lia.
Qed.

Lemma bestDisjointPaths_beats_single_route_witness :
  exists rs T,
    returns (fun fuel => bestDisjointPaths fuel [[0; 1; 3]; [0; 2; 3]] 4) rs /\
    turns_of 4 rs T /\
    forall q, q ∈ [[0; 1; 3]; [0; 2; 3]] -> (T <= hops q + 4 - 1)%Z.
Proof.
  apply (bestDisjointPaths_beats_single_route [[0; 1; 3]; [0; 2; 3]] 4).
  - lia.
  - split; [|simpl; lia]. repeat constructor; simpl; lia.
  - done.
Defined.

End SelectorMore.

Section ThirdPriority.

(** When the incumbent was reached before the candidate and the index
    loop did not prefer the candidate, the candidate has no fewer
    routes. *)
Lemma smaller_index_length (ix : list nat) : forall iy : list nat,
  visited_before ix iy ->
  negb (smaller_index iy ix) && (length iy <? length ix) = false.
Proof.
  induction ix as [|x ix IH]; intros [|y iy]; simpl; try done.
  intros [Hlt|[-> Hvb]].
  - by destruct (Nat.ltb_spec y x); [|lia].
  - destruct (Nat.ltb_spec y y); [lia|].
    replace (S (length iy) <? S (length ix)) with (length iy <? length ix)
      by (destruct (Nat.ltb_spec (length iy) (length ix));
          destruct (Nat.ltb_spec (S (length iy)) (S (length ix))); auto; lia).
    by apply IH.
Qed.

Lemma ForallOrdPairs_app_inv {A : Type} (R : A -> A -> Prop) (l1 l2 : list A) :
  ForallOrdPairs R (l1 ++ l2) ->
  ForallOrdPairs R l1 /\ (forall x y, x ∈ l1 -> y ∈ l2 -> R x y).
Proof.
  induction l1 as [|a l1 IH]; simpl; intros H.
  - split; [constructor|]. intros x y Hx. by apply elem_of_nil in Hx.
  - inversion H as [|? ? Ha Hrest]; subst. destruct (IH Hrest) as [H1 H2].
    rewrite Forall_app in Ha. destruct Ha as [Ha1 Ha2]. split.
    + by constructor.
    + intros x y [->|Hx]%elem_of_cons Hy; [|by apply H2].
      rewrite Forall_forall in Ha2. by apply Ha2.
Qed.

(** X22: the third priority of [rec] (fewer routes on equal indexes)
    never decides.  [rec] reaches its base case on the combinations in
    the order of [combos]; whenever it does so with a non-empty
    selection, the test [!better && len(idxs) < len(bestIdx)] that follows
    the index loop is false: a selection reached later is never a proper
    prefix of the incumbent, nor larger at the first differing index. *)
Theorem third_priority_never_decides (fuel : nat) (ants : Z)
    (all : list (list nat)) :
  Forall (fun p => 2 <= length p) all ->
  (rec fuel ants all 0 [] [] ∅
       {| bestTurns := GoInt.int_max; best := []; bestIdx := [] |}
     ≫= fun r => Done r.2) =
  consider_all fuel ants (combos all 0 [] [])
    {| bestTurns := GoInt.int_max; best := []; bestIdx := [] |} /\
  forall cs1 c cs2 s,
    combos all 0 [] [] = cs1 ++ c :: cs2 ->
    consider_all fuel ants cs1
      {| bestTurns := GoInt.int_max; best := []; bestIdx := [] |} = Done s ->
    c.1 <> [] ->
    negb (smaller_index c.2 (bestIdx s)) && (length c.2 <? length (bestIdx s))
    = false.
Proof.
  intros Hall. split; [by apply rec_consider_all; [|apply used_inv_empty]|].
  intros cs1 c cs2 s Hcs Hrun Hne.
  pose proof (combos_ordered all 0 [] []) as Hord. rewrite Hcs in Hord.
  apply ForallOrdPairs_app_inv in Hord as [Hord1 Hcross].
  set (init := {| bestTurns := GoInt.int_max; best := []; bestIdx := [] |}) in *.
  destruct (consider_all_min fuel ants cs1 init s Hord1)
    as ([->|(Y & t & HY & _ & _ & ->)] & _); [|done| |].
  - apply Forall_forall. intros [c' ix'] HY HYne. simpl in *.
    assert (Hin : (c', ix') ∈ combos all 0 [] []) by (rewrite Hcs; set_solver).
    apply in_combos_combination in Hin as (d & Hlen & _ & -> & ->).
    pose proof (chosen_idx_length d all 0 Hlen) as Hl.
    destruct (chosen_idx d 0); [|done]. by destruct (chosen d all).
  - simpl. apply andb_false_r.
  - simpl. apply smaller_index_length. apply (Hcross Y c HY). left.
Qed.

Lemma third_priority_never_decides_witness :
  (rec 10 4 [[0; 1; 3]; [0; 2; 3]] 0 [] [] ∅
       {| bestTurns := GoInt.int_max; best := []; bestIdx := [] |}
     ≫= fun r => Done r.2) =
  consider_all 10 4 (combos [[0; 1; 3]; [0; 2; 3]] 0 [] [])
    {| bestTurns := GoInt.int_max; best := []; bestIdx := [] |} /\
  forall cs1 c cs2 s,
    combos [[0; 1; 3]; [0; 2; 3]] 0 [] [] = cs1 ++ c :: cs2 ->
    consider_all 10 4 cs1
      {| bestTurns := GoInt.int_max; best := []; bestIdx := [] |} = Done s ->
    c.1 <> [] ->
    negb (smaller_index c.2 (bestIdx s)) && (length c.2 <? length (bestIdx s))
    = false.
Proof.
  apply (third_priority_never_decides 10 4 [[0; 1; 3]; [0; 2; 3]]).
  repeat constructor; simpl; lia.
Defined.

End ThirdPriority.

Section SelectorAnts.



End SelectorAnts.

(** ** Further properties of [FindPaths] *)

Section EngineMore.

Lemma StronglySorted_sublist {A : Type} (R : A -> A -> Prop) (l k : list A) :
  l `sublist_of` k -> StronglySorted R k -> StronglySorted R l.
Proof.
  induction 1 as [|x l k Hsub IH|x l k Hsub IH]; intros Hs; [done| |].
  - apply StronglySorted_inv in Hs as [Hs Hx].
    apply SSorted_cons; [by apply IH|].
    apply Forall_forall. intros y Hy. rewrite Forall_forall in Hx.
    apply Hx. by apply (elem_of_sublist l).
  - apply StronglySorted_inv in Hs as [Hs _]. by apply IH.
Qed.

(** What [FindPaths] returns is a subsequence of the sorted enumeration,
    with pairwise disjoint interiors. *)
Lemma FindPaths_Done (MaxPaths : Z) (fuel : nat) (g : Graph) (rs : list (list nat)) :
  FindPaths MaxPaths fuel g = Done rs ->
  rs `sublist_of`
     stable less_len (take (Z.to_nat MaxPaths) (routes_in_dfs_order g)) /\
  pairwise_disjoint rs.
Proof.
  unfold FindPaths. intros (all & Hall & Hbest)%bind_Done.
  apply allPaths_Done in Hall as ->. split.
  - unfold bestDisjointPaths in Hbest.
    apply bind_Done in Hbest as (r & Hrun & [= <-]).
    apply (rec_sublist _ _ _ [] _ _ _ _ _ _ Hrun); [done|]. apply sublist_nil_l.
  - by apply bestDisjointPaths_keeps_disjoint in Hbest.
Qed.

Lemma FindPaths_Done_listed (MaxPaths : Z) (fuel : nat) (g : Graph)
    (rs : list (list nat)) (w : list nat) :
  FindPaths MaxPaths fuel g = Done rs -> w ∈ rs ->
  w ∈ take (Z.to_nat MaxPaths) (routes_in_dfs_order g).
Proof.
  intros [Hsub _]%FindPaths_Done Hw.
  apply (elem_of_sublist _ _ _ Hw) in Hsub.
  by rewrite (stable_perm less_len _) in Hsub.
Qed.

(** X14: every route returned by [FindPaths] is a route of the graph: a
    walk along links from [Start] to [End] that visits no room twice. *)
Theorem FindPaths_returns_routes (MaxPaths : Z) (fuel : nat) (g : Graph)
    (rs : list (list nat)) :
  FindPaths MaxPaths fuel g = Done rs -> Forall (route g) rs.
Proof.
  intros Hrun. apply Forall_forall. intros w Hw.
  apply (FindPaths_Done_listed _ _ _ _ _ Hrun) in Hw.
  apply listed_route. by apply (elem_of_sublist _ _ _ Hw), sublist_take.
Qed.

Lemma FindPaths_returns_routes_witness :
  Forall (route diamond) [[0; 1; 3]; [0; 2; 3]].
Proof.
  apply (FindPaths_returns_routes 10 10 diamond). vm_compute. reflexivity.
Defined.

(** X15: [FindPaths] returns its routes by non-decreasing length, and
    at most [MaxPaths] of them. *)
Theorem FindPaths_ordered_and_capped (MaxPaths : Z) (fuel : nat) (g : Graph)
    (rs : list (list nat)) :
  FindPaths MaxPaths fuel g = Done rs ->
  (forall i j p q, i <= j -> rs !! i = Some p -> rs !! j = Some q ->
                   length p <= length q) /\
  (Z.of_nat (length rs) <= Z.max 0 MaxPaths)%Z.
Proof.
  intros [Hsub _]%FindPaths_Done.
  set (all := take (Z.to_nat MaxPaths) (routes_in_dfs_order g)) in *.
  destruct (stable_spec length less_len less_len_key all) as (Hs & Hp & _).
  split.
  - intros i j p q Hij Hi Hj.
    apply (sorted_lookup length rs i j p q); auto.
    by apply (StronglySorted_sublist _ _ _ Hsub).
  - apply sublist_length in Hsub. rewrite (Permutation_length Hp) in Hsub.
    unfold all in Hsub. rewrite length_take in Hsub. lia.
Qed.

Lemma FindPaths_ordered_and_capped_witness :
  (forall i j p q, i <= j -> [[0; 1; 3]; [0; 2; 3]] !! i = Some p ->
                   [[0; 1; 3]; [0; 2; 3]] !! j = Some q ->
                   length p <= length q) /\
  (Z.of_nat (length [[0; 1; 3]; [0; 2; 3]]) <= Z.max 0 10)%Z.
Proof.
  apply (FindPaths_ordered_and_capped 10 10 diamond). vm_compute. reflexivity.
Defined.

(** X16: when [Start] is not connected to [End], or the cap [MaxPaths]
    is not positive, [FindPaths] returns the empty route set, whatever
    the token count. *)
Theorem FindPaths_no_route (MaxPaths : Z) (g : Graph) :
  ~ connected g \/ (MaxPaths <= 0)%Z ->
  returns (fun fuel => FindPaths MaxPaths fuel g) [].
Proof.
  intros Hno. apply FindPaths_returns.
  assert (take (Z.to_nat MaxPaths) (routes_in_dfs_order g) = []) as ->.
  { destruct Hno as [Hnc|Hcap].
    - destruct (routes_in_dfs_order g) as [|w ws] eqn:E; [by rewrite take_nil|].
      exfalso. apply Hnc, (route_connected g w), listed_route. rewrite E. by left.
    - by replace (Z.to_nat MaxPaths) with 0 by lia. }
  by exists 0.
Qed.

Lemma FindPaths_no_route_witness :
  returns (fun fuel => FindPaths 0 fuel diamond) [].
Proof. apply (FindPaths_no_route 0 diamond). right. lia. Defined.

End EngineMore.

Section EngineBounds.

(** Among distinct routes, disjointness by position is disjointness of
    any two different routes. *)
Lemma pairwise_disjoint_NoDup (ps : list (list nat)) :
  NoDup ps ->
  pairwise_disjoint ps <->
  (forall p q, p ∈ ps -> q ∈ ps -> p <> q -> interior_disjoint p q).
Proof.
  intros Hnd. split.
  - intros Hpd p q (i & Hi)%list_elem_of_lookup (j & Hj)%list_elem_of_lookup Hne.
    apply (Hpd i j); auto. intros ->. congruence.
  - intros H i j p q Hij Hi Hj. apply H.
    + apply list_elem_of_lookup. eauto.
    + apply list_elem_of_lookup. eauto.
    + intros ->. apply Hij. by apply (NoDup_lookup ps i j q).
Qed.

(** The second room of a route is linked from [Start]; it is [End] only
    on the direct route, and an interior room otherwise. *)
Lemma route_second (g : Graph) (w : list nat) :
  Start g <> End g -> route g w ->
  exists b q, w = Start g :: b :: q /\ b ∈ Links g (Start g) /\
              ((b = End g /\ q = []) \/ b ∈ inner w).
Proof.
  intros Hne (Hhead & Hlast & Hnd & Hwalk).
  destruct w as [|a [|b q]]; simpl in *; try done.
  { congruence. }
  injection Hhead as ->. destruct Hwalk as [Hb _].
  exists b, q. split; [done|]. split; [done|].
  destruct q as [|c q]; [left; split; [|done]; simpl in Hlast; congruence|].
  right. unfold inner. simpl. left.
Qed.

Lemma FindPaths_Done_NoDup (MaxPaths : Z) (fuel : nat) (g : Graph)
    (rs : list (list nat)) :
  (forall r, NoDup (Links g r)) ->
  FindPaths MaxPaths fuel g = Done rs -> NoDup rs.
Proof.
  intros Hlinks [Hsub _]%FindPaths_Done.
  eapply sublist_NoDup; [|exact Hsub].
  rewrite (stable_perm less_len _).
  eapply sublist_NoDup; [|apply sublist_take]. by apply dfs_order_NoDup.
Qed.

(** X17: between different rooms, and when no room lists a link twice,
    [FindPaths] returns at most as many routes as [Start] has links: the
    routes leave [Start] by different links. *)
Theorem FindPaths_at_most_start_links (MaxPaths : Z) (fuel : nat) (g : Graph)
    (rs : list (list nat)) :
  Start g <> End g -> (forall r, NoDup (Links g r)) ->
  FindPaths MaxPaths fuel g = Done rs ->
  length rs <= length (Links g (Start g)) /\
  NoDup ((fun w => default 0 (w !! 1)) <$> rs).
Proof.
  intros Hne Hlinks Hrun.
  pose proof (FindPaths_Done_NoDup _ _ _ _ Hlinks Hrun) as Hnd.
  pose proof (FindPaths_Done _ _ _ _ Hrun) as [_ Hpd].
  assert (Hroute : forall w, w ∈ rs -> route g w).
  { intros w Hw. apply (FindPaths_Done_listed _ _ _ _ _ Hrun) in Hw.
    apply listed_route. by apply (elem_of_sublist _ _ _ Hw), sublist_take. }
  set (second := fun w : list nat => default 0 (w !! 1)).
  assert (Hnd2 : NoDup (second <$> rs)).
  { apply NoDup_fmap_2_strong; [|done].
    intros p q Hp Hq Heq.
    destruct (decide (p = q)) as [|Hpq]; [done|]. exfalso.
    pose proof (proj1 (pairwise_disjoint_NoDup rs Hnd) Hpd p q Hp Hq Hpq) as Hdis.
    destruct (route_second g p Hne (Hroute p Hp)) as (b & p' & -> & _ & Hb).
    destruct (route_second g q Hne (Hroute q Hq)) as (c & q' & -> & _ & Hc).
    unfold second in Heq. simpl in Heq. subst c.
    destruct Hb as [[-> ->]|Hb], Hc as [[Hc ->]|Hc].
    - done.
    - destruct (Hroute _ Hq) as (_ & Hlast & Hndq & _).
      destruct q' as [|c q']; [done|].
      apply NoDup_cons in Hndq as [_ Hndq]. apply NoDup_cons in Hndq as [Hin _].
      apply Hin. rewrite !last_cons_cons in Hlast.
      by apply last_Some_elem_of.
    - subst b. destruct (Hroute _ Hp) as (_ & Hlast & Hndp & _).
      destruct p' as [|c p']; [done|].
      apply NoDup_cons in Hndp as [_ Hndp]. apply NoDup_cons in Hndp as [Hin _].
      apply Hin. rewrite !last_cons_cons in Hlast.
      by apply last_Some_elem_of.
    - by apply (Hdis b). }
  split; [|done].
  rewrite <- (length_fmap second rs).
  apply submseteq_length, NoDup_submseteq; [done|].
  intros x (w & -> & Hw)%list_elem_of_fmap.
  destruct (route_second g w Hne (Hroute w Hw)) as (b & q & -> & Hb & _). done.
Qed.

Lemma FindPaths_at_most_start_links_witness :
  length [[0; 1; 3]; [0; 2; 3]] <= length (Links diamond (Start diamond)) /\
  NoDup ((fun w => default 0 (w !! 1)) <$> [[0; 1; 3]; [0; 2; 3]]).
Proof.
  apply (FindPaths_at_most_start_links 10 10 diamond).
  - discriminate.
  - apply diamond_links.
  - vm_compute. reflexivity.
Defined.

End EngineBounds.

Section EngineOptimal.

Lemma chosen_filter (P : list nat -> Prop) `{!forall p, Decision (P p)}
    (l : list (list nat)) :
  chosen ((fun p => bool_decide (P p)) <$> l) l = filter P l.
Proof.
  induction l as [|p l IH]; [done|]. rewrite fmap_cons. cbn [chosen].
  rewrite filter_cons, IH. destruct (decide (P p)).
  - by rewrite bool_decide_eq_true_2.
  - by rewrite bool_decide_eq_false_2.
Qed.

(** A set of distinct routes taken from the list is, up to order, a
    selection of the list. *)
Lemma routes_selection (l ps : list (list nat)) :
  NoDup l -> NoDup ps -> (forall p, p ∈ ps -> p ∈ l) ->
  exists d, length d = length l /\ chosen d l ≡ₚ ps.
Proof.
  intros Hl Hps Hsub.
  exists ((fun p => bool_decide (p ∈ ps)) <$> l). split; [by rewrite length_fmap|].
  rewrite chosen_filter. apply NoDup_Permutation; [by apply NoDup_filter|done|].
  intros p. rewrite list_elem_of_filter. naive_solver.
Qed.

Lemma pairwise_disjoint_perm (ps qs : list (list nat)) :
  NoDup ps -> ps ≡ₚ qs -> pairwise_disjoint ps -> pairwise_disjoint qs.
Proof.
  intros Hnd Hp Hpd.
  assert (Hnd' : NoDup qs) by (by rewrite <- Hp).
  apply pairwise_disjoint_NoDup; [done|].
  intros p q Hin1 Hin2. rewrite <- Hp in Hin1, Hin2.
  by apply (proj1 (pairwise_disjoint_NoDup ps Hnd) Hpd).
Qed.

(** No more distinct routes than the enumeration lists. *)
Lemma route_count (g : Graph) (ps : list (list nat)) :
  NoDup ps -> Forall (route g) ps ->
  length ps <= length (routes_in_dfs_order g).
Proof.
  intros Hnd Hroutes. apply submseteq_length, NoDup_submseteq; [done|].
  intros p Hp. apply route_listed. rewrite Forall_forall in Hroutes. by apply Hroutes.
Qed.

(** X18: when the cap [MaxPaths] is not reached (the graph has no more
    routes than that) and no room lists a link twice, the route set
    returned by [FindPaths] needs the fewest turns of all sets of distinct
    routes of the graph with pairwise disjoint interiors. *)
Theorem FindPaths_fewest_turns (MaxPaths : Z) (g : Graph) :
  graph_in_range MaxPaths g -> Start g <> End g -> connected g ->
  ants_in_range (Ants g) -> (forall r, NoDup (Links g r)) ->
  (forall ps, NoDup ps -> Forall (route g) ps ->
              (Z.of_nat (length ps) <= MaxPaths)%Z) ->
  exists rs T,
    returns (fun fuel => FindPaths MaxPaths fuel g) rs /\
    turns_of (Ants g) rs T /\
    forall ps T', ps <> [] -> NoDup ps -> Forall (route g) ps ->
                  pairwise_disjoint ps -> turns_of (Ants g) ps T' ->
                  (T <= T')%Z.
Proof.
  intros Hrange Hne Hconn HA Hlinks Hcap.
  set (routes := routes_in_dfs_order g).
  assert (Hnd : NoDup routes) by (by apply dfs_order_NoDup).
  assert (Hall : take (Z.to_nat MaxPaths) routes = routes).
  { apply take_ge. specialize (Hcap routes Hnd (Forall_route_listed g)). lia. }
  set (sorted := stable less_len routes).
  assert (Hperm : sorted ≡ₚ routes) by apply stable_perm.
  assert (Hnds : NoDup sorted) by (by rewrite Hperm).
  pose proof (listed_routes_in_range MaxPaths g Hrange Hne) as Hin.
  fold routes in Hin. rewrite Hall in Hin. fold sorted in Hin.
  destruct (bestDisjointPaths_least sorted (Ants g) HA Hin)
    as (rs & Hrun & [[Hnil _]|(d & T & Hcomb & -> & HT & _ & Hmin)]).
  { exfalso. destruct (connected_route g Hconn) as (w & Hw%route_listed).
    fold routes in Hw. rewrite <- Hperm, Hnil in Hw. by apply elem_of_nil in Hw. }
  exists (chosen d sorted), T. split; [|split; [done|]].
  { apply FindPaths_returns. fold routes. by rewrite Hall. }
  intros ps T' Hps Hndp Hroutes Hpd HT'.
  destruct (routes_selection sorted ps Hnds Hndp) as (d' & Hlen & Hsel).
  { intros p Hp. rewrite Hperm. apply route_listed.
    rewrite Forall_forall in Hroutes. by apply Hroutes. }
  assert (Hc' : combination sorted d').
  { split; [done|]. split.
    - intros Hnil. rewrite Hnil in Hsel. by apply Permutation_nil_l in Hsel.
    - apply (pairwise_disjoint_perm ps); [done|by symmetry|done]. }
  destruct (chosen_turns sorted (Ants g) d' HA Hin (proj1 (proj2 Hc')))
    as (T1 & _ & _ & Hrun1).
  assert (Ht1 : turns_of (Ants g) (chosen d' sorted) T1) by (by eexists).
  specialize (Hmin d' T1 Hc' Ht1).
  assert (T <= T1)%Z by (destruct Hmin as [[?|[? _]]|[? _]]; lia).
  assert (T1 = T') as <-; [|done].
  apply (returns_inj (fun fuel => countTurns fuel (Ants g) (map hops ps))); [|done].
  apply (countTurns_perm (Ants g) (map hops (chosen d' sorted))); auto.
  - by apply chosen_hops_in_range.
  - by apply fmap_Permutation.
Qed.

Lemma FindPaths_fewest_turns_witness :
  exists rs T,
    returns (fun fuel => FindPaths 10 fuel diamond) rs /\
    turns_of (Ants diamond) rs T /\
    forall ps T', ps <> [] -> NoDup ps -> Forall (route diamond) ps ->
                  pairwise_disjoint ps -> turns_of (Ants diamond) ps T' ->
                  (T <= T')%Z.
Proof.
  apply (FindPaths_fewest_turns 10 diamond).
  - split; [lia|]. vm_compute. reflexivity.
  - discriminate.
  - exists [0; 1; 3]. repeat split; apply (bool_decide_unpack _); vm_compute; exact I.
  - unfold ants_in_range, GoInt.int_min. simpl. lia.
  - apply diamond_links.
  - intros ps Hnd Hroutes. pose proof (route_count diamond ps Hnd Hroutes) as H.
    assert (E : length (routes_in_dfs_order diamond) = 2) by (vm_compute; reflexivity).
    lia.
Defined.

End EngineOptimal.

Section SortMore.
Context {A : Type} (key : A -> nat).

Lemma with_key_cons k (x : A) l :
  with_key key k (x :: l) =
  if decide (key x = k) then x :: with_key key k l else with_key key k l.
Proof. unfold with_key. by rewrite filter_cons. Qed.

(** A list sorted by key is determined by its elements of each key. *)
Lemma sorted_by_parts (M : list A) : forall X : list A,
  StronglySorted (by_key key) M -> StronglySorted (by_key key) X ->
  (forall k, with_key key k M = with_key key k X) -> M = X.
Proof.
  assert (Hhead : forall (m : A) M' X,
            StronglySorted (by_key key) X ->
            with_key key (key m) (m :: M') = with_key key (key m) X ->
            exists x X', X = x :: X' /\ key x <= key m).
  { intros m M' X HX Heq. rewrite with_key_cons, decide_True in Heq by done.
    destruct X as [|x X']; [done|]. exists x, X'. split; [done|].
    assert (Hm : m ∈ with_key key (key m) (x :: X')) by (rewrite <- Heq; left).
    apply list_elem_of_filter in Hm as [_ Hm].
    apply elem_of_cons in Hm as [->|Hm]; [done|].
    apply StronglySorted_inv in HX as [_ Hx]. rewrite Forall_forall in Hx.
    by apply Hx. }
  induction M as [|m M IH]; intros X HM HX Heq.
  - destruct X as [|x X]; [done|]. specialize (Heq (key x)).
    rewrite with_key_cons, decide_True in Heq by done. done.
  - destruct (Hhead m M X HX (Heq (key m))) as (x & X' & -> & Hle).
    destruct (Hhead x X' (m :: M) HM (eq_sym (Heq (key x)))) as (m' & M' & [= <- <-] & Hle').
    assert (Hk : key m = key x) by lia.
    pose proof (Heq (key m)) as H0.
    rewrite !with_key_cons, Hk, !decide_True in H0 by done.
    injection H0 as -> H0. f_equal.
    apply StronglySorted_inv in HM as [HM _]. apply StronglySorted_inv in HX as [HX _].
    apply IH; auto. intros k. specialize (Heq k).
    rewrite !with_key_cons in Heq. case_decide; [by injection Heq|done].
Qed.

End SortMore.

(** X19: the sort of [FindPaths] changes nothing in a list that is
    already by non-decreasing length; hence sorting twice is sorting
    once. *)
Theorem FindPaths_sort_keeps_sorted (all : list (list nat)) :
  (StronglySorted (fun p q => length p <= length q) all ->
   stable less_len all = all) /\
  stable less_len (stable less_len all) = stable less_len all.
Proof.
  assert (H : forall l, StronglySorted (by_key length) l -> stable less_len l = l).
  { intros l Hs.
    destruct (stable_spec length less_len less_len_key l) as (Hs1 & _ & Hk1).
    by apply (sorted_by_parts length). }
  split; [apply H|].
  apply H. by destruct (stable_spec length less_len less_len_key all).
Qed.

Section OneAnt.

(** With one ant the turn count of a set of routes is the hop count of
    its shortest route, so a shortest route alone is selected: the first
    of the list when none is shorter. *)
Lemma bestDisjointPaths_one_ant (p0 : list nat) (all : list (list nat)) :
  paths_in_range (p0 :: all) -> Forall (fun q => length p0 <= length q) all ->
  returns (fun fuel => bestDisjointPaths fuel (p0 :: all) 1) [p0].
Proof.
  intros Hall Hshort.
  assert (HA : ants_in_range 1) by (unfold ants_in_range, GoInt.int_min; lia).
  destruct (bestDisjointPaths_least (p0 :: all) 1 HA Hall)
    as (rs & Hrun & [[? _]|(d & T & Hcomb & -> & HT & Hleast & Hmin)]); [done|].
  destruct (first_route_combination p0 all) as (Hc0 & Hsel & Hidx).
  set (d0 := true :: replicate (length all) false) in *.
  assert (Hp0 : 2 <= length p0).
  { destruct Hall as [Hl _]. apply Forall_cons in Hl as [[? _] _]. done. }
  assert (d = d0) as ->.
  { destruct (chosen_turns (p0 :: all) 1 d0 HA Hall (proj1 (proj2 Hc0)))
      as (T0 & (H1 & H2 & H3) & _ & Hrun0).
    assert (Ht0 : turns_of 1 (chosen d0 (p0 :: all)) T0) by (by eexists).
    specialize (Hmin d0 T0 Hc0 Ht0).
    rewrite Hsel in H2, H3. simpl in H2, H3.
    assert (HT0 : T0 = hops p0).
    { specialize (H3 (hops p0)). unfold hops in *. lia. }
    assert (HTlow : (hops p0 <= T)%Z).
    { destruct Hleast as (_ & Hcap & _).
      destruct (capacity_pos_min T (map hops (chosen d (p0 :: all))) ltac:(lia))
        as (l & (q & -> & Hq)%list_elem_of_fmap & Hle).
      apply chosen_sub in Hq. apply elem_of_cons in Hq as [->|Hq]; [done|].
      rewrite Forall_forall in Hshort. specialize (Hshort q Hq).
      unfold hops in *. lia. }
    apply (chosen_idx_inj d d0 0); [destruct Hcomb, Hc0; congruence|].
    rewrite Hidx in *.
    destruct Hmin as [[?|[_ Hlex]]|[_ ?]]; [lia| |done].
    destruct (chosen_idx d 0) as [|x ix] eqn:Eix; simpl in *.
    - pose proof (chosen_idx_length d (p0 :: all) 0 (proj1 Hcomb)) as Hlen.
      rewrite Eix in Hlen. destruct Hcomb as (_ & Hne & _).
      by destruct (chosen d (p0 :: all)).
    - destruct Hlex as [?|[_ Hlex]]; [lia|]. by destruct ix. }
  by rewrite Hsel in Hrun.
Qed.

(** X20: with a single ant, [FindPaths] returns one route alone: the
    first of the sorted enumeration, which no enumerated route is shorter
    than (or no route when there is none). *)
Theorem FindPaths_one_ant (MaxPaths : Z) (g : Graph) :
  graph_in_range MaxPaths g -> Start g <> End g -> Ants g = 1%Z ->
  exists rs,
    returns (fun fuel => FindPaths MaxPaths fuel g) rs /\
    rs = take 1 (stable less_len
                   (take (Z.to_nat MaxPaths) (routes_in_dfs_order g))) /\
    forall p q, p ∈ rs ->
                q ∈ take (Z.to_nat MaxPaths) (routes_in_dfs_order g) ->
                length p <= length q.
Proof.
  intros Hrange Hne Hants.
  set (all := take (Z.to_nat MaxPaths) (routes_in_dfs_order g)).
  pose proof (listed_routes_in_range MaxPaths g Hrange Hne) as Hin. fold all in Hin.
  destruct (stable_spec length less_len less_len_key all) as (Hs & Hp & _).
  exists (take 1 (stable less_len all)). split; [|split; [done|]].
  - apply FindPaths_returns. fold all. rewrite Hants.
    destruct (stable less_len all) as [|p0 rest] eqn:E.
    + by exists 0.
    + simpl. rewrite take_0. apply bestDisjointPaths_one_ant; [done|].
      by apply StronglySorted_inv in Hs as [_ Hs].
  - intros p q Hp0 Hq. rewrite <- Hp in Hq.
    destruct (stable less_len all) as [|p0 rest] eqn:E; [by apply elem_of_nil in Hp0|].
    simpl in Hp0. rewrite take_0 in Hp0. apply list_elem_of_singleton in Hp0 as ->.
    apply elem_of_cons in Hq as [->|Hq]; [done|].
    apply StronglySorted_inv in Hs as [_ Hs]. rewrite Forall_forall in Hs.
    by apply Hs.
Qed.

Lemma FindPaths_one_ant_witness :
  exists rs,
    returns (fun fuel => FindPaths 10 fuel detour) rs /\
    rs = take 1 (stable less_len
                   (take (Z.to_nat 10) (routes_in_dfs_order detour))) /\
    forall p q, p ∈ rs ->
                q ∈ take (Z.to_nat 10) (routes_in_dfs_order detour) ->
                length p <= length q.
Proof.
  apply (FindPaths_one_ant 10 detour).
  - split; [lia|]. vm_compute. reflexivity.
  - discriminate.
  - reflexivity.
Defined.

End OneAnt.

Section SelectorMonotone.

(** The least score of [bestDisjointPaths] is at most the turn count of
    any set of distinct routes of the list with disjoint interiors. *)
Lemma least_beats_routes (all : list (list nat)) (ants : Z) (d : list bool) (T : Z) :
  ants_in_range ants -> paths_in_range all -> NoDup all ->
  (forall d' T', combination all d' -> turns_of ants (chosen d' all) T' ->
                 key_le T (chosen_idx d 0) T' (chosen_idx d' 0)) ->
  forall ps T', ps <> [] -> NoDup ps -> (forall p, p ∈ ps -> p ∈ all) ->
                pairwise_disjoint ps -> turns_of ants ps T' -> (T <= T')%Z.
Proof.
  intros HA Hin Hnd Hmin ps T' Hps Hndp Hsub Hpd HT'.
  destruct (routes_selection all ps Hnd Hndp Hsub) as (d' & Hlen & Hsel).
  assert (Hc' : combination all d').
  { split; [done|]. split.
    - intros Hnil. rewrite Hnil in Hsel. by apply Permutation_nil_l in Hsel.
    - apply (pairwise_disjoint_perm ps); [done|by symmetry|done]. }
  destruct (chosen_turns all ants d' HA Hin (proj1 (proj2 Hc')))
    as (T1 & _ & _ & Hrun1).
  assert (Ht1 : turns_of ants (chosen d' all) T1) by (by eexists).
  specialize (Hmin d' T1 Hc' Ht1).
  assert (T <= T1)%Z by (destruct Hmin as [[?|[? _]]|[? _]]; lia).
  assert (T1 = T') as <-; [|done].
  apply (returns_inj (fun fuel => countTurns fuel ants (map hops ps))); [|done].
  apply (countTurns_perm ants (map hops (chosen d' all))); auto.
  - by apply chosen_hops_in_range.
  - by apply fmap_Permutation.
Qed.

Lemma chosen_sublist (d : list bool) : forall l : list (list nat),
  chosen d l `sublist_of` l.
Proof.
  induction d as [|[|] d IH]; intros [|p l]; simpl; try apply sublist_nil_l.
  - by apply sublist_skip.
  - by apply sublist_cons.
Qed.

(** X24: raising the cap never costs turns: for [MaxPaths <= MaxPaths']
    (and no room listing a link twice) the route set that [FindPaths]
    returns under [MaxPaths'] needs at most the turns of the one it
    returns under [MaxPaths]. *)
Theorem FindPaths_raising_cap (MaxPaths MaxPaths' : Z) (g : Graph) :
  graph_in_range MaxPaths' g -> Start g <> End g -> connected g ->
  (0 < MaxPaths <= MaxPaths')%Z -> ants_in_range (Ants g) ->
  (forall r, NoDup (Links g r)) ->
  exists rs T rs' T',
    returns (fun fuel => FindPaths MaxPaths fuel g) rs /\
    turns_of (Ants g) rs T /\
    returns (fun fuel => FindPaths MaxPaths' fuel g) rs' /\
    turns_of (Ants g) rs' T' /\
    (T' <= T)%Z.
Proof.
  intros Hrange Hne Hconn Hcap HA Hlinks.
  assert (Hrange0 : graph_in_range MaxPaths g).
  { destruct Hrange. split; [lia|done]. }
  set (routes := routes_in_dfs_order g).
  assert (Hnd : NoDup routes) by (by apply dfs_order_NoDup).
  set (all := take (Z.to_nat MaxPaths) routes).
  set (all' := take (Z.to_nat MaxPaths') routes).
  assert (Hpre : all `sublist_of` all').
  { unfold all, all'.
    replace (Z.to_nat MaxPaths) with (Z.to_nat MaxPaths `min` Z.to_nat MaxPaths') by lia.
    rewrite <- take_take. apply sublist_take. }
  assert (Hnd' : NoDup all') by (eapply sublist_NoDup; [exact Hnd|apply sublist_take]).
  assert (Hnd0 : NoDup all) by (eapply sublist_NoDup; [exact Hnd'|exact Hpre]).
  pose proof (stable_perm less_len all) as Hp.
  pose proof (stable_perm less_len all') as Hp'.
  pose proof (listed_routes_in_range MaxPaths g Hrange0 Hne) as Hin.
  pose proof (listed_routes_in_range MaxPaths' g Hrange Hne) as Hin'.
  fold routes all in Hin. fold routes all' in Hin'.
  assert (Hall : all <> []).
  { destruct (connected_route g Hconn) as (w & Hw%route_listed). fold routes in Hw.
    unfold all. apply take_nonempty; [lia|]. intros E. rewrite E in Hw.
    by apply elem_of_nil in Hw. }
  destruct (bestDisjointPaths_least (stable less_len all) (Ants g) HA Hin)
    as (rs & Hrun & [[Hnil _]|(d & T & Hcomb & -> & HT & _ & _)]).
  { exfalso. apply Hall. rewrite Hnil in Hp. by apply Permutation_nil_l in Hp. }
  destruct (bestDisjointPaths_least (stable less_len all') (Ants g) HA Hin')
    as (rs' & Hrun' & [[Hnil _]|(d' & T' & Hcomb' & -> & HT' & _ & Hmin')]).
  { exfalso. apply Hall. rewrite Hnil in Hp'. apply Permutation_nil_l in Hp'.
    rewrite <- Hp' in Hpre. by apply sublist_nil_r in Hpre. }
  exists (chosen d (stable less_len all)), T, (chosen d' (stable less_len all')), T'.
  split; [by apply FindPaths_returns|]. split; [done|].
  split; [by apply FindPaths_returns|]. split; [done|].
  apply (least_beats_routes (stable less_len all') (Ants g) d' T' HA Hin')
    with (ps := chosen d (stable less_len all)); auto.
  - by rewrite Hp'.
  - apply Hcomb.
  - eapply sublist_NoDup; [|apply chosen_sublist]. by rewrite Hp.
  - intros p Hp0%chosen_sub. rewrite Hp in Hp0. rewrite Hp'.
    by apply (elem_of_sublist all).
  - apply Hcomb.
Qed.

Lemma FindPaths_raising_cap_witness :
  exists rs T rs' T',
    returns (fun fuel => FindPaths 1 fuel diamond) rs /\
    turns_of (Ants diamond) rs T /\
    returns (fun fuel => FindPaths 10 fuel diamond) rs' /\
    turns_of (Ants diamond) rs' T' /\
    (T' <= T)%Z.
Proof.
  apply (FindPaths_raising_cap 1 10 diamond).
  - split; [lia|]. vm_compute. reflexivity.
  - discriminate.
  - exists [0; 1; 3]. repeat split; apply (bool_decide_unpack _); vm_compute; exact I.
  - lia.
  - unfold ants_in_range, GoInt.int_min. simpl. lia.
  - apply diamond_links.
Defined.

End SelectorMonotone.
